(** * Reverse-mode gradient generation over a computation graph

    A shallow embedding of [glow/Graph/Grad.cpp]: the gradient map
    ([GraphGradMapper]) and the pass [generateGradientNodes], which walks the
    graph in reverse post order, builds the backward nodes, synthesises the
    parameter updates and appends the new nodes to the graph.

    Pointers are modelled by positions in an append-only arena of node
    objects ([heap]); [new] appends to the arena.  The pass runs in a state
    and error monad: a fatal internal error ([glow_unreachable], a lookup of
    a missing gradient) stops the computation. *)

From Stdlib Require Import ZArith NArith SpecFloat.
From stdpp Require Import base option list gmap strings.


(** ** Data model *)

(** A [Node*] is the position of the object in the arena. *)
Definition NodeId := nat.

(** [NodeValue]: one result of a node, the pair (node, result number). *)
Record NodeValue := mkNodeValue { getNode : NodeId; getResNo : nat }.

#[global] Instance NodeValue_eq_dec : EqDecision NodeValue.
Proof. solve_decision. Defined.

#[global] Instance NodeValue_countable : Countable NodeValue.
Proof.
  refine (inj_countable' (λ v, (getNode v, getResNo v))
                         (λ p, mkNodeValue p.1 p.2) _).
  by intros [].
Defined.

(** The implicit conversion from [Node*] to [NodeValue] selects result 0. *)
Definition ofNode (N : NodeId) : NodeValue := mkNodeValue N 0.

(** Modelled from the spec: the tensor type system is an external
    collaborator "describing shapes and element types"; a type is an element
    kind and the list of extents ([dims()], each a [size_t]). *)
Inductive ElemKind := FloatTy | IndexTy.

Record TypeRef := mkType { elemTy : ElemKind; dims : list N }.

#[global] Instance ElemKind_eq_dec : EqDecision ElemKind.
Proof. solve_decision. Defined.

#[global] Instance TypeRef_eq_dec : EqDecision TypeRef.
Proof. solve_decision. Defined.

(** Modelled from the spec: [G.getVoidTy()] is declared outside this file; the
    spec calls the accumulator built from it "a zero-sized placeholder". *)
Definition getVoidTy : TypeRef := mkType FloatTy [].

(** C [float] values are kept as IEEE specification floats. *)
Definition float := spec_float.

Definition fzero : float := S754_zero false.

(** [x > 0] on floats: false on a NaN, on both zeros and on negatives. *)
Definition fgt0 (x : float) : bool := SFltb fzero x.

Inductive InitKind := Extern | Broadcast | Xavier.

Inductive ArithMode := Add | Mul | Sub.

(** The operators whose backward rule is their own [getGrad], built by
    [CONVERT_TO_GRAD_NODE] (arithmetic has a class of its own below), and a
    tag for any operator declared elsewhere. *)
Inductive OpKind :=
| Convolution
| Pool
| FullyConnected
| BatchNormalization
| LocalResponseNormalization
| SoftMax
| Regression
| Relu
| Sigmoid
| Tanh
| Other (tag : nat).

(** [Kinded::Kind]: the kinds this file names, the kinds of the nodes it
    constructs, the kinds of the gradient nodes the per-kind [getGrad]
    returns, and the kinds declared elsewhere. *)
Inductive Kind :=
| VariableKind
| ConvolutionNodeKind
| PoolNodeKind
| FullyConnectedNodeKind
| BatchNormalizationNodeKind
| LocalResponseNormalizationNodeKind
| SoftMaxNodeKind
| RegressionNodeKind
| ArithmeticNodeKind
| ReluNodeKind
| SigmoidNodeKind
| TanhNodeKind
| SaveNodeKind
| ReshapeNodeKind
| TransposeNodeKind
| SliceNodeKind
| ConcatNodeKind
| ZeroNodeKind
| InsertTensorNodeKind
| SGDNodeKind
| GradNodeKind (orig : Kind)
| OtherKind (tag : nat).

#[global] Instance OpKind_eq_dec : EqDecision OpKind.
Proof. solve_decision. Defined.

#[global] Instance Kind_eq_dec : EqDecision Kind.
Proof. solve_decision. Defined.

(** The node classes.  Every class stores its name; a class with one result
    stores the result's type. *)
Inductive Node :=
| Variable_ (name : string) (Ty : TypeRef) (initKind : InitKind) (val : float)
| OpNode (op : OpKind) (name : string) (Ty : TypeRef) (inputs : list NodeValue)
| ArithmeticNode (name : string) (Ty : TypeRef) (LHS RHS : NodeValue)
                 (mode : ArithMode)
| SaveNode (name : string) (input : NodeValue) (output : NodeId)
| ReshapeNode (name : string) (Ty : TypeRef) (input : NodeValue)
              (newDims : list N)
| TransposeNode (name : string) (Ty : TypeRef) (input : NodeValue)
                (shuffle : list nat)
| SliceNode (name : string) (Ty : TypeRef) (input : NodeValue)
            (start : list N)
| ConcatNode (name : string) (Ty : TypeRef) (inputs : list NodeValue)
             (dim : nat)
| ZeroNode (name : string) (Ty : TypeRef)
| InsertTensorNode (name : string) (Ty : TypeRef) (big small : NodeValue)
                   (start : list N)
| SGDNode (name : string) (gradient : NodeValue) (weight : NodeId)
          (gsum : NodeId) (L1Decay L2Decay learningRate momentum : float)
          (batchSize : N)
| GradNode (orig : Kind) (name : string) (inputs : list NodeValue)
           (result outputGrad : NodeValue) (gradTys : list TypeRef).

Definition getKind (nd : Node) : Kind :=
  match nd with
  | Variable_ _ _ _ _ => VariableKind
  | OpNode Convolution _ _ _ => ConvolutionNodeKind
  | OpNode Pool _ _ _ => PoolNodeKind
  | OpNode FullyConnected _ _ _ => FullyConnectedNodeKind
  | OpNode BatchNormalization _ _ _ => BatchNormalizationNodeKind
  | OpNode LocalResponseNormalization _ _ _ =>
      LocalResponseNormalizationNodeKind
  | OpNode SoftMax _ _ _ => SoftMaxNodeKind
  | OpNode Regression _ _ _ => RegressionNodeKind
  | OpNode Relu _ _ _ => ReluNodeKind
  | OpNode Sigmoid _ _ _ => SigmoidNodeKind
  | OpNode Tanh _ _ _ => TanhNodeKind
  | OpNode (Other tag) _ _ _ => OtherKind tag
  | ArithmeticNode _ _ _ _ _ => ArithmeticNodeKind
  | SaveNode _ _ _ => SaveNodeKind
  | ReshapeNode _ _ _ _ => ReshapeNodeKind
  | TransposeNode _ _ _ _ => TransposeNodeKind
  | SliceNode _ _ _ _ => SliceNodeKind
  | ConcatNode _ _ _ _ => ConcatNodeKind
  | ZeroNode _ _ => ZeroNodeKind
  | InsertTensorNode _ _ _ _ _ => InsertTensorNodeKind
  | SGDNode _ _ _ _ _ _ _ _ _ => SGDNodeKind
  | GradNode orig _ _ _ _ _ => GradNodeKind orig
  end.

Definition getName (nd : Node) : string :=
  match nd with
  | Variable_ name _ _ _ | OpNode _ name _ _ | ArithmeticNode name _ _ _ _
  | SaveNode name _ _ | ReshapeNode name _ _ _ | TransposeNode name _ _ _
  | SliceNode name _ _ _ | ConcatNode name _ _ _ | ZeroNode name _
  | InsertTensorNode name _ _ _ _ | SGDNode name _ _ _ _ _ _ _ _
  | GradNode _ name _ _ _ _ => name
  end.

(** The operands of a node, in the order its [visit] walks them. *)
Definition getInputs (nd : Node) : list NodeValue :=
  match nd with
  | Variable_ _ _ _ _ => []
  | OpNode _ _ _ inputs => inputs
  | ArithmeticNode _ _ LHS RHS _ => [LHS; RHS]
  | SaveNode _ input output => [input; ofNode output]
  | ReshapeNode _ _ input _ => [input]
  | TransposeNode _ _ input _ => [input]
  | SliceNode _ _ input _ => [input]
  | ConcatNode _ _ inputs _ => inputs
  | ZeroNode _ _ => []
  | InsertTensorNode _ _ big small _ => [big; small]
  | SGDNode _ gradient weight gsum _ _ _ _ _ =>
      [gradient; ofNode weight; ofNode gsum]
  | GradNode _ _ inputs result outputGrad _ =>
      inputs ++ [result; outputGrad]
  end.

(** The type of result [resNo]; a save or an update node has no result. *)
Definition getResultType (nd : Node) (resNo : nat) : option TypeRef :=
  match nd with
  | Variable_ _ Ty _ _ | OpNode _ _ Ty _ | ArithmeticNode _ Ty _ _ _
  | ReshapeNode _ Ty _ _ | TransposeNode _ Ty _ _ | SliceNode _ Ty _ _
  | ConcatNode _ Ty _ _ | ZeroNode _ Ty | InsertTensorNode _ Ty _ _ _ =>
      if decide (resNo = 0) then Some Ty else None
  | SaveNode _ _ _ | SGDNode _ _ _ _ _ _ _ _ _ => None
  | GradNode _ _ _ _ _ gradTys => gradTys !! resNo
  end.

Definition isaVariable (nd : Node) : bool :=
  bool_decide (getKind nd = VariableKind).

(** The hyperparameters of the update nodes. *)
Record TrainingConfig := mkTrainingConfig {
  learningRate : float;
  momentum : float;
  L1Decay : float;
  L2Decay : float;
  batchSize : N }.

Inductive CompilationMode := Infer | Train | TrainDebug.

#[global] Instance CompilationMode_eq_dec : EqDecision CompilationMode.
Proof. solve_decision. Defined.

(** The graph: the arena of node objects and the lists of the nodes and
    variables the graph owns, with the gradient variables recorded by
    [addGradientVariable]. *)
Record Graph := mkGraph {
  heap : list Node;
  nodes_ : list NodeId;
  vars_ : list NodeId;
  grads_ : list (NodeId * NodeId) }.

(** The state of one run of the pass: the graph, the map of the
    [GraphGradMapper] and the two staging lists. *)
Record State := mkState {
  G_ : Graph;
  map_ : gmap NodeValue NodeValue;
  toAppend : list NodeId;
  newVars : list NodeId }.

(** ** Errors and the monad of the pass *)

Inductive Error :=
| UnsupportedKind   (* [glow_unreachable] at the end of the dispatch *)
| MissingGradient   (* [map_.get] of a value with no entry *)
| InvalidAccess     (* a dangling reference or an index out of range *)
| Diverged.         (* the traversal of a cyclic graph *)

Inductive Result (A : Type) :=
| Ok (a : A)
| Fatal (e : Error).
Arguments Ok {A} a.
Arguments Fatal {A} e.

Definition M (A : Type) : Type := State → Result (A * State).

#[global] Instance Result_ret : MRet Result := λ A a, Ok a.
#[global] Instance Result_bind : MBind Result := λ A B f r,
  match r with
  | Ok a => f a
  | Fatal e => Fatal e
  end.

#[global] Instance M_ret : MRet M := λ A a s, Ok (a, s).
#[global] Instance M_bind : MBind M := λ A B f m s,
  match m s with
  | Ok (a, s') => f a s'
  | Fatal e => Fatal e
  end.

Definition fatal {A} (e : Error) : M A := λ _, Fatal e.

(** [toAppend.push_back(X)] and [newVars.push_back(V)]. *)
Definition toAppend_push_back (X : NodeId) : M unit :=
  λ s, Ok (tt, mkState (G_ s) (map_ s) (toAppend s ++ [X]) (newVars s)).

Definition newVars_push_back (V : NodeId) : M unit :=
  λ s, Ok (tt, mkState (G_ s) (map_ s) (toAppend s) (newVars s ++ [V])).

(** [new]: the object goes to the end of the arena. *)
Definition new (nd : Node) : M NodeId :=
  λ s, let g := G_ s in
       Ok (length (heap g),
           mkState (mkGraph (heap g ++ [nd]) (nodes_ g) (vars_ g) (grads_ g))
                   (map_ s) (toAppend s) (newVars s)).

Definition deref (N : NodeId) : M Node :=
  λ s, match heap (G_ s) !! N with
       | Some nd => Ok (nd, s)
       | None => Fatal InvalidAccess
       end.

Definition getType (v : NodeValue) : M TypeRef :=
  nd ← deref (getNode v);
  match getResultType nd (getResNo v) with
  | Some Ty => mret Ty
  | None => fatal InvalidAccess
  end.

(** [v->getType()]: the arrow reaches the node of [v], whose [getType] is the
    type of its first result. *)
Definition getTypeOfNode (v : NodeValue) : M TypeRef :=
  getType (ofNode (getNode v)).

(** [G.addNode], [G.addVar] and [G.addGradientVariable]. *)
Definition addNode (N : NodeId) : M unit :=
  λ s, let g := G_ s in
       Ok (tt, mkState (mkGraph (heap g) (nodes_ g ++ [N]) (vars_ g) (grads_ g))
                       (map_ s) (toAppend s) (newVars s)).

Definition addVar (V : NodeId) : M unit :=
  λ s, let g := G_ s in
       Ok (tt, mkState (mkGraph (heap g) (nodes_ g) (vars_ g ++ [V]) (grads_ g))
                       (map_ s) (toAppend s) (newVars s)).

Definition addGradientVariable (V GradV : NodeId) : M unit :=
  λ s, let g := G_ s in
       Ok (tt, mkState (mkGraph (heap g) (nodes_ g) (vars_ g)
                                (grads_ g ++ [(V, GradV)]))
                       (map_ s) (toAppend s) (newVars s)).

(** Modelled from the spec: [Graph::createArithmetic] is declared outside this
    file; it "construct[s] a new elementwise-sum node combining the existing
    gradient and [grad]".  As the other [create] members of the graph it
    inserts the node it builds into the graph; the node takes the type of its
    left operand. *)
Definition createArithmetic (name : string) (LHS RHS : NodeValue)
    (mode : ArithMode) : M NodeId :=
  Ty ← getType LHS;
  A ← new (ArithmeticNode name Ty LHS RHS mode);
  addNode A;;
  mret A.

(** Modelled from the spec: [Graph::createSave] is declared outside this file;
    it "create[s] an additional graph output node exposing that gradient",
    writing to a fresh variable of the gradient's type that the graph owns at
    once. *)
Definition createSave (name : string) (input : NodeValue)
    : M (NodeId * NodeId) :=
  Ty ← getType input;
  dest ← new (Variable_ name Ty Extern fzero);
  addVar dest;;
  S ← new (SaveNode name input dest);
  addNode S;;
  mret (S, dest).

(** ** The gradient map *)

(** Modelled from the spec: the map type is declared outside this file; it is
    "a mutable mapping from value reference to its currently accumulated
    gradient", [insert] replacing the entry of its key. *)
Definition map_count (activation : NodeValue) : M bool :=
  λ s, Ok (bool_decide (is_Some (map_ s !! activation)), s).

Definition map_get (activation : NodeValue) : M NodeValue :=
  λ s, match map_ s !! activation with
       | Some g => Ok (g, s)
       | None => Fatal MissingGradient
       end.

Definition map_insert (activation grad : NodeValue) : M unit :=
  λ s, Ok (tt, mkState (G_ s) (<[activation := grad]> (map_ s))
                       (toAppend s) (newVars s)).

Definition addGradient (activation grad : NodeValue) : M unit :=
  c ← map_count activation;
  if c : bool then
    curr ← map_get activation;
    sum ← createArithmetic "updateGrad" curr grad Add;
    map_insert activation (ofNode sum)
  else
    map_insert activation grad.

Definition hasGradient (activation : NodeValue) : M bool :=
  map_count activation.

Definition getGradient (activation : NodeValue) : M NodeValue :=
  map_get activation.

(** ** Dependency-order traversal *)

(** Modelled from the spec: [PostOrderVisitor] and [Node::visit] are declared
    outside this file; the traversal "produces a single linear sequence ...
    ordered so that a node never precedes any node it depends on (a
    dependency-first / post order)".  A node already in the sequence is not
    walked again; otherwise its operands are walked in order, then the node
    is appended.  The walk of a cyclic graph does not return; [fuel] bounds
    the depth of the recursion. *)
Fixpoint visit (fuel : nat) (h : list Node) (N : NodeId)
    (postOrder_ : list NodeId) : Result (list NodeId) :=
  match fuel with
  | 0 => Fatal Diverged
  | S fuel' =>
      if bool_decide (N ∈ postOrder_) then Ok postOrder_
      else match h !! N with
           | None => Fatal InvalidAccess
           | Some nd =>
               pov ← foldl (λ acc v, p ← acc; visit fuel' h (getNode v) p)
                           (Ok postOrder_) (getInputs nd);
               Ok (pov ++ [N])
           end
  end.

Definition visitAll (h : list Node) (roots : list NodeId)
    (postOrder_ : Result (list NodeId)) : Result (list NodeId) :=
  foldl (λ acc N, p ← acc; visit (length h) h N p) postOrder_ roots.

(** The two loops over [G.getVars()] and [G.getNodes()], then
    [getPostOrder]. *)
Definition getPostOrder (g : Graph) : Result (list NodeId) :=
  visitAll (heap g) (nodes_ g) (visitAll (heap g) (vars_ g) (Ok [])).

(** ** The backward rules *)

Fixpoint forM_ {A} (l : list A) (f : A → M unit) : M unit :=
  match l with
  | [] => mret tt
  | x :: l' => f x;; forM_ l' f
  end.

Fixpoint mapM_ {A B} (f : A → M B) (l : list A) : M (list B) :=
  match l with
  | [] => mret []
  | x :: l' => y ← f x; ys ← mapM_ f l'; mret (y :: ys)
  end.

(** Modelled from the spec: the [getGrad] member of each operator class is
    generated outside this file.  "Each rule receives the node and the
    gradient map, looks up the gradient of the node's output(s) via
    [getGradient], constructs the backward node(s) implementing that
    operator's local derivative, and registers the resulting gradient(s) for
    the node's input(s) via [addGradient]."  The backward node has one result
    per operand of the forward node, typed as that operand. *)
Definition getGrad (N : NodeId) (nd : Node) : M NodeId :=
  outputG ← getGradient (ofNode N);
  tys ← mapM_ getType (getInputs nd);
  X ← new (GradNode (getKind nd) (getName nd) (getInputs nd) (ofNode N)
                    outputG tys);
  forM_ (imap (λ i v, (v, mkNodeValue X i)) (getInputs nd))
        (λ p, addGradient p.1 p.2);;
  mret X.

(** [CONVERT_TO_GRAD_NODE(NodeKind)]; [next] is the code after the macro. *)
Definition CONVERT_TO_GRAD_NODE (NodeKind : Kind) (N : NodeId) (nd : Node)
    (next : M unit) : M unit :=
  if bool_decide (getKind nd = NodeKind) then
    X ← getGrad N nd;
    toAppend_push_back X
  else next.

Definition liftOption {A} (o : option A) : M A :=
  match o with
  | Some a => mret a
  | None => fatal InvalidAccess
  end.

(** The loop [reverseShuffle[shuffle[i]] = i] over a copy of [shuffle]; a
    store outside the vector is undefined. *)
Definition reverseShuffleStep (shuffle : list nat)
    (acc : option (list nat)) (i : nat) : option (list nat) :=
  reverseShuffle ← acc;
  j ← shuffle !! i;
  if decide (j < length reverseShuffle)
  then Some (<[j := i]> reverseShuffle)
  else None.

Definition makeReverseShuffle (shuffle : list nat) : option (list nat) :=
  foldl (reverseShuffleStep shuffle) (Some shuffle)
        (seq 0 (length shuffle)).

(** [size_t] arithmetic wraps at 2^64. *)
Definition size_t_add (a b : N) : N := ((a + b) mod 2 ^ 64)%N.

(** The body of the loop over the inputs of a concat node; the slice it
    builds is registered as a gradient and is not put on [toAppend]. *)
Fixpoint concatGradLoop (outputG : NodeValue) (dim : nat)
    (inputs : list NodeValue) (offsets : list N) : M unit :=
  match inputs with
  | [] => mret tt
  | N :: rest =>
      Ty ← getType N;
      X ← new (SliceNode "extract" Ty outputG offsets);
      off ← liftOption (offsets !! dim);
      ext ← liftOption (dims Ty !! dim);
      addGradient N (ofNode X);;
      concatGradLoop outputG dim rest (<[dim := size_t_add off ext]> offsets)
  end.

(** The rules written out in the pass, for the nodes the macro does not
    take; a node of any other class ends in [glow_unreachable]. *)
Definition structuralGrad (N : NodeId) (nd : Node) : M unit :=
  match nd with
  | SaveNode name input output =>
      Ty ← getTypeOfNode input;
      X ← new (ZeroNode name Ty);
      toAppend_push_back X;;
      addGradient input (ofNode X);;
      addGradient (ofNode output) (ofNode X)
  | ReshapeNode name _ input _ =>
      outputG ← getGradient (ofNode N);
      Ty ← getTypeOfNode input;
      X ← new (ReshapeNode name Ty outputG (dims Ty));
      toAppend_push_back X;;
      addGradient input (ofNode X)
  | TransposeNode name _ input shuffle =>
      outputG ← getGradient (ofNode N);
      reverseShuffle ← liftOption (makeReverseShuffle shuffle);
      Ty ← getTypeOfNode input;
      X ← new (TransposeNode name Ty outputG reverseShuffle);
      toAppend_push_back X;;
      addGradient input (ofNode X)
  | SliceNode _ _ input start =>
      Ty ← getTypeOfNode input;
      zero ← new (ZeroNode "expand" Ty);
      outputG ← getGradient (ofNode N);
      insert ← new (InsertTensorNode "insert.slice.grad" Ty (ofNode zero)
                                     outputG start);
      toAppend_push_back zero;;
      toAppend_push_back insert;;
      addGradient input (ofNode insert)
  | ConcatNode _ Ty inputs dim =>
      outputG ← getGradient (ofNode N);
      concatGradLoop outputG dim inputs (replicate (length (dims Ty)) 0%N)
  | _ => fatal UnsupportedKind
  end.

(** One iteration of the reverse sweep. *)
Definition gradStep (N : NodeId) : M unit :=
  nd ← deref N;
  if isaVariable nd then mret tt else
  CONVERT_TO_GRAD_NODE ConvolutionNodeKind N nd $
  CONVERT_TO_GRAD_NODE PoolNodeKind N nd $
  CONVERT_TO_GRAD_NODE FullyConnectedNodeKind N nd $
  CONVERT_TO_GRAD_NODE BatchNormalizationNodeKind N nd $
  CONVERT_TO_GRAD_NODE LocalResponseNormalizationNodeKind N nd $
  CONVERT_TO_GRAD_NODE SoftMaxNodeKind N nd $
  CONVERT_TO_GRAD_NODE RegressionNodeKind N nd $
  CONVERT_TO_GRAD_NODE ArithmeticNodeKind N nd $
  CONVERT_TO_GRAD_NODE ReluNodeKind N nd $
  CONVERT_TO_GRAD_NODE SigmoidNodeKind N nd $
  CONVERT_TO_GRAD_NODE TanhNodeKind N nd $
  structuralGrad N nd.

(** The loop over the reversed post order. *)
Definition sweep (nodes : list NodeId) : M unit := forM_ nodes gradStep.

(** ** Update synthesis and commit *)

Section Pass.

(** [Variable::isTraining] is declared outside this file. *)
Variable isTraining : Node → bool.

(** The body of the loop over the variables of the graph. *)
Definition updateStep (conf : TrainingConfig) (mode : CompilationMode)
    (V : NodeId) : M unit :=
  nd ← deref V;
  debug ← (if bool_decide (mode = TrainDebug) then hasGradient (ofNode V)
           else mret false);
  (if debug : bool then
     let nodeName := String.append "_grad_" (getName nd) in
     g ← getGradient (ofNode V);
     saveNode ← createSave nodeName g;
     addGradientVariable V saveNode.2
   else mret tt);;
  if negb (isTraining nd) then mret tt else
  Ty ← (if fgt0 (momentum conf) then getType (ofNode V) else mret getVoidTy);
  gsum ← new (Variable_ "gsum" Ty Broadcast fzero);
  newVars_push_back gsum;;
  g ← getGradient (ofNode V);
  X ← new (SGDNode (getName nd) g V gsum (L1Decay conf) (L2Decay conf)
                   (learningRate conf) (momentum conf) (batchSize conf));
  toAppend_push_back X.

(** The loop ranges over the variables the graph holds when it starts. *)
Definition updateLoop (conf : TrainingConfig) (mode : CompilationMode)
    : M unit :=
  λ s, forM_ (vars_ (G_ s)) (updateStep conf mode) s.

(** "Add all of the new variables and instructions." *)
Definition commit : M unit :=
  λ s, (forM_ (toAppend s) addNode;; forM_ (newVars s) addVar) s.

Definition initialState (g : Graph) : State := mkState g ∅ [] [].

(** The state after the reverse sweep. *)
Definition runSweep (g : Graph) : Result (unit * State) :=
  match getPostOrder g with
  | Ok nodes => sweep (reverse nodes) (initialState g)
  | Fatal e => Fatal e
  end.

Definition generateGradientNodes (g : Graph) (conf : TrainingConfig)
    (mode : CompilationMode) : Result Graph :=
  match runSweep g with
  | Ok (_, s) =>
      match (updateLoop conf mode;; commit) s with
      | Ok (_, s') => Ok (G_ s')
      | Fatal e => Fatal e
      end
  | Fatal e => Fatal e
  end.

End Pass.

(** ** Values of gradient nodes *)

(** Modelled from the spec: the kernels are external collaborators; an
    arithmetic node in mode [Add] computes the "elementwise-sum" of the
    tensors its two operands compute.  [env] gives the tensor of every
    value, [add] the sum of two elements. *)
Definition arithmeticValue {S : Type} (add : S → S → S)
    (env : NodeValue → list S) (nd : Node) : option (list S) :=
  match nd with
  | ArithmeticNode _ _ LHS RHS Add => Some (zip_with add (env LHS) (env RHS))
  | _ => None
  end.

(** The type of a value in an arena, without the monad. *)
Definition typeOf (h : list Node) (v : NodeValue) : option TypeRef :=
  nd ← h !! getNode v; getResultType nd (getResNo v).

(** The state [addGradient] leaves when the value has no entry, and when it
    has one. *)
Definition registerDirect (v g : NodeValue) (s : State) : State :=
  mkState (G_ s) (<[v := g]> (map_ s)) (toAppend s) (newVars s).

Definition registerSum (v curr g : NodeValue) (Ty : TypeRef) (s : State)
    : State :=
  let gr := G_ s in
  let sum := length (heap gr) in
  mkState (mkGraph (heap gr ++ [ArithmeticNode "updateGrad" Ty curr g Add])
                   (nodes_ gr ++ [sum]) (vars_ gr) (grads_ gr))
          (<[v := ofNode sum]> (map_ s)) (toAppend s) (newVars s).


(** ** The operator table of the dispatch *)

(** The kinds handed to [CONVERT_TO_GRAD_NODE], in the order of the pass. *)
Definition delegatedKinds : list Kind :=
  [ConvolutionNodeKind; PoolNodeKind; FullyConnectedNodeKind;
   BatchNormalizationNodeKind; LocalResponseNormalizationNodeKind;
   SoftMaxNodeKind; RegressionNodeKind; ArithmeticNodeKind; ReluNodeKind;
   SigmoidNodeKind; TanhNodeKind].

(** The kinds whose rule is written out in the pass. *)
Definition structuralKinds : list Kind :=
  [SaveNodeKind; ReshapeNodeKind; TransposeNodeKind; SliceNodeKind;
   ConcatNodeKind].

Definition supportedKinds : list Kind := delegatedKinds ++ structuralKinds.

(** The state after [new] of one node. *)
Definition allocated (nd : Node) (s : State) : State :=
  let g := G_ s in
  mkState (mkGraph (heap g ++ [nd]) (nodes_ g) (vars_ g) (grads_ g))
          (map_ s) (toAppend s) (newVars s).

(** The state after [toAppend.push_back]. *)
Definition staged (X : NodeId) (s : State) : State :=
  mkState (G_ s) (map_ s) (toAppend s ++ [X]) (newVars s).

(** [shuffle] is a permutation of the axes [0 .. length shuffle - 1]. *)
Definition isPermutation (shuffle : list nat) : Prop :=
  NoDup shuffle ∧ Forall (λ j, j < length shuffle) shuffle.

#[global] Instance isPermutation_dec shuffle : Decision (isPermutation shuffle).
Proof. unfold isPermutation. apply _. Defined.

(** ** What a run adds to the arena and to the lists *)

(** The positions, from [base] on, of the nodes of [new] that satisfy [P]. *)
Fixpoint positions (P : Node → bool) (base : nat) (new : list Node)
    : list NodeId :=
  match new with
  | [] => []
  | nd :: new' =>
      (if P nd then [base] else []) ++ positions P (S base) new'
  end.

(** The classes the pass inserts into the graph as it builds them: the sums
    of [addGradient] and the saves of the debug snapshots. *)
Definition isInserted (nd : Node) : bool :=
  match nd with
  | ArithmeticNode _ _ _ _ _ | SaveNode _ _ _ => true
  | _ => false
  end.

(** The classes the pass puts on [toAppend]: the nodes the per-kind rules
    return, the nodes of the save, reshape, transpose and slice rules, and
    the update nodes. *)
Definition isStaged (nd : Node) : bool :=
  match nd with
  | GradNode _ _ _ _ _ _ | ZeroNode _ _ | ReshapeNode _ _ _ _
  | TransposeNode _ _ _ _ | InsertTensorNode _ _ _ _ _
  | SGDNode _ _ _ _ _ _ _ _ _ => true
  | _ => false
  end.

(** The momentum accumulators, and the other variables the pass builds (the
    destinations of the debug snapshots). *)
Definition isGsum (nd : Node) : bool :=
  match nd with
  | Variable_ name _ _ _ => bool_decide (name = "gsum")
  | _ => false
  end.

Definition isSnapshotVar (nd : Node) : bool :=
  match nd with
  | Variable_ name _ _ _ => bool_decide (name ≠ "gsum")
  | _ => false
  end.

(** [grown s s' new]: from [s] to [s'] the arena grew by [new]; the node
    list of the graph grew by the inserted classes, its variable list by the
    snapshot destinations, [toAppend] by the staged classes and [newVars] by
    the accumulators, each in the order of construction; no gradient was
    unregistered. *)
Record grown (s s' : State) (new : list Node) : Prop := mkGrown {
  grown_heap : heap (G_ s') = heap (G_ s) ++ new;
  grown_nodes :
    nodes_ (G_ s') =
      nodes_ (G_ s) ++ positions isInserted (length (heap (G_ s))) new;
  grown_vars :
    vars_ (G_ s') =
      vars_ (G_ s) ++ positions isSnapshotVar (length (heap (G_ s))) new;
  grown_toAppend :
    toAppend s' =
      toAppend s ++ positions isStaged (length (heap (G_ s))) new;
  grown_newVars :
    newVars s' = newVars s ++ positions isGsum (length (heap (G_ s))) new;
  grown_dom : ∀ v, is_Some (map_ s !! v) → is_Some (map_ s' !! v) }.

(** Every registered gradient has a type in the arena. *)
Definition mapTypedIn (h : list Node) (m : gmap NodeValue NodeValue) : Prop :=
  map_Forall (λ _ g, is_Some (typeOf h g)) m.

Definition mapTyped (s : State) : Prop := mapTypedIn (heap (G_ s)) (map_ s).

(** The classes the reverse sweep builds. *)
Definition isBackward (nd : Node) : bool :=
  match nd with
  | GradNode _ _ _ _ _ _ | ZeroNode _ _ | ReshapeNode _ _ _ _
  | TransposeNode _ _ _ _ | InsertTensorNode _ _ _ _ _
  | ArithmeticNode _ _ _ _ _ | SliceNode _ _ _ _ => true
  | _ => false
  end.

(** A sum built by [addGradient]. *)
Definition isSum (nd : Node) : Prop :=
  ∃ Ty LHS RHS, nd = ArithmeticNode "updateGrad" Ty LHS RHS Add.

(** ** Well-formed graphs *)

(** The arena is in construction order: a node is built after its operands,
    so the graph is acyclic. *)
Definition topoOrdered (h : list Node) : Prop :=
  Forall (λ p : nat * Node, Forall (λ v, getNode v < p.1) (getInputs p.2))
         (imap (λ N nd, (N, nd)) h).

#[global] Instance topoOrdered_dec h : Decision (topoOrdered h).
Proof. unfold topoOrdered. apply _. Defined.

(** The variables and nodes the graph owns are objects of the arena. *)
Definition rootsValid (g : Graph) : Prop :=
  Forall (λ N, N < length (heap g)) (vars_ g ++ nodes_ g).

#[global] Instance rootsValid_dec g : Decision (rootsValid g).
Proof. unfold rootsValid. apply _. Defined.

(** A dependency-first order: every operand of a node of the sequence is in
    the sequence, before the node. *)
Definition dependencyFirst (h : list Node) (order : list NodeId) : Prop :=
  ∀ i N nd v, order !! i = Some N → h !! N = Some nd → v ∈ getInputs nd →
              ∃ j, j < i ∧ order !! j = Some (getNode v).

Record postOrdered (h : list Node) (order : list NodeId) : Prop :=
  mkPostOrdered {
    po_nodup : NoDup order;
    po_valid : Forall (λ N, N < length h) order;
    po_dep : dependencyFirst h order }.

(** A traversal result over objects of the arena, or an error other than
    the unsupported-kind error. *)
Definition validOrder (h : list Node) (r : Result (list NodeId)) : Prop :=
  match r with
  | Ok order => Forall (λ N, N < length h) order
  | Fatal e => e ≠ UnsupportedKind
  end.

(** ** The effect of update synthesis on one variable *)

(** The state after the debug snapshot of the gradient [g] of [V]. *)
Definition snapshotted (V : NodeId) (nodeName : string) (g : NodeValue)
    (Ty : TypeRef) (s : State) : State :=
  let gr := G_ s in
  let dest := length (heap gr) in
  mkState (mkGraph (heap gr ++ [Variable_ nodeName Ty Extern fzero;
                                SaveNode nodeName g dest])
                   (nodes_ gr ++ [S dest]) (vars_ gr ++ [dest])
                   (grads_ gr ++ [(V, dest)]))
          (map_ s) (toAppend s) (newVars s).

(** The state after the accumulator and the update node of [V] are built. *)
Definition updated (conf : TrainingConfig) (V : NodeId) (name : string)
    (Ty : TypeRef) (g : NodeValue) (s : State) : State :=
  let gr := G_ s in
  let gsum := length (heap gr) in
  mkState (mkGraph (heap gr ++ [Variable_ "gsum" Ty Broadcast fzero;
                                SGDNode name g V gsum (L1Decay conf)
                                        (L2Decay conf) (learningRate conf)
                                        (momentum conf) (batchSize conf)])
                   (nodes_ gr) (vars_ gr) (grads_ gr))
          (map_ s) (toAppend s ++ [S gsum]) (newVars s ++ [gsum]).

Definition debugPhase (mode : CompilationMode) (V : NodeId) (nd : Node)
    (s : State) : Result State :=
  if bool_decide (mode = TrainDebug) then
    match map_ s !! ofNode V with
    | Some g =>
        match typeOf (heap (G_ s)) g with
        | Some Ty =>
            Ok (snapshotted V (String.append "_grad_" (getName nd)) g Ty s)
        | None => Fatal InvalidAccess
        end
    | None => Ok s
    end
  else Ok s.

Definition updatePhase (isTraining : Node → bool) (conf : TrainingConfig)
    (V : NodeId) (nd : Node) (s : State) : Result State :=
  if isTraining nd then
    match (if fgt0 (momentum conf) then typeOf (heap (G_ s)) (ofNode V)
           else Some getVoidTy) with
    | Some Ty =>
        match map_ s !! ofNode V with
        | Some g => Ok (updated conf V (getName nd) Ty g s)
        | None => Fatal MissingGradient
        end
    | None => Fatal InvalidAccess
    end
  else Ok s.

(** ** What update synthesis builds *)

(** A debug snapshot: the variable, the destination of its gradient and the
    save node. *)
Record Snapshot := mkSnapshot {
  snVar : NodeId; snDest : NodeId; snSave : NodeId }.

(** An update: the variable, its momentum accumulator and its update
    node. *)
Record Update := mkUpdate {
  upVar : NodeId; upGsum : NodeId; upNode : NodeId }.

(** The snapshot [sn] in the arena [h'] saves the gradient that [m]
    registers for its variable, under the name of the variable prefixed by
    "_grad_", into a fresh variable of the gradient's type. *)
Definition snapshotOf (h0 : list Node) (m : gmap NodeValue NodeValue)
    (h' : list Node) (sn : Snapshot) : Prop :=
  ∃ nd g Ty,
    h0 !! snVar sn = Some nd
    ∧ m !! ofNode (snVar sn) = Some g
    ∧ typeOf h0 g = Some Ty
    ∧ h' !! snDest sn =
        Some (Variable_ (String.append "_grad_" (getName nd)) Ty Extern fzero)
    ∧ h' !! snSave sn =
        Some (SaveNode (String.append "_grad_" (getName nd)) g (snDest sn)).

(** The type of the momentum accumulator of a variable of type [Ty]. *)
Definition gsumType (conf : TrainingConfig) (Ty : TypeRef) : TypeRef :=
  if fgt0 (momentum conf) then Ty else getVoidTy.

(** The update [up] in the arena [h'] binds the variable, the gradient that
    [m] registers for it, its accumulator and the hyperparameters. *)
Definition updateOf (h0 : list Node) (m : gmap NodeValue NodeValue)
    (conf : TrainingConfig) (h' : list Node) (up : Update) : Prop :=
  ∃ nd g Ty,
    h0 !! upVar up = Some nd
    ∧ m !! ofNode (upVar up) = Some g
    ∧ typeOf h0 (ofNode (upVar up)) = Some Ty
    ∧ h' !! upGsum up =
        Some (Variable_ "gsum" (gsumType conf Ty) Broadcast fzero)
    ∧ h' !! upNode up =
        Some (SGDNode (getName nd) g (upVar up) (upGsum up) (L1Decay conf)
                      (L2Decay conf) (learningRate conf) (momentum conf)
                      (batchSize conf)).

(** The variable is marked for training. *)
Definition trainable (isTraining : Node → bool) (h : list Node) (V : NodeId)
    : bool :=
  match h !! V with
  | Some nd => isTraining nd
  | None => false
  end.

(** The variable gets a debug snapshot. *)
Definition debugged (mode : CompilationMode) (m : gmap NodeValue NodeValue)
    (V : NodeId) : bool :=
  bool_decide (mode = TrainDebug) && bool_decide (is_Some (m !! ofNode V)).

(** The variable list holds variables, and every variable marked for
    training has a registered gradient. *)
Definition updatable (isTraining : Node → bool) (h : list Node)
    (m : gmap NodeValue NodeValue) (vars : list NodeId) : Prop :=
  Forall (λ V, ∃ name Ty init val,
            h !! V = Some (Variable_ name Ty init val)
            ∧ (trainable isTraining h V = true → is_Some (m !! ofNode V)))
         vars.

(** The classes update synthesis builds. *)
Definition isUpdateClass (nd : Node) : bool :=
  match nd with
  | Variable_ _ _ _ _ | SaveNode _ _ _ | SGDNode _ _ _ _ _ _ _ _ _ => true
  | _ => false
  end.

(** [built h0 m conf s s' new snaps upds]: from [s] to [s'] update
    synthesis built the nodes [new], which make up the snapshots [snaps] and
    the updates [upds]; the snapshots went into the graph at once, the updates
    onto the staging lists, and the gradient map is as it was. *)
Record built (h0 : list Node) (m : gmap NodeValue NodeValue)
    (conf : TrainingConfig) (s s' : State) (new : list Node)
    (snaps : list Snapshot) (upds : list Update) : Prop := mkBuilt {
  built_grown : grown s s' new;
  built_class : Forall (λ nd, isUpdateClass nd = true) new;
  built_map : map_ s' = map_ s;
  built_grads :
    grads_ (G_ s') =
      grads_ (G_ s) ++ ((λ sn, (snVar sn, snDest sn)) <$> snaps);
  built_nodes : nodes_ (G_ s') = nodes_ (G_ s) ++ (snSave <$> snaps);
  built_vars : vars_ (G_ s') = vars_ (G_ s) ++ (snDest <$> snaps);
  built_toAppend : toAppend s' = toAppend s ++ (upNode <$> upds);
  built_newVars : newVars s' = newVars s ++ (upGsum <$> upds);
  built_snaps : Forall (snapshotOf h0 m (heap (G_ s'))) snaps;
  built_upds : Forall (updateOf h0 m conf (heap (G_ s'))) upds }.

Definition isSGD (nd : Node) : bool := bool_decide (getKind nd = SGDNodeKind).

Definition isSave (nd : Node) : bool := bool_decide (getKind nd = SaveNodeKind).

(** ** Concatenation *)

Definition sumN (l : list N) : N := foldr N.add 0%N l.
Arguments sumN : simpl never.

(** The extent of a type along an axis (0 when the type has no such axis). *)
Definition extent (dim : nat) (Ty : TypeRef) : N := default 0%N (dims Ty !! dim).

(** The slice of the output gradient for input number [k]: it starts at the
    sum of the extents of the inputs before it along [dim], and at 0 along
    every other axis. *)
Definition sliceFor (outputG : NodeValue) (rank dim : nat) (exts : list N)
    (k : nat) (Ty : TypeRef) : Node :=
  SliceNode "extract" Ty outputG
            (<[dim := sumN (take k exts)]> (replicate rank 0%N)).

(** The state after the commit: the staged nodes, then the staged variables,
    are appended to the lists of the graph. *)
Definition committed (s : State) : State :=
  let g := G_ s in
  mkState (mkGraph (heap g) (nodes_ g ++ toAppend s) (vars_ g ++ newVars s)
                   (grads_ g))
          (map_ s) (toAppend s) (newVars s).

(** The classes that go into the graph only at the commit. *)
Definition isDeferred (nd : Node) : bool :=
  negb (isInserted nd) && negb (isSnapshotVar nd).

(** ** Graphs the sweep can differentiate *)

(** The operand is a typed result of a node of the arena, and so is the
    first result of its node. *)
Definition operandTyped (h : list Node) (v : NodeValue) : Prop :=
  is_Some (typeOf h v) ∧ is_Some (typeOf h (ofNode (getNode v))).

(** The axes a transpose stores are axes of its vector; the axis of a concat
    is an axis of its result and of every input. *)
Definition shapeOk (h : list Node) (nd : Node) : Prop :=
  match nd with
  | TransposeNode _ _ _ shuffle => Forall (λ j, j < length shuffle) shuffle
  | ConcatNode _ Ty inputs dim =>
      dim < length (dims Ty)
      ∧ Forall (λ v, ∃ T, typeOf h v = Some T ∧ dim < length (dims T)) inputs
  | _ => True
  end.

(** A variable or a node of a kind of the table, with typed operands and
    axes in range. *)
Definition differentiable (h : list Node) (nd : Node) : Prop :=
  getKind nd ∈ VariableKind :: supportedKinds
  ∧ Forall (operandTyped h) (getInputs nd)
  ∧ shapeOk h nd.

(** The result of [N] is an operand of a node of the sequence. *)
Definition consumed (h : list Node) (order : list NodeId) (N : NodeId)
    : Prop :=
  ∃ M ndM, M ∈ order ∧ h !! M = Some ndM ∧ ofNode N ∈ getInputs ndM.

(** Every node the traversal reaches is a variable, a save node or a node
    whose result is consumed. *)
Definition everyResultConsumed (g : Graph) : Prop :=
  ∀ order, getPostOrder g = Ok order →
    ∀ N nd, N ∈ order → heap g !! N = Some nd →
      getKind nd = VariableKind ∨ getKind nd = SaveNodeKind
      ∨ consumed (heap g) order N.

(** [m] never ends in the unsupported-kind error. *)
Definition dispatched {A} (m : M A) : Prop := ∀ s, m s ≠ Fatal UnsupportedKind.
(** ** Sample graphs *)

Definition sampleTy : TypeRef := mkType FloatTy [2%N; 3%N].

(** A parameter and two gradient sources of its type. *)
Definition sampleState : State :=
  mkState (mkGraph [Variable_ "W" sampleTy Broadcast fzero;
                    ZeroNode "g1" sampleTy; ZeroNode "g2" sampleTy]
                   [1; 2] [0] [])
          ∅ [] [].


(** A transposed parameter written to an output, after the save node has run
    its rule in the sweep: node 3 is the gradient source of the save. *)
Definition transposeState : State :=
  mkState (mkGraph [Variable_ "W" (mkType FloatTy [2%N; 3%N; 4%N]) Broadcast
                              fzero;
                    Variable_ "out" (mkType FloatTy [4%N; 2%N; 3%N]) Extern
                              fzero;
                    TransposeNode "t" (mkType FloatTy [4%N; 2%N; 3%N])
                                  (ofNode 0) [2; 0; 1];
                    ZeroNode "save" (mkType FloatTy [4%N; 2%N; 3%N])]
                   [2] [0; 1] [])
          {[ ofNode 2 := ofNode 3 ]} [3] [].

(** Extern variables are not trained; the others are. *)
Definition trainOf (nd : Node) : bool :=
  match nd with
  | Variable_ _ _ Extern _ => false
  | Variable_ _ _ _ _ => true
  | _ => false
  end.

(** A trainable parameter [A] and a parameter [B] that is not trained, each
    with a registered gradient. *)
Definition updateState : State :=
  mkState (mkGraph [Variable_ "A" sampleTy Broadcast fzero;
                    Variable_ "B" sampleTy Extern fzero;
                    ZeroNode "gA" sampleTy; ZeroNode "gB" sampleTy]
                   [2; 3] [0; 1] [])
          {[ ofNode 0 := ofNode 2; ofNode 1 := ofNode 3 ]} [] [].

Definition sampleConf : TrainingConfig :=
  mkTrainingConfig (S754_finite false 1 (-3)) fzero fzero fzero 4.

(** A graph with a node of a kind the pass has no rule for. *)
Definition unsupportedState : State :=
  mkState (mkGraph [Variable_ "A" sampleTy Broadcast fzero;
                    OpNode (Other 7) "custom" sampleTy [ofNode 0]]
                   [1] [0] [])
          ∅ [] [].

(** A parameter [A] written to two outputs: its value has two consumers. *)
Definition fanoutGraph : Graph :=
  mkGraph [Variable_ "A" sampleTy Broadcast fzero;
           Variable_ "o1" sampleTy Extern fzero;
           Variable_ "o2" sampleTy Extern fzero;
           SaveNode "s1" (ofNode 0) 1;
           SaveNode "s2" (ofNode 0) 2]
          [3; 4] [0; 1; 2] [].

(** The concatenation along axis 1 of two parameters of extents 3 and 5,
    after the save node has run its rule: node 4 is the gradient of the
    result. *)
Definition concatState : State :=
  mkState (mkGraph [Variable_ "A" (mkType FloatTy [2%N; 3%N]) Broadcast fzero;
                    Variable_ "B" (mkType FloatTy [2%N; 5%N]) Broadcast fzero;
                    Variable_ "out" (mkType FloatTy [2%N; 8%N]) Extern fzero;
                    ConcatNode "cc" (mkType FloatTy [2%N; 8%N])
                               [ofNode 0; ofNode 1] 1;
                    ZeroNode "save" (mkType FloatTy [2%N; 8%N])]
                   [3] [0; 1; 2] [])
          {[ ofNode 3 := ofNode 4 ]} [4] [].

(** The graph the pass returns on [fanoutGraph] in mode [Train]. *)
Definition fanoutResult : Graph :=
  Eval vm_compute in
    match generateGradientNodes trainOf fanoutGraph sampleConf Train with
    | Ok g' => g'
    | Fatal _ => fanoutGraph
    end.

(** A parameter reshaped, transposed and written to an output. *)
Definition chainGraph : Graph :=
  mkGraph [Variable_ "W" (mkType FloatTy [2%N; 3%N]) Broadcast fzero;
           Variable_ "out" (mkType FloatTy [2%N; 3%N]) Extern fzero;
           ReshapeNode "r" (mkType FloatTy [3%N; 2%N]) (ofNode 0)
                       [3%N; 2%N];
           TransposeNode "t" (mkType FloatTy [2%N; 3%N]) (ofNode 2) [1; 0];
           SaveNode "save" (ofNode 3) 1]
          [2; 3; 4] [0; 1] [].

(** A reshape whose result nothing consumes. *)
Definition danglingGraph : Graph :=
  mkGraph [Variable_ "A" (mkType FloatTy [2%N; 3%N]) Broadcast fzero;
           ReshapeNode "r" (mkType FloatTy [6%N]) (ofNode 0) [6%N]]
          [1] [0] [].
(** ** Reasoning about monadic code *)

Lemma bind_Ok {A B} (m : M A) (f : A → M B) s a s1 :
  m s = Ok (a, s1) → (m ≫= f) s = f a s1.
Proof. intros H. unfold mbind, M_bind. by rewrite H. Qed.

Lemma bind_Fatal {A B} (m : M A) (f : A → M B) s e :
  m s = Fatal e → (m ≫= f) s = Fatal e.
Proof. intros H. unfold mbind, M_bind. by rewrite H. Qed.

Lemma bind_Ok_inv {A B} (m : M A) (f : A → M B) s b s' :
  (m ≫= f) s = Ok (b, s') →
  ∃ a s1, m s = Ok (a, s1) ∧ f a s1 = Ok (b, s').
Proof.
  unfold mbind, M_bind. destruct (m s) as [[a s1]|e]; [eauto | done].
Qed.

Lemma bind_Fatal_inv {A B} (m : M A) (f : A → M B) s e :
  (m ≫= f) s = Fatal e →
  m s = Fatal e ∨ ∃ a s1, m s = Ok (a, s1) ∧ f a s1 = Fatal e.
Proof.
  unfold mbind, M_bind. destruct (m s) as [[a s1]|e']; [eauto | intros [= ->]; eauto].
Qed.

Lemma getType_typeOf v s :
  getType v s = match typeOf (heap (G_ s)) v with
                | Some Ty => Ok (Ty, s)
                | None => Fatal InvalidAccess
                end.
Proof.
  unfold getType, typeOf, deref, mbind, M_bind.
  destruct (heap (G_ s) !! getNode v) as [nd|]; simpl; [|done].
  by destruct (getResultType nd (getResNo v)).
Qed.

Lemma typeOf_app h h' v Ty :
  typeOf h v = Some Ty → typeOf (h ++ h') v = Some Ty.
Proof.
  unfold typeOf. destruct (h !! getNode v) as [nd|] eqn:E; [|done].
  by rewrite (lookup_app_l_Some _ _ _ _ E).
Qed.

Lemma addGradient_None v g s :
  map_ s !! v = None → addGradient v g s = Ok (tt, registerDirect v g s).
Proof.
  intros H. unfold addGradient, map_count, mbind, M_bind.
  rewrite H. rewrite bool_decide_eq_false_2; [done|].
  by intros [? ?].
Qed.

Lemma addGradient_Some v g curr s :
  map_ s !! v = Some curr →
  addGradient v g s =
    match typeOf (heap (G_ s)) curr with
    | Some Ty => Ok (tt, registerSum v curr g Ty s)
    | None => Fatal InvalidAccess
    end.
Proof.
  intros H. unfold addGradient, map_count, map_get, createArithmetic.
  unfold mbind at 1, M_bind at 1. rewrite H.
  rewrite bool_decide_eq_true_2; [|by eexists].
  unfold mbind at 1, M_bind at 1. rewrite H.
  unfold mbind at 1, M_bind at 1. unfold mbind at 1, M_bind at 1.
  rewrite getType_typeOf.
  by destruct (typeOf (heap (G_ s)) curr).
Qed.

Lemma zip_with_comm {S} (add : S → S → S) (a b : list S) :
  (∀ x y, add x y = add y x) → zip_with add a b = zip_with add b a.
Proof.
  intros Hc. revert b. induction a as [|x a IH]; intros [|y b]; simpl; try done.
  by rewrite Hc, IH.
Qed.

(** ** The gradient map accumulates *)

(** C2.  When [v] has no registered gradient, [addGradient v g1] registers
    [g1] itself and leaves the graph alone.  A second call with [g2] then
    finds [g1] registered, builds the node [Add(g1, g2)] named "updateGrad",
    inserts it into the graph and registers it for [v]; in the other call
    order the node is [Add(g2, g1)].  For a commutative element sum both nodes
    compute the elementwise sum of the tensors of [g1] and [g2], so neither
    contribution is dropped in either order. *)
Theorem addGradient_accumulates {S : Type} (add : S → S → S)
    (env : NodeValue → list S) (s : State) (v g1 g2 : NodeValue)
    (T1 T2 : TypeRef) :
  (∀ x y, add x y = add y x) →
  map_ s !! v = None →
  typeOf (heap (G_ s)) g1 = Some T1 →
  typeOf (heap (G_ s)) g2 = Some T2 →
  let sum := length (heap (G_ s)) in
  let n12 := ArithmeticNode "updateGrad" T1 g1 g2 Add in
  let n21 := ArithmeticNode "updateGrad" T2 g2 g1 Add in
  addGradient v g1 s = Ok (tt, registerDirect v g1 s)
  ∧ map_ (registerDirect v g1 s) !! v = Some g1
  ∧ G_ (registerDirect v g1 s) = G_ s
  ∧ (∃ s12,
        (addGradient v g1;; addGradient v g2) s = Ok (tt, s12)
        ∧ s12 = registerSum v g1 g2 T1 (registerDirect v g1 s)
        ∧ map_ s12 !! v = Some (ofNode sum)
        ∧ heap (G_ s12) = heap (G_ s) ++ [n12]
        ∧ nodes_ (G_ s12) = nodes_ (G_ s) ++ [sum])
  ∧ (∃ s21,
        (addGradient v g2;; addGradient v g1) s = Ok (tt, s21)
        ∧ s21 = registerSum v g2 g1 T2 (registerDirect v g2 s)
        ∧ map_ s21 !! v = Some (ofNode sum)
        ∧ heap (G_ s21) = heap (G_ s) ++ [n21]
        ∧ nodes_ (G_ s21) = nodes_ (G_ s) ++ [sum])
  ∧ arithmeticValue add env n12 = Some (zip_with add (env g1) (env g2))
  ∧ arithmeticValue add env n21 = Some (zip_with add (env g1) (env g2)).
Proof.
  intros Hc Hnone Ht1 Ht2 sum n12 n21.
  assert (Hseq : ∀ a b Ta, typeOf (heap (G_ s)) a = Some Ta →
    (addGradient v a;; addGradient v b) s
    = Ok (tt, registerSum v a b Ta (registerDirect v a s))).
  { intros a b Ta Ha.
    rewrite (bind_Ok _ _ _ _ _ (addGradient_None v a s Hnone)).
    rewrite (addGradient_Some v b a); [|apply lookup_insert_eq].
    simpl. by rewrite Ha. }
  split; [by apply addGradient_None|].
  split; [apply lookup_insert_eq|].
  split; [done|].
  split; [|split; [|split]].
  - eexists. split; [by apply Hseq|]. split; [done|].
    simpl. by rewrite lookup_insert_eq.
  - eexists. split; [by apply Hseq|]. split; [done|].
    simpl. by rewrite lookup_insert_eq.
  - done.
  - simpl. f_equal. by apply zip_with_comm.
Qed.

Lemma addGradient_accumulates_witness :
  (addGradient (ofNode 0) (ofNode 1);; addGradient (ofNode 0) (ofNode 2))
    sampleState
  = Ok (tt, registerSum (ofNode 0) (ofNode 1) (ofNode 2) sampleTy
              (registerDirect (ofNode 0) (ofNode 1) sampleState)).
Proof.
  pose proof (addGradient_accumulates Z.add (λ _, [1%Z; 2%Z]) sampleState
                (ofNode 0) (ofNode 1) (ofNode 2) sampleTy sampleTy
                Z.add_comm eq_refl eq_refl eq_refl) as H.
  destruct H as (_ & _ & _ & (s12 & H12 & -> & _) & _).
  exact H12.
Defined.

(** ** The dispatch *)

Lemma CONVERT_TO_GRAD_NODE_eq K N nd next :
  CONVERT_TO_GRAD_NODE K N nd next =
    if bool_decide (getKind nd = K)
    then getGrad N nd ≫= toAppend_push_back
    else next.
Proof. done. Qed.

(** One iteration, by the class of the node. *)
Lemma gradStep_unfold N nd s :
  heap (G_ s) !! N = Some nd →
  gradStep N s =
    if isaVariable nd then Ok (tt, s)
    else if bool_decide (getKind nd ∈ delegatedKinds)
         then (getGrad N nd ≫= toAppend_push_back) s
         else structuralGrad N nd s.
Proof.
  intros H. unfold gradStep, deref.
  unfold mbind at 1, M_bind at 1. rewrite H.
  destruct nd as [| op | | | | | | | | | |]; try destruct op; reflexivity.
Qed.

(** ** Transpose *)

Lemma reverseShuffle_prefix (shuffle : list nat) (k : nat) :
  isPermutation shuffle → k ≤ length shuffle →
  ∃ rs, foldl (reverseShuffleStep shuffle) (Some shuffle) (seq 0 k) = Some rs
        ∧ length rs = length shuffle
        ∧ ∀ i j, i < k → shuffle !! i = Some j → rs !! j = Some i.
Proof.
  intros [Hnd Hlt]. induction k as [|k IH]; intros Hk.
  - exists shuffle. split; [done|]. split; [done|]. lia.
  - destruct IH as (rs & Hrs & Hlen & Hinv); [lia|].
    rewrite seq_S, foldl_app. simpl. rewrite Hrs.
    destruct (lookup_lt_is_Some_2 shuffle k) as [j Hj]; [lia|].
    assert (j < length shuffle) as Hjlt.
    { rewrite Forall_forall in Hlt. apply Hlt.
      apply list_elem_of_lookup. eauto. }
    unfold reverseShuffleStep. simpl. rewrite Hj. simpl.
    rewrite decide_True by lia.
    eexists. split; [done|]. split; [by rewrite length_insert|].
    intros i j' Hi Hij'.
    destruct (decide (i = k)) as [->|Hne].
    + rewrite Hj in Hij'. injection Hij' as <-.
      apply list_lookup_insert_eq. lia.
    + rewrite list_lookup_insert_ne.
      * apply Hinv; [lia | done].
      * intros <-. apply Hne. symmetry. by eapply (NoDup_lookup shuffle).
Qed.

Lemma makeReverseShuffle_inverse (shuffle : list nat) :
  isPermutation shuffle →
  ∃ rs, makeReverseShuffle shuffle = Some rs
        ∧ length rs = length shuffle
        ∧ ∀ i j, shuffle !! i = Some j → rs !! j = Some i.
Proof.
  intros Hp.
  destruct (reverseShuffle_prefix shuffle (length shuffle) Hp) as
    (rs & Hrs & Hlen & Hinv); [done|].
  exists rs. split; [done|]. split; [done|].
  intros i j Hij. apply Hinv; [|done]. by eapply lookup_lt_Some.
Qed.

(** C7.  On a transpose node whose [shuffle] is a permutation of its axes,
    the rule computes a [reverseShuffle] with
    [reverseShuffle[shuffle[i]] = i] for every axis [i], builds a transpose
    node that applies it to the gradient of the output, typed as the input,
    stages the node and hands it to [addGradient] for the input. *)
Theorem transpose_backward_inverse (s : State) (N : NodeId) (name : string)
    (Ty Tin : TypeRef) (input outputG : NodeValue) (shuffle : list nat) :
  heap (G_ s) !! N = Some (TransposeNode name Ty input shuffle) →
  isPermutation shuffle →
  map_ s !! ofNode N = Some outputG →
  typeOf (heap (G_ s)) (ofNode (getNode input)) = Some Tin →
  ∃ reverseShuffle,
    makeReverseShuffle shuffle = Some reverseShuffle
    ∧ length reverseShuffle = length shuffle
    ∧ (∀ i j, shuffle !! i = Some j → reverseShuffle !! j = Some i)
    ∧ gradStep N s =
        let X := length (heap (G_ s)) in
        addGradient input (ofNode X)
          (staged X (allocated (TransposeNode name Tin outputG reverseShuffle)
                               s)).
Proof.
  intros HN Hp HG HT.
  destruct (makeReverseShuffle_inverse shuffle Hp) as (rs & Hrs & Hlen & Hinv).
  exists rs. repeat split; try done.
  rewrite (gradStep_unfold _ _ _ HN). simpl.
  unfold getGradient, map_get, getTypeOfNode.
  unfold mbind at 1, M_bind at 1. rewrite HG.
  unfold mbind at 1, M_bind at 1. rewrite Hrs. simpl.
  unfold mbind at 1, M_bind at 1. rewrite getType_typeOf, HT.
  reflexivity.
Qed.

Lemma transpose_backward_inverse_witness :
  ∃ reverseShuffle,
    makeReverseShuffle [2; 0; 1] = Some reverseShuffle
    ∧ length reverseShuffle = 3
    ∧ (∀ i j, [2; 0; 1] !! i = Some j → reverseShuffle !! j = Some i)
    ∧ gradStep 2 transposeState =
        addGradient (ofNode 0) (ofNode 4)
          (staged 4 (allocated (TransposeNode "t"
                                  (mkType FloatTy [2%N; 3%N; 4%N])
                                  (ofNode 3) reverseShuffle)
                               transposeState)).
Proof.
  apply (transpose_backward_inverse transposeState 2 "t"
           (mkType FloatTy [4%N; 2%N; 3%N]) (mkType FloatTy [2%N; 3%N; 4%N])
           (ofNode 0) (ofNode 3) [2; 0; 1]).
  - reflexivity.
  - apply (bool_decide_unpack (isPermutation [2; 0; 1])). exact I.
  - reflexivity.
  - reflexivity.
Defined.

(** ** The operator table is exhaustive *)

Lemma dispatched_bind {A B} (m : M A) (f : A → M B) :
  dispatched m → (∀ a, dispatched (f a)) → dispatched (m ≫= f).
Proof.
  intros Hm Hf s H. apply bind_Fatal_inv in H as [H|(a & s1 & _ & H)].
  - by apply (Hm s).
  - by apply (Hf a s1).
Qed.

Lemma dispatched_ret {A} (a : A) : dispatched (mret a : M A).
Proof. by intros s. Qed.

Lemma dispatched_prim {A} (m : M A) :
  (∀ s, (∃ r, m s = Ok r) ∨ m s = Fatal MissingGradient
        ∨ m s = Fatal InvalidAccess) →
  dispatched m.
Proof. intros H s. destruct (H s) as [[r ->]|[-> | ->]]; done. Qed.

Lemma dispatched_deref N : dispatched (deref N).
Proof.
  apply dispatched_prim. intros s. unfold deref.
  destruct (heap (G_ s) !! N); eauto.
Qed.

Lemma dispatched_new nd : dispatched (new nd).
Proof. apply dispatched_prim. intros s. left. by eexists. Qed.

Lemma dispatched_toAppend_push_back X : dispatched (toAppend_push_back X).
Proof. apply dispatched_prim. intros s. left. by eexists. Qed.

Lemma dispatched_addNode X : dispatched (addNode X).
Proof. apply dispatched_prim. intros s. left. by eexists. Qed.

Lemma dispatched_map_insert v g : dispatched (map_insert v g).
Proof. apply dispatched_prim. intros s. left. by eexists. Qed.

Lemma dispatched_map_count v : dispatched (map_count v).
Proof. apply dispatched_prim. intros s. left. by eexists. Qed.

Lemma dispatched_map_get v : dispatched (map_get v).
Proof.
  apply dispatched_prim. intros s. unfold map_get.
  destruct (map_ s !! v); eauto.
Qed.

Lemma dispatched_liftOption {A} (o : option A) : dispatched (liftOption o).
Proof. apply dispatched_prim. intros s. destruct o; simpl; eauto. Qed.

Lemma dispatched_getType v : dispatched (getType v).
Proof.
  apply dispatched_prim. intros s. rewrite getType_typeOf.
  destruct (typeOf _ _); eauto.
Qed.

Lemma dispatched_forM_ {A} (l : list A) (f : A → M unit) :
  (∀ a, dispatched (f a)) → dispatched (forM_ l f).
Proof.
  intros Hf. induction l as [|a l IH]; simpl.
  - apply dispatched_ret.
  - apply dispatched_bind; [apply Hf | by intros _].
Qed.

Lemma dispatched_mapM_ {A B} (l : list A) (f : A → M B) :
  (∀ a, dispatched (f a)) → dispatched (mapM_ f l).
Proof.
  intros Hf. induction l as [|a l IH]; simpl.
  - apply dispatched_ret.
  - apply dispatched_bind; [apply Hf | intros b].
    apply dispatched_bind; [apply IH | intros bs]. apply dispatched_ret.
Qed.

Lemma dispatched_addGradient v g : dispatched (addGradient v g).
Proof.
  unfold addGradient, createArithmetic.
  apply dispatched_bind; [apply dispatched_map_count|intros [|]].
  - apply dispatched_bind; [apply dispatched_map_get|intros curr].
    apply dispatched_bind; [|intros sum; apply dispatched_map_insert].
    apply dispatched_bind; [apply dispatched_getType|intros Ty].
    apply dispatched_bind; [apply dispatched_new|intros A].
    apply dispatched_bind; [apply dispatched_addNode|intros _].
    apply dispatched_ret.
  - apply dispatched_map_insert.
Qed.

(** The rules are sequences of the operations above. *)
Ltac dispatched_rule :=
  repeat match goal with
  | |- dispatched (mbind _ _) => apply dispatched_bind; [|intros ?]
  | |- dispatched (mret _) => apply dispatched_ret
  | |- dispatched (deref _) => apply dispatched_deref
  | |- dispatched (new _) => apply dispatched_new
  | |- dispatched (toAppend_push_back _) => apply dispatched_toAppend_push_back
  | |- dispatched (addNode _) => apply dispatched_addNode
  | |- dispatched (map_get _) => apply dispatched_map_get
  | |- dispatched (getGradient _) => apply dispatched_map_get
  | |- dispatched (liftOption _) => apply dispatched_liftOption
  | |- dispatched (getType _) => apply dispatched_getType
  | |- dispatched (getTypeOfNode _) => apply dispatched_getType
  | |- dispatched (addGradient _ _) => apply dispatched_addGradient
  | |- dispatched (mapM_ getType _) =>
      apply dispatched_mapM_; intros ?; apply dispatched_getType
  | |- dispatched (forM_ _ (λ p, addGradient _ _)) =>
      apply dispatched_forM_; intros ?; apply dispatched_addGradient
  end.

Lemma dispatched_getGrad N nd : dispatched (getGrad N nd).
Proof. unfold getGrad. dispatched_rule. Qed.

Lemma dispatched_concatGradLoop outputG dim inputs offsets :
  dispatched (concatGradLoop outputG dim inputs offsets).
Proof.
  revert offsets. induction inputs as [|v inputs IH]; intros offsets; simpl.
  - apply dispatched_ret.
  - dispatched_rule. apply IH.
Qed.

(** Membership of a constructor in a literal list of kinds. *)
Ltac kind_in :=
  repeat first [ apply list_elem_of_here | apply list_elem_of_further ].

Ltac kind_not_in H :=
  repeat (apply elem_of_cons in H as [H|H]; [discriminate H|]);
  by apply elem_of_nil in H.

(** A structural rule ends in the unsupported-kind error on exactly the
    classes it has no case for. *)
Lemma structuralGrad_supported N nd :
  getKind nd ∈ structuralKinds → dispatched (structuralGrad N nd).
Proof.
  intros Hk. unfold structuralKinds in Hk.
  destruct nd as [| op | | | | | | | | | |]; try destruct op;
    try (exfalso; simpl in Hk; kind_not_in Hk);
    unfold structuralGrad; dispatched_rule; apply dispatched_concatGradLoop.
Qed.

Lemma structuralGrad_unsupported N nd s :
  getKind nd ∉ structuralKinds → structuralGrad N nd s = Fatal UnsupportedKind.
Proof.
  intros Hk. unfold structuralKinds in Hk.
  destruct nd as [| op | | | | | | | | | |]; try destruct op; try done;
    exfalso; apply Hk; simpl; kind_in.
Qed.

(** ** Growth of the state *)

Lemma positions_app P base (a b : list Node) :
  positions P base (a ++ b) =
    positions P base a ++ positions P (base + length a) b.
Proof.
  revert base. induction a as [|nd a IH]; intros base; simpl.
  - by rewrite Nat.add_0_r.
  - rewrite IH, <- app_assoc. do 3 f_equal. lia.
Qed.

Lemma positions_lookup P base (new : list Node) X :
  X ∈ positions P base new ↔
  ∃ nd, base ≤ X ∧ new !! (X - base) = Some nd ∧ P nd = true.
Proof.
  revert base. induction new as [|nd new IH]; intros base; simpl.
  - split; [by intros ?%elem_of_nil | by intros (? & _ & ? & _)].
  - rewrite elem_of_app, IH. split.
    + intros [H|(nd' & Hle & Hl & HP)].
      * destruct (P nd) eqn:E; [|by apply elem_of_nil in H].
        apply list_elem_of_singleton in H as ->.
        exists nd. rewrite Nat.sub_diag. done.
      * exists nd'. split; [lia|]. split; [|done].
        replace (X - base) with (S (X - S base)) by lia. done.
    + intros (nd' & Hle & Hl & HP).
      destruct (decide (X = base)) as [->|Hne].
      * left. rewrite Nat.sub_diag in Hl. injection Hl as ->.
        rewrite HP. by apply list_elem_of_singleton.
      * right. exists nd'. split; [lia|]. split; [|done].
        replace (X - base) with (S (X - S base)) in Hl by lia. done.
Qed.

Lemma positions_none P base (new : list Node) :
  Forall (λ nd, P nd = false) new → positions P base new = [].
Proof.
  intros HF. revert base.
  induction HF as [|nd new H _ IH]; intros base; simpl; [done|].
  by rewrite H, IH.
Qed.

Lemma grown_refl s : grown s s [].
Proof. split; simpl; rewrite ?app_nil_r; done. Qed.

Lemma grown_trans s s1 s2 n1 n2 :
  grown s s1 n1 → grown s1 s2 n2 → grown s s2 (n1 ++ n2).
Proof.
  intros [Hh1 Hn1 Hv1 Ht1 Hw1 Hd1] [Hh2 Hn2 Hv2 Ht2 Hw2 Hd2].
  split; rewrite ?positions_app.
  - by rewrite Hh2, Hh1, app_assoc.
  - rewrite Hn2, Hn1, Hh1, length_app, app_assoc. done.
  - rewrite Hv2, Hv1, Hh1, length_app, app_assoc. done.
  - rewrite Ht2, Ht1, Hh1, length_app, app_assoc. done.
  - rewrite Hw2, Hw1, Hh1, length_app, app_assoc. done.
  - eauto.
Qed.

Lemma grown_allocated nd s :
  isInserted nd = false → isSnapshotVar nd = false → isGsum nd = false →
  isStaged nd = false →
  grown s (allocated nd s) [nd].
Proof.
  intros H1 H2 H3 H4. split; simpl; rewrite ?H1, ?H2, ?H3, ?H4; simpl;
    rewrite ?app_nil_r; done.
Qed.

Lemma grown_allocated_staged nd s :
  isInserted nd = false → isSnapshotVar nd = false → isGsum nd = false →
  isStaged nd = true →
  grown s (staged (length (heap (G_ s))) (allocated nd s)) [nd].
Proof.
  intros H1 H2 H3 H4. split; simpl; rewrite ?H1, ?H2, ?H3, ?H4; simpl;
    rewrite ?app_nil_r; done.
Qed.

(** The two outcomes of [addGradient]. *)
Lemma addGradient_inv v g s r :
  addGradient v g s = Ok r →
  (map_ s !! v = None ∧ r = (tt, registerDirect v g s))
  ∨ (∃ curr Ty, map_ s !! v = Some curr
                ∧ typeOf (heap (G_ s)) curr = Some Ty
                ∧ r = (tt, registerSum v curr g Ty s)).
Proof.
  destruct (map_ s !! v) as [curr|] eqn:E.
  - rewrite (addGradient_Some _ _ _ _ E).
    destruct (typeOf (heap (G_ s)) curr) as [Ty|] eqn:ET; [|done].
    intros [= <-]. right. eauto.
  - rewrite (addGradient_None _ _ _ E). intros [= <-]. by left.
Qed.

Lemma grown_registerDirect v g s : grown s (registerDirect v g s) [].
Proof.
  split; simpl; rewrite ?app_nil_r; try done.
  intros w Hw. destruct (decide (v = w)) as [->|Hne].
  - rewrite lookup_insert_eq. by eexists.
  - by rewrite lookup_insert_ne.
Qed.

Lemma grown_registerSum v curr g Ty s :
  grown s (registerSum v curr g Ty s)
        [ArithmeticNode "updateGrad" Ty curr g Add].
Proof.
  split; simpl; rewrite ?app_nil_r; try done.
  intros w Hw. destruct (decide (v = w)) as [->|Hne].
  - rewrite lookup_insert_eq. by eexists.
  - by rewrite lookup_insert_ne.
Qed.

(** [addGradient] adds at most a sum node, which it inserts into the graph;
    afterwards the value has a gradient, and the registered gradients stay
    typed when the incoming one is. *)
Lemma addGradient_spec v g s s' :
  addGradient v g s = Ok (tt, s') →
  ∃ new, grown s s' new ∧ Forall isSum new
         ∧ is_Some (map_ s' !! v)
         ∧ (mapTyped s → is_Some (typeOf (heap (G_ s)) g) → mapTyped s').
Proof.
  intros H. apply addGradient_inv in H as [[Hn [= ->]]|(c & Ty & Hc & HT & [= ->])].
  - exists []. split; [apply grown_registerDirect|]. split; [done|].
    split; [simpl; rewrite lookup_insert_eq; by eexists|].
    intros Hm Hg w gw. simpl. rewrite lookup_insert.
    case_decide; [intros [= <-]; done | apply Hm].
  - eexists. split; [apply grown_registerSum|].
    split; [repeat constructor; by repeat eexists|].
    split; [simpl; rewrite lookup_insert_eq; by eexists|].
    intros Hm Hg w gw. simpl. rewrite lookup_insert.
    case_decide.
    + intros [= <-]. unfold typeOf, ofNode. simpl.
      rewrite lookup_app_r, Nat.sub_diag by done. simpl. by eexists.
    + intros Hw. destruct (Hm _ _ Hw) as [T HTw].
      exists T. by apply typeOf_app.
Qed.

Lemma addGradient_total v g s :
  mapTyped s → ∃ s', addGradient v g s = Ok (tt, s').
Proof.
  intros Hm. destruct (map_ s !! v) as [curr|] eqn:E.
  - rewrite (addGradient_Some _ _ _ _ E).
    destruct (Hm _ _ E) as [Ty ->]. eauto.
  - rewrite (addGradient_None _ _ _ E). eauto.
Qed.

(** ** Inversion of the primitive operations *)

Lemma new_inv nd s X s' :
  new nd s = Ok (X, s') → X = length (heap (G_ s)) ∧ s' = allocated nd s.
Proof. by intros [= <- <-]. Qed.

Lemma toAppend_push_back_inv X s u s' :
  toAppend_push_back X s = Ok (u, s') → s' = staged X s.
Proof. by intros [= <- <-]. Qed.

Lemma map_get_inv v s g s' :
  map_get v s = Ok (g, s') → map_ s !! v = Some g ∧ s' = s.
Proof. unfold map_get. destruct (map_ s !! v); [by intros [= <- <-] | done]. Qed.

Lemma getType_inv v s Ty s' :
  getType v s = Ok (Ty, s') → typeOf (heap (G_ s)) v = Some Ty ∧ s' = s.
Proof.
  rewrite getType_typeOf. destruct (typeOf _ _); [by intros [= <- <-] | done].
Qed.

Lemma liftOption_inv {A} (o : option A) s a s' :
  liftOption o s = Ok (a, s') → o = Some a ∧ s' = s.
Proof. destruct o; [by intros [= <- <-] | done]. Qed.

Lemma mret_inv {A} (a b : A) (s s' : State) :
  (mret a : M A) s = Ok (b, s') → b = a ∧ s' = s.
Proof. by intros [= <- <-]. Qed.

Lemma mapM_getType_inv (l : list NodeValue) s tys s' :
  mapM_ getType l s = Ok (tys, s') →
  s' = s ∧ Forall2 (λ v Ty, typeOf (heap (G_ s)) v = Some Ty) l tys.
Proof.
  revert tys. induction l as [|v l IH]; intros tys; simpl.
  - intros [-> ->]%mret_inv. by split.
  - intros (Ty & s1 & [HT ->]%getType_inv & H)%bind_Ok_inv.
    apply bind_Ok_inv in H as (tys' & s2 & H2 & [-> ->]%mret_inv).
    destruct (IH _ H2) as [-> HF]. split; [done|]. by constructor.
Qed.

(** Symbolic execution of a run that returned. *)
Ltac minv :=
  repeat match goal with
  | H : (_ ≫= _) _ = Ok _ |- _ =>
      let a := fresh "a" in let s := fresh "s" in let H1 := fresh "H" in
      apply bind_Ok_inv in H as (a & s & H1 & H)
  | H : new _ _ = Ok _ |- _ => apply new_inv in H as [-> ->]
  | H : toAppend_push_back _ _ = Ok _ |- _ =>
      apply toAppend_push_back_inv in H as ->
  | H : map_get _ _ = Ok _ |- _ => apply map_get_inv in H as [H ->]
  | H : getGradient _ _ = Ok _ |- _ => apply map_get_inv in H as [H ->]
  | H : getType _ _ = Ok _ |- _ => apply getType_inv in H as [H ->]
  | H : getTypeOfNode _ _ = Ok _ |- _ => apply getType_inv in H as [H ->]
  | H : liftOption _ _ = Ok _ |- _ => apply liftOption_inv in H as [H ->]
  | H : mret _ _ = Ok _ |- _ => apply mret_inv in H as [-> ->]
  | H : mapM_ getType _ _ = Ok _ |- _ =>
      apply mapM_getType_inv in H as [-> H]
  end.

(** ** Runs of [addGradient] *)

Lemma forM_addGradient_spec (l : list (NodeValue * NodeValue)) s s' :
  forM_ l (λ p, addGradient p.1 p.2) s = Ok (tt, s') →
  ∃ new, grown s s' new ∧ Forall isSum new
         ∧ (∀ p, p ∈ l → is_Some (map_ s' !! p.1))
         ∧ (mapTyped s →
            (∀ p, p ∈ l → is_Some (typeOf (heap (G_ s)) p.2)) →
            mapTyped s').
Proof.
  revert s. induction l as [|p l IH]; intros s; simpl.
  - intros [_ ->]%mret_inv. exists []. split; [apply grown_refl|].
    split; [done|]. split; [by intros ? ?%elem_of_nil | done].
  - intros ([] & s1 & H1 & H2)%bind_Ok_inv.
    apply addGradient_spec in H1 as (n1 & Hg1 & Hs1 & Hr1 & Ht1).
    apply IH in H2 as (n2 & Hg2 & Hs2 & Hr2 & Ht2).
    exists (n1 ++ n2). split; [by eapply grown_trans|].
    split; [by apply Forall_app|]. split.
    + intros q [->|Hq]%elem_of_cons; [|by apply Hr2].
      by apply (grown_dom _ _ _ Hg2).
    + intros Hm Hty. apply Ht2.
      * apply Ht1; [done|]. apply Hty. by left.
      * intros q Hq. destruct (Hty q) as [T HT]; [by right|].
        exists T. rewrite (grown_heap _ _ _ Hg1). by apply typeOf_app.
Qed.

Lemma forM_addGradient_total (l : list (NodeValue * NodeValue)) s :
  mapTyped s → (∀ p, p ∈ l → is_Some (typeOf (heap (G_ s)) p.2)) →
  ∃ s', forM_ l (λ p, addGradient p.1 p.2) s = Ok (tt, s').
Proof.
  revert s. induction l as [|p l IH]; intros s Hm Hty; simpl.
  - by eexists.
  - destruct (addGradient_total p.1 p.2 s Hm) as [s1 H1].
    rewrite (bind_Ok _ _ _ _ _ H1).
    pose proof H1 as (n1 & Hg1 & _ & _ & Ht1)%addGradient_spec.
    apply IH.
    + apply Ht1; [done|]. apply Hty. by left.
    + intros q Hq. destruct (Hty q) as [T HT]; [by right|].
      exists T. rewrite (grown_heap _ _ _ Hg1). by apply typeOf_app.
Qed.

Lemma isSum_flags (new : list Node) :
  Forall isSum new →
  Forall (λ nd, isStaged nd = false) new
  ∧ Forall (λ nd, isBackward nd = true) new
  ∧ Forall (λ nd, getKind nd = ArithmeticNodeKind) new.
Proof.
  intros H. repeat split; eapply Forall_impl; try exact H;
    by intros ? (? & ? & ? & ->).
Qed.

(** A node built first and staged after the sums of its gradients. *)
Lemma grown_staged_late nd s s1 sums :
  isInserted nd = false → isSnapshotVar nd = false → isGsum nd = false →
  isStaged nd = true →
  grown (allocated nd s) s1 sums → Forall isSum sums →
  grown s (staged (length (heap (G_ s))) s1) (nd :: sums).
Proof.
  intros H1 H2 H3 H4 [Hh Hn Hv Ht Hw Hd] Hs.
  apply isSum_flags in Hs as [Hs _].
  simpl in *. rewrite length_app in *. simpl in *.
  rewrite Nat.add_1_r in *.
  split; simpl; rewrite ?H1, ?H2, ?H3, ?H4; simpl.
  - by rewrite Hh, <- app_assoc.
  - done.
  - done.
  - rewrite Ht. rewrite (positions_none _ _ _ Hs). by rewrite app_nil_r.
  - done.
  - done.
Qed.

Lemma typeOf_is_Some_app h h' v :
  is_Some (typeOf h v) → is_Some (typeOf (h ++ h') v).
Proof. intros [T HT]. exists T. by apply typeOf_app. Qed.

Lemma typeOf_new h nd Ty :
  getResultType nd 0 = Some Ty →
  typeOf (h ++ [nd]) (ofNode (length h)) = Some Ty.
Proof.
  intros H. unfold typeOf, ofNode. simpl.
  by rewrite lookup_app_r, Nat.sub_diag.
Qed.

(** The per-kind rule: it needs the gradient of the node's result; it builds
    one gradient node and registers a gradient for every operand. *)
Lemma getGrad_spec N nd s X s1 :
  getGrad N nd s = Ok (X, s1) →
  X = length (heap (G_ s))
  ∧ is_Some (map_ s !! ofNode N)
  ∧ ∃ new, grown s (staged X s1) new
           ∧ Forall (λ nd, isBackward nd = true) new
           ∧ (∀ v, v ∈ getInputs nd → is_Some (map_ s1 !! v))
           ∧ (mapTyped s → mapTyped s1).
Proof.
  unfold getGrad. intros H. minv. destruct a2.
  split; [done|]. split; [by eexists|].
  apply forM_addGradient_spec in H3 as (sums & Hg & Hs & Hr & Ht).
  eexists (_ :: sums). split; [|split; [|split]].
  - refine (grown_staged_late _ _ _ _ _ _ _ _ Hg Hs); reflexivity.
  - constructor; [done|]. by apply isSum_flags.
  - intros v [i Hi]%list_elem_of_lookup.
    apply (Hr (v, mkNodeValue (length (heap (G_ s))) i)).
    by apply (elem_of_lookup_imap_2 (λ i v, (v, mkNodeValue _ i))).
  - intros Hm. apply Ht.
    + intros v g Hv. simpl. apply typeOf_is_Some_app. by eapply Hm.
    + intros p (i & v & -> & Hi)%elem_of_lookup_imap. simpl.
      unfold typeOf. simpl. rewrite lookup_app_r, Nat.sub_diag by done.
      simpl. apply lookup_lt_is_Some.
      rewrite <- (Forall2_length _ _ _ H1). by eapply lookup_lt_Some.
Qed.

(** A node built and staged, then registered as the gradient of [v]. *)
Lemma staged_then_registered nd v s s' :
  isInserted nd = false → isSnapshotVar nd = false → isGsum nd = false →
  isStaged nd = true → isBackward nd = true →
  is_Some (getResultType nd 0) →
  addGradient v (ofNode (length (heap (G_ s))))
              (staged (length (heap (G_ s))) (allocated nd s)) = Ok (tt, s') →
  ∃ new, grown s s' new ∧ Forall (λ nd, isBackward nd = true) new
         ∧ is_Some (map_ s' !! v)
         ∧ is_Some (typeOf (heap (G_ s')) (ofNode (length (heap (G_ s)))))
         ∧ (mapTyped s → mapTyped s').
Proof.
  intros H1 H2 H3 H4 H5 [Ty HTy] H.
  apply addGradient_spec in H as (sums & Hg & Hs & Hr & Ht).
  exists ([nd] ++ sums). split; [|split; [|split; [|split]]].
  - eapply grown_trans; [by apply grown_allocated_staged | done].
  - apply Forall_app. split; [by constructor | by apply isSum_flags].
  - done.
  - rewrite (grown_heap _ _ _ Hg). simpl. apply typeOf_is_Some_app.
    exists Ty. by apply typeOf_new.
  - intros Hm. apply Ht.
    + intros w g Hw. simpl. apply typeOf_is_Some_app. by eapply Hm.
    + simpl. exists Ty. by apply typeOf_new.
Qed.

Lemma concatGradLoop_spec outputG dim inputs offsets s s' :
  concatGradLoop outputG dim inputs offsets s = Ok (tt, s') →
  ∃ new, grown s s' new ∧ Forall (λ nd, isBackward nd = true) new
         ∧ (∀ v, v ∈ inputs → is_Some (map_ s' !! v))
         ∧ (mapTyped s → mapTyped s').
Proof.
  revert offsets s. induction inputs as [|v inputs IH]; intros offsets s; simpl.
  - intros [_ ->]%mret_inv. exists []. split; [apply grown_refl|].
    split; [done|]. split; [by intros ? ?%elem_of_nil | done].
  - intros H. minv. destruct a3.
    apply addGradient_spec in H4 as (sums & Hg & Hs & Hr & Ht).
    apply IH in H as (new & Hg' & Hb' & Hr' & Ht').
    exists (([SliceNode "extract" a outputG offsets] ++ sums) ++ new).
    split; [|split; [|split]].
    + eapply grown_trans; [|done].
      eapply grown_trans; [|exact Hg]. by apply grown_allocated.
    + apply Forall_app. split; [|done].
      apply Forall_app. split; [by repeat constructor | by apply isSum_flags].
    + intros w [->|Hw]%elem_of_cons; [|by apply Hr'].
      by apply (grown_dom _ _ _ Hg').
    + intros Hm. apply Ht'. apply Ht.
      * intros w g Hw. simpl. apply typeOf_is_Some_app. by eapply Hm.
      * simpl. exists a. by apply typeOf_new.
Qed.

(** The rules written out in the pass: but for the save rule a rule needs the
    gradient of the node's result; every rule registers a gradient for every
    operand of the node. *)
Lemma structuralGrad_spec N nd s s' :
  structuralGrad N nd s = Ok (tt, s') →
  (getKind nd ≠ SaveNodeKind → is_Some (map_ s !! ofNode N))
  ∧ ∃ new, grown s s' new ∧ Forall (λ nd, isBackward nd = true) new
           ∧ (∀ v, v ∈ getInputs nd → is_Some (map_ s' !! v))
           ∧ (mapTyped s → mapTyped s').
Proof.
  destruct nd; simpl; try done; intros H; minv.
  - (* save *)
    split; [done|].
    match goal with
    | H1 : addGradient input _ _ = Ok (?u, _) |- _ =>
        destruct u;
        apply (staged_then_registered (ZeroNode name a)) in H1
          as (n1 & Hg1 & Hb1 & Hr1 & HX & Ht1);
        [|reflexivity..|by eexists]
    end.
    apply addGradient_spec in H as (n2 & Hg2 & Hs2 & Hr2 & Ht2).
    exists (n1 ++ n2). split; [by eapply grown_trans|].
    split; [apply Forall_app; split; [done | by apply isSum_flags]|].
    split.
    + intros v [->|[->|[]%elem_of_nil]%elem_of_cons]%elem_of_cons; [|done].
      by apply (grown_dom _ _ _ Hg2).
    + intros Hm. apply Ht2; [by apply Ht1 | done].
  - (* reshape *)
    split; [by eexists|].
    apply (staged_then_registered (ReshapeNode name a0 a (dims a0))) in H
      as (n1 & Hg1 & Hb1 & Hr1 & _ & Ht1); [|reflexivity..|by eexists].
    exists n1. split; [done|]. split; [done|]. split; [|done].
    by intros v [->|[]%elem_of_nil]%elem_of_cons.
  - (* transpose *)
    split; [by eexists|].
    apply (staged_then_registered (TransposeNode name a1 a a0)) in H
      as (n1 & Hg1 & Hb1 & Hr1 & _ & Ht1); [|reflexivity..|by eexists].
    exists n1. split; [done|]. split; [done|]. split; [|done].
    by intros v [->|[]%elem_of_nil]%elem_of_cons.
  - (* slice *)
    split; [by eexists|].
    apply addGradient_spec in H as (sums & Hg & Hs & Hr & Ht).
    exists ([ZeroNode "expand" a;
             InsertTensorNode "insert.slice.grad" a
               (ofNode (length (heap (G_ s)))) a1 start] ++ sums).
    split; [|split; [|split]].
    + eapply grown_trans; [|exact Hg].
      split; simpl;
        rewrite ?length_app, ?Nat.add_1_r, <- ?app_assoc, ?app_nil_r; done.
    + apply Forall_app. split; [by repeat constructor | by apply isSum_flags].
    + by intros v [->|[]%elem_of_nil]%elem_of_cons.
    + intros Hm. apply Ht.
      * intros w g Hw. simpl. rewrite <- app_assoc.
        apply typeOf_is_Some_app. by eapply Hm.
      * simpl. exists a. by apply (typeOf_new (_ ++ [_])).
  - (* concat *)
    split; [by eexists|].
    apply concatGradLoop_spec in H as (new & Hg & Hb & Hr & Ht).
    by exists new.
Qed.

Lemma delegated_supported k : k ∈ delegatedKinds → k ∈ supportedKinds.
Proof. intros H. apply elem_of_app. by left. Qed.

Lemma structural_supported k : k ∈ structuralKinds → k ∈ supportedKinds.
Proof. intros H. apply elem_of_app. by right. Qed.

Lemma supported_not_variable k : k ∈ supportedKinds → k ≠ VariableKind.
Proof.
  intros H ->. unfold supportedKinds, delegatedKinds, structuralKinds in H.
  simpl in H. kind_not_in H.
Qed.

Lemma delegated_not_save k : k ∈ delegatedKinds → k ≠ SaveNodeKind.
Proof. intros H ->. unfold delegatedKinds in H. kind_not_in H. Qed.

(** One iteration that returns: the node is a variable or of a supported
    kind; unless it is a variable or a save node, the gradient of its result
    was registered; afterwards every operand has a gradient. *)
Lemma gradStep_spec N nd s s' :
  heap (G_ s) !! N = Some nd →
  gradStep N s = Ok (tt, s') →
  getKind nd ∈ VariableKind :: supportedKinds
  ∧ (getKind nd ≠ VariableKind → getKind nd ≠ SaveNodeKind →
     is_Some (map_ s !! ofNode N))
  ∧ ∃ new, grown s s' new ∧ Forall (λ nd, isBackward nd = true) new
           ∧ (∀ v, v ∈ getInputs nd → is_Some (map_ s' !! v))
           ∧ (mapTyped s → mapTyped s').
Proof.
  intros HN. rewrite (gradStep_unfold _ _ _ HN). unfold isaVariable.
  case_bool_decide as Hv.
  { intros [= <-]. split; [rewrite Hv; by left|]. split; [done|].
    exists []. split; [apply grown_refl|]. split; [done|]. split; [|done].
    destruct nd as [| op | | | | | | | | | |]; try destruct op;
      try discriminate Hv.
    by intros ? ?%elem_of_nil. }
  case_bool_decide as Hd.
  - intros (X & s1 & H1 & ->%toAppend_push_back_inv)%bind_Ok_inv.
    apply getGrad_spec in H1 as (-> & HG & new & Hg & Hb & Hr & Ht).
    split; [right; by apply delegated_supported|]. split; [done|].
    exists new. split; [done|]. split; [done|]. split; [done|].
    intros Hm w g Hw. by apply (Ht Hm w g).
  - intros H.
    destruct (decide (getKind nd ∈ structuralKinds)) as [Hs|Hs];
      [|by rewrite structuralGrad_unsupported in H].
    apply structuralGrad_spec in H as (HG & new & Hg & Hb & Hr & Ht).
    split; [right; by apply structural_supported|]. split; [by auto|].
    by exists new.
Qed.

Lemma gradStep_unsupported_iff N nd s :
  heap (G_ s) !! N = Some nd → getKind nd ≠ VariableKind →
  gradStep N s = Fatal UnsupportedKind ↔ getKind nd ∉ supportedKinds.
Proof.
  intros HN Hv. rewrite (gradStep_unfold _ _ _ HN). unfold isaVariable.
  rewrite bool_decide_eq_false_2 by done.
  case_bool_decide as Hd.
  - split.
    + intros H. exfalso. revert H.
      apply (dispatched_bind (getGrad N nd) toAppend_push_back).
      * apply dispatched_getGrad.
      * apply dispatched_toAppend_push_back.
    + intros H. exfalso. apply H. by apply delegated_supported.
  - split.
    + intros H Hs. apply elem_of_app in Hs as [Hs|Hs]; [done|].
      by apply (structuralGrad_supported N nd Hs s).
    + intros H. apply structuralGrad_unsupported.
      intros Hs. apply H. by apply structural_supported.
Qed.

(** ** The reverse sweep *)

Lemma sweep_cons N l s :
  sweep (N :: l) s = (gradStep N ≫= λ _, sweep l) s.
Proof. done. Qed.

(** A sweep over nodes of the arena that returns. *)
Lemma sweep_spec l s s' :
  Forall (λ N, N < length (heap (G_ s))) l →
  sweep l s = Ok (tt, s') →
  ∃ new, grown s s' new ∧ Forall (λ nd, isBackward nd = true) new
         ∧ (∀ N nd v, N ∈ l → heap (G_ s) !! N = Some nd →
                      v ∈ getInputs nd → is_Some (map_ s' !! v))
         ∧ (mapTyped s → mapTyped s').
Proof.
  revert s. induction l as [|N l IH]; intros s Hl.
  - intros [_ ->]%mret_inv. exists []. split; [apply grown_refl|].
    split; [done|]. split; [|done]. by intros ? ? ? ?%elem_of_nil.
  - rewrite sweep_cons. intros ([] & s1 & H1 & H2)%bind_Ok_inv.
    apply Forall_cons in Hl as [HN Hl].
    destruct (lookup_lt_is_Some_2 _ _ HN) as [nd Hnd].
    apply (gradStep_spec _ _ _ _ Hnd) in H1
      as (_ & _ & n1 & Hg1 & Hb1 & Hr1 & Ht1).
    apply IH in H2 as (n2 & Hg2 & Hb2 & Hr2 & Ht2).
    + exists (n1 ++ n2). split; [by eapply grown_trans|].
      split; [by apply Forall_app|]. split; [|by auto].
      intros N' nd' v [->|HN']%elem_of_cons Hnd' Hv.
      * rewrite Hnd in Hnd'. injection Hnd' as <-.
        apply (grown_dom _ _ _ Hg2). by apply Hr1.
      * apply (Hr2 N' nd' v HN'); [|done].
        rewrite (grown_heap _ _ _ Hg1). by apply lookup_app_l_Some.
    + eapply Forall_impl; [exact Hl|]. simpl. intros N' HN'.
      rewrite (grown_heap _ _ _ Hg1), length_app. lia.
Qed.

(** ** The traversal *)

Lemma topoOrdered_lookup h N nd v :
  topoOrdered h → h !! N = Some nd → v ∈ getInputs nd → getNode v < N.
Proof.
  intros Ht HN Hv. unfold topoOrdered in Ht. rewrite Forall_forall in Ht.
  specialize (Ht (N, nd)). simpl in Ht.
  rewrite Forall_forall in Ht. apply Ht; [|done].
  by apply (elem_of_lookup_imap_2 (λ N nd, (N, nd))).
Qed.

Lemma foldl_Fatal {B} (f : B → list NodeId → Result (list NodeId)) e vs :
  foldl (λ acc v, p ← acc; f v p) (Fatal e) vs = Fatal e.
Proof. induction vs as [|v vs IH]; simpl; done. Qed.

Lemma foldl_Ok_inv {B} (f : B → list NodeId → Result (list NodeId))
    pov v vs r :
  foldl (λ acc v, p ← acc; f v p) (Ok pov) (v :: vs) = Ok r →
  ∃ p1, f v pov = Ok p1 ∧ foldl (λ acc v, p ← acc; f v p) (Ok p1) vs = Ok r.
Proof.
  simpl. unfold mbind at 2, Result_bind at 2.
  destruct (f v pov) as [p1|e]; [eauto | by rewrite foldl_Fatal].
Qed.

Lemma postOrdered_nil h : postOrdered h [].
Proof.
  split; [constructor | constructor |]. by intros i N nd v ?.
Qed.

(** What one [visit] that returns adds to a post order. *)
Lemma visit_spec h : topoOrdered h → ∀ fuel N pov pov',
  visit fuel h N pov = Ok pov' → postOrdered h pov →
  ∃ new, pov' = pov ++ new ∧ Forall (λ M, M ≤ N) new ∧ N ∈ pov'
         ∧ postOrdered h pov'.
Proof.
  intros Ht. induction fuel as [|fuel IH]; intros N pov pov'; [done|].
  simpl. case_bool_decide as HN.
  { intros [= <-] Hp. exists []. by rewrite app_nil_r. }
  destruct (h !! N) as [nd|] eqn:Hnd; [|done].
  intros H Hp.
  assert (Hin : ∀ v, v ∈ getInputs nd → getNode v < N).
  { intros v Hv. by eapply topoOrdered_lookup. }
  assert (∀ vs pov pov1,
    (∀ v, v ∈ vs → getNode v < N) → postOrdered h pov →
    foldl (λ acc v, p ← acc; visit fuel h (getNode v) p) (Ok pov) vs
      = Ok pov1 →
    ∃ new, pov1 = pov ++ new ∧ Forall (λ M, M < N) new
           ∧ (∀ v, v ∈ vs → getNode v ∈ pov1) ∧ postOrdered h pov1) as Hfold.
  { clear -IH. induction vs as [|v vs IHvs]; intros pov pov1 Hlt Hp.
    - intros [= <-]. exists []. rewrite app_nil_r.
      split; [done|]. split; [done|]. split; [|done].
      by intros ? ?%elem_of_nil.
    - intros (p1 & H1 & H2)%foldl_Ok_inv.
      apply IH in H1 as (n1 & -> & Hle1 & Hv1 & Hp1); [|done].
      apply IHvs in H2 as (n2 & -> & Hlt2 & Hv2 & Hp2); [|intros w Hw; apply Hlt; by right|done].
      exists (n1 ++ n2). split; [by rewrite app_assoc|].
      split.
      + apply Forall_app. split; [|done].
        eapply Forall_impl; [exact Hle1|]. simpl. intros M HM.
        assert (getNode v < N) by (apply Hlt; by left). lia.
      + split; [|done].
        intros w [->|Hw]%elem_of_cons; [|by apply Hv2].
        apply elem_of_app. by left. }
  unfold mbind, Result_bind in H.
  destruct (foldl _ _ _) as [pov1|] eqn:Hf; [|done].
  injection H as <-.
  apply Hfold in Hf as (new & -> & Hlt & Hv & [Hnd1 Hval1 Hdep1]);
    [|done|done].
  exists (new ++ [N]). split; [by rewrite app_assoc|].
  split; [|split].
  - apply Forall_app. split; [|by repeat constructor].
    eapply Forall_impl; [exact Hlt|]. simpl. lia.
  - apply elem_of_app. right. by left.
  - assert (N ∉ pov ++ new) as HN'.
    { intros [?|Hn]%elem_of_app; [done|].
      rewrite Forall_forall in Hlt. apply Hlt in Hn. lia. }
    split.
    + apply NoDup_app. split; [done|]. split; [|apply NoDup_singleton].
      intros M HM ->%list_elem_of_singleton. done.
    + apply Forall_app. split; [done|]. repeat constructor.
      by eapply lookup_lt_Some.
    + intros i M ndM v Hi HM HvM.
      destruct (decide (i < length (pov ++ new))) as [Hlt'|Hge].
      * rewrite lookup_app_l in Hi by done.
        destruct (Hdep1 i M ndM v Hi HM HvM) as (j & Hj & Hjl).
        exists j. split; [done|]. rewrite lookup_app_l by lia. done.
      * rewrite lookup_app_r in Hi by lia.
        apply list_lookup_singleton_Some in Hi as [Hi <-].
        rewrite Hnd in HM. injection HM as <-.
        destruct (proj1 (list_elem_of_lookup _ _) (Hv v HvM)) as [j Hj].
        exists j. split; [|by rewrite lookup_app_l by (by eapply lookup_lt_Some)].
        apply lookup_lt_Some in Hj. lia.
Qed.

(** On an arena in construction order the walk returns. *)
Lemma visit_total h : topoOrdered h → ∀ fuel (N : NodeId) pov,
  N < fuel → N < length h → ∃ pov', visit fuel h N pov = Ok pov'.
Proof.
  intros Ht. induction fuel as [|fuel IH]; intros N pov Hf HN; [lia|].
  simpl. case_bool_decide; [by eexists|].
  destruct (h !! N) as [nd|] eqn:Hnd; [|apply lookup_ge_None in Hnd; lia].
  assert (∀ vs pov, (∀ v, v ∈ vs → getNode v < N) →
    ∃ pov1, foldl (λ acc v, p ← acc; visit fuel h (getNode v) p) (Ok pov) vs
            = Ok pov1) as Hfold.
  { induction vs as [|v vs IHvs]; intros p Hlt; [by eexists|].
    assert (getNode v < N) by (apply Hlt; by left).
    simpl. destruct (IH (getNode v) p) as [p1 ->]; [lia|lia|].
    apply IHvs. intros w Hw. apply Hlt. by right. }
  destruct (Hfold (getInputs nd) pov) as [pov1 Hp1].
  - intros v Hv. by eapply topoOrdered_lookup.
  - exists (pov1 ++ [N]). by rewrite Hp1.
Qed.

Lemma visitAll_Ok_inv h N roots pov r :
  visitAll h (N :: roots) (Ok pov) = Ok r →
  ∃ p1, visit (length h) h N pov = Ok p1 ∧ visitAll h roots (Ok p1) = Ok r.
Proof. apply (foldl_Ok_inv (λ N, visit (length h) h N)). Qed.

Lemma visitAll_spec h : topoOrdered h → ∀ roots pov pov',
  visitAll h roots (Ok pov) = Ok pov' → postOrdered h pov →
  ∃ new, pov' = pov ++ new ∧ (∀ N, N ∈ roots → N ∈ pov')
         ∧ postOrdered h pov'.
Proof.
  intros Ht. induction roots as [|N roots IH]; intros pov pov'.
  - intros [= <-] Hp. exists []. rewrite app_nil_r.
    split; [done|]. split; [|done]. by intros ? ?%elem_of_nil.
  - intros (p1 & H1 & H2)%visitAll_Ok_inv Hp.
    apply (visit_spec h Ht) in H1 as (n1 & -> & _ & HN & Hp1); [|done].
    apply IH in H2 as (n2 & -> & Hr & Hp2); [|done].
    exists (n1 ++ n2). split; [by rewrite app_assoc|]. split; [|done].
    intros M [->|HM]%elem_of_cons; [|by apply Hr].
    apply elem_of_app. by left.
Qed.

Lemma visitAll_total h : topoOrdered h → ∀ roots pov,
  Forall (λ N, N < length h) roots →
  ∃ pov', visitAll h roots (Ok pov) = Ok pov'.
Proof.
  intros Ht. induction roots as [|N roots IH]; intros pov Hr; [by eexists|].
  apply Forall_cons in Hr as [HN Hr].
  destruct (visit_total h Ht (length h) N pov) as [p1 H1]; [lia|done|].
  unfold visitAll. simpl. rewrite H1. by apply IH.
Qed.

(** On a well-formed graph the traversal returns a dependency-first order
    of valid nodes that holds every variable and node of the graph. *)
Lemma getPostOrder_spec g :
  topoOrdered (heap g) → rootsValid g →
  ∃ order, getPostOrder g = Ok order
           ∧ postOrdered (heap g) order
           ∧ ∀ N, N ∈ vars_ g ++ nodes_ g → N ∈ order.
Proof.
  intros Ht [Hv Hn]%Forall_app. unfold getPostOrder.
  destruct (visitAll_total _ Ht (vars_ g) [] Hv) as [p1 H1]. rewrite H1.
  destruct (visitAll_total _ Ht (nodes_ g) p1 Hn) as [p2 H2]. rewrite H2.
  exists p2. split; [done|].
  apply (visitAll_spec _ Ht) in H1 as (n1 & -> & Hr1 & Hp1);
    [|apply postOrdered_nil].
  apply (visitAll_spec _ Ht) in H2 as (n2 & -> & Hr2 & Hp2); [|done].
  split; [done|].
  intros N [HN|HN]%elem_of_app; [|by apply Hr2].
  apply elem_of_app. left. by apply Hr1.
Qed.

Lemma visit_valid h fuel : ∀ N pov,
  Forall (λ N, N < length h) pov → validOrder h (visit fuel h N pov).
Proof.
  induction fuel as [|fuel IH]; intros N pov Hp; [done|].
  simpl. case_bool_decide; [done|].
  destruct (h !! N) as [nd|] eqn:Hnd; [|done].
  assert (∀ vs acc, validOrder h acc →
    validOrder h (foldl (λ acc v, p ← acc; visit fuel h (getNode v) p)
                        acc vs)) as Hfold.
  { induction vs as [|v vs IHvs]; intros acc Hacc; [done|].
    simpl. apply IHvs. destruct acc as [p|e]; [by apply IH | done]. }
  specialize (Hfold (getInputs nd) (Ok pov) Hp).
  destruct (foldl _ _ _) as [p1|e]; [|done].
  simpl in *. apply Forall_app. split; [done|]. repeat constructor.
  by eapply lookup_lt_Some.
Qed.

Lemma visitAll_valid h roots acc :
  validOrder h acc → validOrder h (visitAll h roots acc).
Proof.
  revert acc. induction roots as [|N roots IH]; intros acc Hacc; [done|].
  unfold visitAll. simpl. apply IH.
  destruct acc as [p|e]; [by apply visit_valid | done].
Qed.

Lemma getPostOrder_valid g : validOrder (heap g) (getPostOrder g).
Proof. unfold getPostOrder. do 2 apply visitAll_valid. constructor. Qed.

(** ** Update synthesis *)

Lemma updateStep_eq isTraining conf mode V s :
  updateStep isTraining conf mode V s =
    match heap (G_ s) !! V with
    | None => Fatal InvalidAccess
    | Some nd =>
        match debugPhase mode V nd s with
        | Ok s1 =>
            match updatePhase isTraining conf V nd s1 with
            | Ok s2 => Ok (tt, s2)
            | Fatal e => Fatal e
            end
        | Fatal e => Fatal e
        end
    end.
Proof.
  unfold updateStep, deref.
  unfold mbind at 1, M_bind at 1.
  destruct (heap (G_ s) !! V) as [nd|]; [|done].
  assert (∀ s1 : State,
    (if negb (isTraining nd) then mret ()
     else Ty ← (if fgt0 (momentum conf) then getType (ofNode V)
                else mret getVoidTy);
          gsum ← new (Variable_ "gsum" Ty Broadcast fzero);
          newVars_push_back gsum;;
          g ← getGradient (ofNode V);
          X ← new (SGDNode (getName nd) g V gsum (L1Decay conf)
                           (L2Decay conf) (learningRate conf)
                           (momentum conf) (batchSize conf));
          toAppend_push_back X) s1
    = match updatePhase isTraining conf V nd s1 with
      | Ok s2 => Ok (tt, s2)
      | Fatal e => Fatal e
      end) as Hup.
  { intros s1. unfold updatePhase. destruct (isTraining nd); simpl; [|done].
    destruct (fgt0 (momentum conf)).
    - unfold mbind at 1, M_bind at 1. rewrite getType_typeOf.
      destruct (typeOf (heap (G_ s1)) (ofNode V)) as [Ty|]; [|done].
      unfold getGradient, map_get, mbind, M_bind. simpl.
      destruct (map_ s1 !! ofNode V); [|done].
      unfold toAppend_push_back, updated. simpl.
      by rewrite length_app, <- app_assoc, Nat.add_1_r.
    - unfold getGradient, map_get, mbind, M_bind. simpl.
      destruct (map_ s1 !! ofNode V); [|done].
      unfold toAppend_push_back, updated. simpl.
      by rewrite length_app, <- app_assoc, Nat.add_1_r. }
  unfold debugPhase.
  case_bool_decide as Hm.
  - unfold hasGradient, map_count.
    unfold mbind at 1, M_bind at 1.
    destruct (map_ s !! ofNode V) as [g|] eqn:Hg.
    + rewrite bool_decide_eq_true_2 by (by eexists).
      unfold mbind at 1, M_bind at 1.
      unfold getGradient, map_get, createSave.
      unfold mbind at 1, M_bind at 1. rewrite Hg.
      unfold mbind at 1, M_bind at 1.
      unfold mbind at 1, M_bind at 1. rewrite getType_typeOf.
      destruct (typeOf (heap (G_ s)) g) as [Ty|]; [|done].
      simpl. rewrite Hup. unfold snapshotted. simpl.
      by rewrite length_app, <- app_assoc, Nat.add_1_r.
    + rewrite bool_decide_eq_false_2 by (by intros [? ?]).
      apply Hup.
  - apply Hup.
Qed.

Lemma snapshotOf_app h0 m h h' sn :
  snapshotOf h0 m h sn → snapshotOf h0 m (h ++ h') sn.
Proof.
  intros (nd & g & Ty & H1 & H2 & H3 & H4 & H5).
  exists nd, g, Ty. repeat split; try done; by apply lookup_app_l_Some.
Qed.

Lemma updateOf_app h0 m conf h h' up :
  updateOf h0 m conf h up → updateOf h0 m conf (h ++ h') up.
Proof.
  intros (nd & g & Ty & H1 & H2 & H3 & H4 & H5).
  exists nd, g, Ty. repeat split; try done; by apply lookup_app_l_Some.
Qed.

Lemma built_refl h0 m conf s : built h0 m conf s s [] [] [].
Proof.
  split; simpl; rewrite ?app_nil_r; try done. apply grown_refl.
Qed.

Lemma built_trans h0 m conf s s1 s2 n1 n2 sn1 sn2 up1 up2 :
  built h0 m conf s s1 n1 sn1 up1 → built h0 m conf s1 s2 n2 sn2 up2 →
  built h0 m conf s s2 (n1 ++ n2) (sn1 ++ sn2) (up1 ++ up2).
Proof.
  intros [Hg1 Hc1 Hm1 Hgr1 Hn1 Hv1 Ht1 Hw1 Hs1 Hu1]
         [Hg2 Hc2 Hm2 Hgr2 Hn2 Hv2 Ht2 Hw2 Hs2 Hu2].
  split; rewrite ?fmap_app.
  - by eapply grown_trans.
  - by apply Forall_app.
  - by rewrite Hm2.
  - by rewrite Hgr2, Hgr1, app_assoc.
  - by rewrite Hn2, Hn1, app_assoc.
  - by rewrite Hv2, Hv1, app_assoc.
  - by rewrite Ht2, Ht1, app_assoc.
  - by rewrite Hw2, Hw1, app_assoc.
  - apply Forall_app. split; [|done].
    eapply Forall_impl; [exact Hs1|]. intros sn Hsn.
    rewrite (grown_heap _ _ _ Hg2). by apply snapshotOf_app.
  - apply Forall_app. split; [|done].
    eapply Forall_impl; [exact Hu1|]. intros up Hup.
    rewrite (grown_heap _ _ _ Hg2). by apply updateOf_app.
Qed.

Lemma isGsum_grad name Ty init val :
  isGsum (Variable_ (String.append "_grad_" name) Ty init val) = false.
Proof. reflexivity. Qed.

Lemma isSnapshotVar_grad name Ty init val :
  isSnapshotVar (Variable_ (String.append "_grad_" name) Ty init val) = true.
Proof. reflexivity. Qed.

(** The debug snapshot of one variable. *)
Lemma debugPhase_spec h0 m conf mode V nd s extra :
  heap (G_ s) = h0 ++ extra → map_ s = m → mapTypedIn h0 m →
  h0 !! V = Some nd →
  ∃ s1 new snaps,
    debugPhase mode V nd s = Ok s1
    ∧ built h0 m conf s s1 new snaps []
    ∧ snVar <$> snaps = (if debugged mode m V then [V] else []).
Proof.
  intros Hh Hm Ht HV. unfold debugPhase, debugged.
  case_bool_decide as Hmode; simpl;
    [|exists s, [], []; split; [done|]; split; [apply built_refl | done]].
  rewrite Hm. destruct (m !! ofNode V) as [g|] eqn:Hg.
  - destruct (Ht _ _ Hg) as [Ty HTy].
    rewrite Hh, (typeOf_app _ extra _ _ HTy).
    rewrite bool_decide_eq_true_2 by (by eexists).
    eexists _,
      [Variable_ (String.append "_grad_" (getName nd)) Ty Extern fzero;
       SaveNode (String.append "_grad_" (getName nd)) g
                (length (heap (G_ s)))],
      [mkSnapshot V (length (heap (G_ s))) (S (length (heap (G_ s))))].
    split; [done|]. split; [|done].
    split; simpl; rewrite ?app_nil_r; try done.
    + split; unfold positions; rewrite ?isGsum_grad, ?isSnapshotVar_grad;
        cbn; rewrite ?app_nil_r; done.
    + by repeat constructor.
    + constructor; [|done]. exists nd, g, Ty. simpl.
      split; [done|]. split; [done|]. split; [done|]. split.
      * rewrite lookup_app_r by done. by rewrite Nat.sub_diag.
      * rewrite lookup_app_r by lia.
        by replace (S (length (heap (G_ s))) - length (heap (G_ s))) with 1
          by lia.
  - rewrite bool_decide_eq_false_2 by (by intros [? ?]).
    exists s, [], []. split; [done|]. split; [apply built_refl | done].
Qed.

(** The accumulator and the update node of one variable. *)
Lemma updatePhase_spec isTraining h0 m conf V name Ty init val s extra :
  let nd := Variable_ name Ty init val in
  heap (G_ s) = h0 ++ extra → map_ s = m → h0 !! V = Some nd →
  (trainable isTraining h0 V = true → is_Some (m !! ofNode V)) →
  ∃ s2 new upds,
    updatePhase isTraining conf V nd s = Ok s2
    ∧ built h0 m conf s s2 new [] upds
    ∧ upVar <$> upds = (if trainable isTraining h0 V then [V] else []).
Proof.
  intros nd Hh Hm HV Hgrad. unfold updatePhase, trainable in *.
  rewrite HV in *.
  destruct (isTraining nd) eqn:Htr;
    [|exists s, [], []; split; [done|]; split; [apply built_refl | done]].
  destruct Hgrad as [g Hg]; [done|].
  assert (typeOf (heap (G_ s)) (ofNode V) = Some Ty) as HT.
  { rewrite Hh. apply typeOf_app. unfold typeOf. simpl. by rewrite HV. }
  assert (typeOf h0 (ofNode V) = Some Ty) as HT0.
  { unfold typeOf. simpl. by rewrite HV. }
  rewrite HT, Hm, Hg.
  assert ((if fgt0 (momentum conf) then Some Ty else Some getVoidTy)
          = Some (gsumType conf Ty)) as ->.
  { unfold gsumType. by destruct (fgt0 (momentum conf)). }
  eexists _,
    [Variable_ "gsum" (gsumType conf Ty) Broadcast fzero;
     SGDNode name g V (length (heap (G_ s))) (L1Decay conf) (L2Decay conf)
             (learningRate conf) (momentum conf) (batchSize conf)],
    [mkUpdate V (length (heap (G_ s))) (S (length (heap (G_ s))))].
  split; [done|]. split; [|done].
  split; simpl; rewrite ?app_nil_r; try done.
  - split; cbn; rewrite ?app_nil_r; done.
  - by repeat constructor.
  - constructor; [|done]. exists nd, g, Ty. simpl.
    split; [done|]. split; [done|]. split; [done|]. split.
    + rewrite lookup_app_r by done. by rewrite Nat.sub_diag.
    + rewrite lookup_app_r by lia.
      by replace (S (length (heap (G_ s))) - length (heap (G_ s))) with 1
        by lia.
Qed.

(** Update synthesis for one variable. *)
Lemma updateStep_spec isTraining h0 m conf mode V name Ty init val s extra :
  heap (G_ s) = h0 ++ extra → map_ s = m → mapTypedIn h0 m →
  h0 !! V = Some (Variable_ name Ty init val) →
  (trainable isTraining h0 V = true → is_Some (m !! ofNode V)) →
  ∃ s' new snaps upds,
    updateStep isTraining conf mode V s = Ok (tt, s')
    ∧ built h0 m conf s s' new snaps upds
    ∧ snVar <$> snaps = (if debugged mode m V then [V] else [])
    ∧ upVar <$> upds = (if trainable isTraining h0 V then [V] else []).
Proof.
  intros Hh Hm Ht HV Hgrad. rewrite updateStep_eq.
  rewrite Hh, (lookup_app_l_Some _ _ _ _ HV).
  destruct (debugPhase_spec h0 m conf mode V _ s extra Hh Hm Ht HV)
    as (s1 & n1 & snaps & -> & Hb1 & Hsn).
  destruct (updatePhase_spec isTraining h0 m conf V name Ty init val s1
              (extra ++ n1)) as (s2 & n2 & upds & -> & Hb2 & Hup);
    try done.
  - rewrite (grown_heap _ _ _ (built_grown _ _ _ _ _ _ _ _ Hb1)), Hh.
    by rewrite app_assoc.
  - by rewrite (built_map _ _ _ _ _ _ _ _ Hb1).
  - exists s2, (n1 ++ n2), snaps, upds. split; [done|].
    split; [|done].
    pose proof (built_trans _ _ _ _ _ _ _ _ _ _ _ _ Hb1 Hb2) as Hb.
    by rewrite app_nil_r in Hb.
Qed.

(** Update synthesis over a list of variables: the snapshots are those of the
    debugged variables and the updates those of the trainable variables, in
    the order of the list. *)
Lemma updateSteps_spec isTraining h0 m conf mode l : ∀ s extra,
  heap (G_ s) = h0 ++ extra → map_ s = m → mapTypedIn h0 m →
  updatable isTraining h0 m l →
  ∃ s' new snaps upds,
    forM_ l (updateStep isTraining conf mode) s = Ok (tt, s')
    ∧ built h0 m conf s s' new snaps upds
    ∧ snVar <$> snaps = filter (λ V, debugged mode m V = true) l
    ∧ upVar <$> upds = filter (λ V, trainable isTraining h0 V = true) l.
Proof.
  induction l as [|V l IH]; intros s extra Hh Hm Ht Hl.
  - exists s, [], [], []. split; [done|]. split; [apply built_refl | done].
  - apply Forall_cons in Hl as [(name & Ty & init & val & HV & Hgrad) Hl].
    destruct (updateStep_spec isTraining h0 m conf mode V name Ty init val
                s extra Hh Hm Ht HV Hgrad)
      as (s1 & n1 & sn1 & up1 & H1 & Hb1 & Hsn1 & Hup1).
    destruct (IH s1 (extra ++ n1)) as (s2 & n2 & sn2 & up2 & H2 & Hb2 & Hsn2 & Hup2);
      try done.
    + rewrite (grown_heap _ _ _ (built_grown _ _ _ _ _ _ _ _ Hb1)), Hh.
      by rewrite app_assoc.
    + by rewrite (built_map _ _ _ _ _ _ _ _ Hb1).
    + exists s2, (n1 ++ n2), (sn1 ++ sn2), (up1 ++ up2).
      split; [simpl; by rewrite (bind_Ok _ _ _ _ _ H1)|].
      split; [by eapply built_trans|].
      rewrite !fmap_app, Hsn1, Hsn2, Hup1, Hup2, !filter_cons.
      split.
      * case_decide as E; [by rewrite E|].
        apply not_true_is_false in E. by rewrite E.
      * case_decide as E; [by rewrite E|].
        apply not_true_is_false in E. by rewrite E.
Qed.

Lemma positions_ext P Q base (new : list Node) :
  Forall (λ nd, P nd = Q nd) new → positions P base new = positions Q base new.
Proof.
  intros HF. revert base.
  induction HF as [|nd new H _ IH]; intros base; simpl; [done|].
  by rewrite H, IH.
Qed.

Lemma updateLoop_spec isTraining conf mode s :
  mapTyped s →
  updatable isTraining (heap (G_ s)) (map_ s) (vars_ (G_ s)) →
  ∃ s' new snaps upds,
    updateLoop isTraining conf mode s = Ok (tt, s')
    ∧ built (heap (G_ s)) (map_ s) conf s s' new snaps upds
    ∧ snVar <$> snaps =
        filter (λ V, debugged mode (map_ s) V = true) (vars_ (G_ s))
    ∧ upVar <$> upds =
        filter (λ V, trainable isTraining (heap (G_ s)) V = true)
               (vars_ (G_ s)).
Proof.
  intros Ht Hu. unfold updateLoop.
  apply (updateSteps_spec isTraining _ _ conf mode _ s []); try done.
  by rewrite app_nil_r.
Qed.

Lemma built_sgd_positions h0 m conf s s' new snaps upds :
  built h0 m conf s s' new snaps upds →
  positions isSGD (length (heap (G_ s))) new = upNode <$> upds.
Proof.
  intros Hb. pose proof (built_grown _ _ _ _ _ _ _ _ Hb) as Hg.
  pose proof (grown_toAppend _ _ _ Hg) as H1.
  rewrite (built_toAppend _ _ _ _ _ _ _ _ Hb) in H1.
  apply app_inv_head in H1. rewrite H1.
  apply positions_ext.
  eapply Forall_impl; [exact (built_class _ _ _ _ _ _ _ _ Hb)|].
  by intros [].
Qed.

Lemma built_save_positions h0 m conf s s' new snaps upds :
  built h0 m conf s s' new snaps upds →
  positions isSave (length (heap (G_ s))) new = snSave <$> snaps.
Proof.
  intros Hb. pose proof (built_grown _ _ _ _ _ _ _ _ Hb) as Hg.
  pose proof (grown_nodes _ _ _ Hg) as H1.
  rewrite (built_nodes _ _ _ _ _ _ _ _ Hb) in H1.
  apply app_inv_head in H1. rewrite H1.
  apply positions_ext.
  eapply Forall_impl; [exact (built_class _ _ _ _ _ _ _ _ Hb)|].
  by intros [].
Qed.

Lemma built_gsum_positions h0 m conf s s' new snaps upds :
  built h0 m conf s s' new snaps upds →
  positions isGsum (length (heap (G_ s))) new = upGsum <$> upds.
Proof.
  intros Hb. pose proof (built_grown _ _ _ _ _ _ _ _ Hb) as Hg.
  pose proof (grown_newVars _ _ _ Hg) as H1.
  rewrite (built_newVars _ _ _ _ _ _ _ _ Hb) in H1.
  by apply app_inv_head in H1.
Qed.

(** [x > 0] holds of the positive finite floats and of plus infinity. *)
Lemma fgt0_positive (x : float) :
  fgt0 x = true ↔
  x = S754_infinity false ∨ ∃ mant e, x = S754_finite false mant e.
Proof.
  unfold fgt0, fzero, SFltb, SFcompare.
  destruct x as [[]| [] | | [] mant e]; simpl; split; try done;
    try (by intros [|(? & ? & ?)]); eauto.
Qed.

Lemma filter_never {A} (l : list A) : filter (λ _, false = true) l = [].
Proof.
  induction l as [|x l IH]; [done|]. by rewrite filter_cons_False.
Qed.

(** C5.  On a state whose registered gradients are typed, whose variable
    list holds variables and whose trainable variables all have a registered
    gradient, update synthesis returns; the variables that get an update are
    the trainable variables of the graph, in their order, one update each.
    Each update is an update node bound to the variable, its registered
    gradient, its accumulator and the five hyperparameters of the
    configuration; the update nodes are put on [toAppend], and no other
    update node is built: a variable that is not trainable is skipped. *)
Theorem update_coverage (isTraining : Node → bool) (conf : TrainingConfig)
    (mode : CompilationMode) (s : State) :
  mapTyped s →
  updatable isTraining (heap (G_ s)) (map_ s) (vars_ (G_ s)) →
  ∃ s' new upds,
    updateLoop isTraining conf mode s = Ok (tt, s')
    ∧ heap (G_ s') = heap (G_ s) ++ new
    ∧ upVar <$> upds =
        filter (λ V, trainable isTraining (heap (G_ s)) V = true)
               (vars_ (G_ s))
    ∧ Forall (updateOf (heap (G_ s)) (map_ s) conf (heap (G_ s'))) upds
    ∧ positions isSGD (length (heap (G_ s))) new = upNode <$> upds
    ∧ toAppend s' = toAppend s ++ (upNode <$> upds).
Proof.
  intros Ht Hu.
  destruct (updateLoop_spec isTraining conf mode s Ht Hu)
    as (s' & new & snaps & upds & H & Hb & _ & Hup).
  exists s', new, upds. split; [done|].
  split; [apply (grown_heap _ _ _ (built_grown _ _ _ _ _ _ _ _ Hb))|].
  split; [done|].
  split; [apply (built_upds _ _ _ _ _ _ _ _ Hb)|].
  split; [by eapply built_sgd_positions|].
  apply (built_toAppend _ _ _ _ _ _ _ _ Hb).
Qed.

Lemma updateState_typed : mapTyped updateState.
Proof.
  apply (bool_decide_unpack (mapTyped updateState)). vm_compute. exact I.
Defined.

Lemma updateState_updatable :
  updatable trainOf (heap (G_ updateState)) (map_ updateState)
            (vars_ (G_ updateState)).
Proof.
  repeat apply Forall_cons_2; [| |apply Forall_nil_2].
  - exists "A", sampleTy, Broadcast, fzero. split; [done|]. by eexists.
  - exists "B", sampleTy, Extern, fzero. split; [done|]. by eexists.
Defined.

Lemma update_coverage_witness :
  ∃ s' new upds,
    updateLoop trainOf sampleConf Train updateState = Ok (tt, s')
    ∧ heap (G_ s') = heap (G_ updateState) ++ new
    ∧ upVar <$> upds =
        filter (λ V, trainable trainOf (heap (G_ updateState)) V = true)
               (vars_ (G_ updateState))
    ∧ Forall (updateOf (heap (G_ updateState)) (map_ updateState) sampleConf
                       (heap (G_ s'))) upds
    ∧ positions isSGD (length (heap (G_ updateState))) new = upNode <$> upds
    ∧ toAppend s' = toAppend updateState ++ (upNode <$> upds).
Proof.
  exact (update_coverage trainOf sampleConf Train updateState
           updateState_typed updateState_updatable).
Defined.

(** C4.  Under the same conditions every trainable variable gets one
    momentum accumulator, a variable named "gsum" put on [newVars]; no other
    accumulator is built.  When the momentum of the configuration is greater
    than zero the accumulator has the type of its variable; when the momentum
    is zero (of either sign) it has the void type. *)
Theorem momentum_accumulator (isTraining : Node → bool)
    (conf : TrainingConfig) (mode : CompilationMode) (s : State) :
  mapTyped s →
  updatable isTraining (heap (G_ s)) (map_ s) (vars_ (G_ s)) →
  ∃ s' new upds,
    updateLoop isTraining conf mode s = Ok (tt, s')
    ∧ heap (G_ s') = heap (G_ s) ++ new
    ∧ upVar <$> upds =
        filter (λ V, trainable isTraining (heap (G_ s)) V = true)
               (vars_ (G_ s))
    ∧ newVars s' = newVars s ++ (upGsum <$> upds)
    ∧ positions isGsum (length (heap (G_ s))) new = upGsum <$> upds
    ∧ (fgt0 (momentum conf) = true →
       Forall (λ up, ∃ Ty,
                 typeOf (heap (G_ s)) (ofNode (upVar up)) = Some Ty
                 ∧ heap (G_ s') !! upGsum up =
                     Some (Variable_ "gsum" Ty Broadcast fzero)) upds)
    ∧ (∀ sgn, momentum conf = S754_zero sgn →
       Forall (λ up, heap (G_ s') !! upGsum up =
                       Some (Variable_ "gsum" getVoidTy Broadcast fzero))
              upds).
Proof.
  intros Ht Hu.
  destruct (updateLoop_spec isTraining conf mode s Ht Hu)
    as (s' & new & snaps & upds & H & Hb & _ & Hup).
  exists s', new, upds. split; [done|].
  split; [apply (grown_heap _ _ _ (built_grown _ _ _ _ _ _ _ _ Hb))|].
  split; [done|].
  split; [apply (built_newVars _ _ _ _ _ _ _ _ Hb)|].
  split; [by eapply built_gsum_positions|].
  pose proof (built_upds _ _ _ _ _ _ _ _ Hb) as HU.
  split.
  - intros Hpos. eapply Forall_impl; [exact HU|].
    intros up (nd & g & Ty & _ & _ & HT & Hgs & _).
    exists Ty. split; [done|]. unfold gsumType in Hgs. by rewrite Hpos in Hgs.
  - intros sgn Hz. eapply Forall_impl; [exact HU|].
    intros up (nd & g & Ty & _ & _ & HT & Hgs & _).
    unfold gsumType in Hgs. rewrite Hz in Hgs. by destruct sgn.
Qed.

Lemma momentum_accumulator_witness :
  ∃ s' new upds,
    updateLoop trainOf sampleConf Train updateState = Ok (tt, s')
    ∧ heap (G_ s') = heap (G_ updateState) ++ new
    ∧ upVar <$> upds =
        filter (λ V, trainable trainOf (heap (G_ updateState)) V = true)
               (vars_ (G_ updateState))
    ∧ newVars s' = newVars updateState ++ (upGsum <$> upds)
    ∧ positions isGsum (length (heap (G_ updateState))) new = upGsum <$> upds
    ∧ (fgt0 (momentum sampleConf) = true →
       Forall (λ up, ∃ Ty,
                 typeOf (heap (G_ updateState)) (ofNode (upVar up)) = Some Ty
                 ∧ heap (G_ s') !! upGsum up =
                     Some (Variable_ "gsum" Ty Broadcast fzero)) upds)
    ∧ (∀ sgn, momentum sampleConf = S754_zero sgn →
       Forall (λ up, heap (G_ s') !! upGsum up =
                       Some (Variable_ "gsum" getVoidTy Broadcast fzero))
              upds).
Proof.
  exact (momentum_accumulator trainOf sampleConf Train updateState
           updateState_typed updateState_updatable).
Defined.

(** C6.  Under the same conditions, in mode [TrainDebug] the variables that
    get a snapshot are the variables of the graph with a registered gradient,
    in their order, trainable or not; in any other mode there is none.  A
    snapshot is a save node named "_grad_" followed by the name of the
    variable, which writes the registered gradient to a fresh variable; the
    save node and its destination are inserted into the graph, the pair of
    the variable and the destination is recorded, and no other save node is
    built. *)
Theorem debug_snapshots (isTraining : Node → bool) (conf : TrainingConfig)
    (mode : CompilationMode) (s : State) :
  mapTyped s →
  updatable isTraining (heap (G_ s)) (map_ s) (vars_ (G_ s)) →
  ∃ s' new snaps,
    updateLoop isTraining conf mode s = Ok (tt, s')
    ∧ heap (G_ s') = heap (G_ s) ++ new
    ∧ snVar <$> snaps =
        (if bool_decide (mode = TrainDebug)
         then filter (λ V, is_Some (map_ s !! ofNode V)) (vars_ (G_ s))
         else [])
    ∧ Forall (snapshotOf (heap (G_ s)) (map_ s) (heap (G_ s'))) snaps
    ∧ positions isSave (length (heap (G_ s))) new = snSave <$> snaps
    ∧ nodes_ (G_ s') = nodes_ (G_ s) ++ (snSave <$> snaps)
    ∧ vars_ (G_ s') = vars_ (G_ s) ++ (snDest <$> snaps)
    ∧ grads_ (G_ s') =
        grads_ (G_ s) ++ ((λ sn, (snVar sn, snDest sn)) <$> snaps).
Proof.
  intros Ht Hu.
  destruct (updateLoop_spec isTraining conf mode s Ht Hu)
    as (s' & new & snaps & upds & H & Hb & Hsn & _).
  exists s', new, snaps. split; [done|].
  split; [apply (grown_heap _ _ _ (built_grown _ _ _ _ _ _ _ _ Hb))|].
  split.
  { rewrite Hsn. unfold debugged. case_bool_decide as Hmode; simpl.
    - apply list_filter_iff. intros V. apply bool_decide_eq_true.
    - apply filter_never. }
  split; [apply (built_snaps _ _ _ _ _ _ _ _ Hb)|].
  split; [by eapply built_save_positions|].
  split; [apply (built_nodes _ _ _ _ _ _ _ _ Hb)|].
  split; [apply (built_vars _ _ _ _ _ _ _ _ Hb)|].
  apply (built_grads _ _ _ _ _ _ _ _ Hb).
Qed.

Lemma debug_snapshots_witness :
  ∃ s' new snaps,
    updateLoop trainOf sampleConf TrainDebug updateState = Ok (tt, s')
    ∧ heap (G_ s') = heap (G_ updateState) ++ new
    ∧ snVar <$> snaps =
        (if bool_decide (TrainDebug = TrainDebug)
         then filter (λ V, is_Some (map_ updateState !! ofNode V))
                     (vars_ (G_ updateState))
         else [])
    ∧ Forall (snapshotOf (heap (G_ updateState)) (map_ updateState)
                         (heap (G_ s'))) snaps
    ∧ positions isSave (length (heap (G_ updateState))) new = snSave <$> snaps
    ∧ nodes_ (G_ s') = nodes_ (G_ updateState) ++ (snSave <$> snaps)
    ∧ vars_ (G_ s') = vars_ (G_ updateState) ++ (snDest <$> snaps)
    ∧ grads_ (G_ s') =
        grads_ (G_ updateState) ++ ((λ sn, (snVar sn, snDest sn)) <$> snaps).
Proof.
  exact (debug_snapshots trainOf sampleConf TrainDebug updateState
           updateState_typed updateState_updatable).
Defined.

(** ** The unsupported-kind error *)

Lemma dispatched_updateStep isTraining conf mode V :
  dispatched (updateStep isTraining conf mode V).
Proof.
  intros s. rewrite updateStep_eq. unfold debugPhase, updatePhase.
  repeat case_match; simplify_eq; done.
Qed.

Lemma dispatched_updateLoop isTraining conf mode :
  dispatched (updateLoop isTraining conf mode).
Proof.
  intros s. unfold updateLoop.
  apply dispatched_forM_. intros V. apply dispatched_updateStep.
Qed.

Lemma dispatched_addVar V : dispatched (addVar V).
Proof. apply dispatched_prim. intros s. left. by eexists. Qed.

Lemma dispatched_commit : dispatched commit.
Proof.
  intros s. unfold commit.
  apply dispatched_bind.
  - apply dispatched_forM_. intros X. apply dispatched_addNode.
  - intros _. apply dispatched_forM_. intros V. apply dispatched_addVar.
Qed.

Lemma sweep_dispatched l : ∀ s,
  Forall (λ N, ∃ nd, heap (G_ s) !! N = Some nd
                     ∧ getKind nd ∈ VariableKind :: supportedKinds) l →
  sweep l s ≠ Fatal UnsupportedKind.
Proof.
  induction l as [|N l IH]; intros s Hl; [done|].
  apply Forall_cons in Hl as [(nd & Hnd & Hk) Hl].
  rewrite sweep_cons. intros [H|([] & s1 & H1 & H2)]%bind_Fatal_inv.
  - apply elem_of_cons in Hk as [Hk|Hk].
    + rewrite (gradStep_unfold _ _ _ Hnd) in H. unfold isaVariable in H.
      by rewrite bool_decide_eq_true_2 in H.
    + apply (gradStep_unsupported_iff _ _ _ Hnd) in H; [done|].
      by apply supported_not_variable.
  - revert H2. apply IH.
    apply (gradStep_spec _ _ _ _ Hnd) in H1 as (_ & _ & new & Hg & _).
    eapply Forall_impl; [exact Hl|]. simpl.
    intros N' (nd' & Hnd' & Hk'). exists nd'. split; [|done].
    rewrite (grown_heap _ _ _ Hg). by apply lookup_app_l_Some.
Qed.

Lemma runSweep_dispatched g :
  Forall (λ nd, getKind nd ∈ VariableKind :: supportedKinds) (heap g) →
  runSweep g ≠ Fatal UnsupportedKind.
Proof.
  intros Hk. unfold runSweep.
  pose proof (getPostOrder_valid g) as Hv.
  destruct (getPostOrder g) as [order|e]; [|by intros [= ->]].
  apply sweep_dispatched. simpl in *.
  apply Forall_forall. intros N HN. rewrite elem_of_reverse in HN.
  rewrite Forall_forall in Hv. apply Hv in HN.
  destruct (lookup_lt_is_Some_2 _ _ HN) as [nd Hnd].
  exists nd. split; [done|].
  rewrite Forall_forall in Hk. apply Hk. by eapply list_elem_of_lookup_2.
Qed.

(** C9.  A node that is not a variable ends the iteration in the
    unsupported-kind error exactly when its kind is not one of the sixteen
    kinds of the table; a node of one of the eleven kinds of the macro is
    handed to its own [getGrad] and the result staged, a node of one of the
    five other kinds to the rule the pass writes out.  The error ends the
    sweep at that node, whatever is left to visit.  When every node of the
    arena is a variable or of a kind of the table, neither the sweep nor the
    pass ends in that error. *)
Theorem dispatch_exhaustive :
  (∀ N nd s,
     heap (G_ s) !! N = Some nd → getKind nd ≠ VariableKind →
     (gradStep N s = Fatal UnsupportedKind ↔ getKind nd ∉ supportedKinds)
     ∧ (getKind nd ∈ delegatedKinds →
        gradStep N s = (getGrad N nd ≫= toAppend_push_back) s)
     ∧ (getKind nd ∈ structuralKinds →
        gradStep N s = structuralGrad N nd s)
     ∧ (getKind nd ∉ supportedKinds →
        ∀ rest, sweep (N :: rest) s = Fatal UnsupportedKind))
  ∧ (∀ isTraining g conf mode,
       Forall (λ nd, getKind nd ∈ VariableKind :: supportedKinds) (heap g) →
       runSweep g ≠ Fatal UnsupportedKind
       ∧ generateGradientNodes isTraining g conf mode
         ≠ Fatal UnsupportedKind).
Proof.
  split.
  - intros N nd s Hnd Hv.
    pose proof (gradStep_unfold _ _ _ Hnd) as Hu. unfold isaVariable in Hu.
    rewrite bool_decide_eq_false_2 in Hu by done.
    split; [by apply gradStep_unsupported_iff|].
    split; [|split].
    + intros Hd. by rewrite Hu, bool_decide_eq_true_2.
    + intros Hs. rewrite Hu, bool_decide_eq_false_2; [done|].
      intros Hd. unfold delegatedKinds, structuralKinds in *.
      destruct nd as [| op | | | | | | | | | |]; try destruct op;
        simpl in Hs, Hd; solve [kind_not_in Hs | kind_not_in Hd].
    + intros Hk rest. rewrite sweep_cons.
      apply bind_Fatal. by apply (gradStep_unsupported_iff N nd s Hnd Hv).
  - intros isTraining g conf mode Hk.
    pose proof (runSweep_dispatched g Hk) as Hs. split; [done|].
    unfold generateGradientNodes.
    destruct (runSweep g) as [[[] s1]|e]; [|by intros [= ->]].
    pose proof (dispatched_bind (updateLoop isTraining conf mode)
                  (λ _, commit) (dispatched_updateLoop _ _ _)
                  (λ _, dispatched_commit) s1) as Hd.
    destruct ((updateLoop isTraining conf mode ≫= λ _, commit) s1)
      as [[[] s2]|e]; [done|]. by intros [= ->].
Qed.

Lemma dispatch_exhaustive_witness :
  gradStep 1 unsupportedState = Fatal UnsupportedKind
  ∧ sweep [1; 0] unsupportedState = Fatal UnsupportedKind
  ∧ runSweep fanoutGraph ≠ Fatal UnsupportedKind.
Proof.
  destruct dispatch_exhaustive as [Hstep Hpass].
  destruct (Hstep 1 (OpNode (Other 7) "custom" sampleTy [ofNode 0])
              unsupportedState eq_refl) as (Hiff & _ & _ & Hsweep);
    [done|].
  assert (OtherKind 7 ∉ supportedKinds) as Hk.
  { intros H. unfold supportedKinds, delegatedKinds, structuralKinds in H.
    simpl in H. kind_not_in H. }
  split; [by apply Hiff|]. split; [by apply Hsweep|].
  apply (Hpass trainOf fanoutGraph sampleConf Train).
  unfold supportedKinds, delegatedKinds, structuralKinds.
  repeat apply Forall_cons_2; [..|apply Forall_nil_2]; simpl; kind_in.
Defined.

(** ** Concatenation *)

Lemma mapTyped_allocated nd s : mapTyped s → mapTyped (allocated nd s).
Proof.
  intros Hm v g Hv. simpl. apply typeOf_is_Some_app. by eapply Hm.
Qed.

Lemma size_t_add_small (a b : N) :
  (a + b < 2 ^ 64)%N → size_t_add a b = (a + b)%N.
Proof. intros H. unfold size_t_add. by apply N.mod_small. Qed.

Lemma sumN_cons (x : N) (l : list N) : sumN (x :: l) = (x + sumN l)%N.
Proof. done. Qed.

Lemma sumN_app (a b : list N) : sumN (a ++ b) = (sumN a + sumN b)%N.
Proof.
  induction a as [|x a IH]; [done|].
  rewrite <- app_comm_cons, !sumN_cons, IH. lia.
Qed.

(** The loop over the inputs of a concat node, started at offset [acc]
    along [dim]: it returns, and the slices it builds are, in input order,
    typed as the inputs and placed at the running sums of the extents. *)
Lemma concatGradLoop_slices outputG dim zeros : ∀ inputs tys acc s,
  dim < length zeros →
  Forall2 (λ v Ty, typeOf (heap (G_ s)) v = Some Ty) inputs tys →
  Forall (λ Ty, dim < length (dims Ty)) tys →
  (acc + sumN (extent dim <$> tys) < 2 ^ 64)%N →
  mapTyped s →
  ∃ s' new,
    concatGradLoop outputG dim inputs (<[dim := acc]> zeros) s = Ok (tt, s')
    ∧ heap (G_ s') = heap (G_ s) ++ new
    ∧ filter (λ nd, getKind nd = SliceNodeKind) new =
        imap (λ k Ty,
                SliceNode "extract" Ty outputG
                  (<[dim := (acc + sumN (take k (extent dim <$> tys)))%N]>
                     zeros)) tys.
Proof.
  induction inputs as [|v inputs IH]; intros tys acc s Hd Hty Hdims Hsum Hm.
  - apply Forall2_nil_inv_l in Hty as ->.
    exists s, []. simpl. by rewrite app_nil_r.
  - apply Forall2_cons_inv_l in Hty as (Ty & tys' & HT & Hty & ->).
    apply Forall_cons in Hdims as [HdT Hdims].
    destruct (lookup_lt_is_Some_2 (dims Ty) dim HdT) as [ext Hext].
    assert (extent dim Ty = ext) as Hex by (unfold extent; by rewrite Hext).
    rewrite fmap_cons, sumN_cons, Hex in Hsum.
    cbn [concatGradLoop].
    rewrite (bind_Ok _ _ _ Ty s); [|by rewrite getType_typeOf, HT].
    unfold mbind at 1, M_bind at 1. simpl.
    fold (allocated (SliceNode "extract" Ty outputG (<[dim:=acc]> zeros)) s).
    rewrite list_lookup_insert_eq by done. simpl.
    unfold mbind at 1, M_bind at 1. simpl.
    unfold mbind at 1, M_bind at 1. rewrite Hext. simpl.
    set (s0 := allocated _ s).
    destruct (addGradient_total v (ofNode (length (heap (G_ s)))) s0)
      as [s1 H1]; [by apply mapTyped_allocated|].
    rewrite (bind_Ok _ _ _ _ _ H1).
    apply addGradient_spec in H1 as (sums & Hg & Hs & _ & Ht).
    rewrite list_insert_insert_eq, size_t_add_small by lia.
    destruct (IH tys' (acc + ext)%N s1) as (s' & new & H2 & Hh & Hf);
      try done.
    + rewrite (grown_heap _ _ _ Hg). subst s0. simpl.
      eapply Forall2_impl; [exact Hty|]. simpl. intros w T HwT.
      rewrite <- app_assoc. by apply typeOf_app.
    + lia.
    + apply Ht; [by apply mapTyped_allocated|].
      subst s0. simpl. exists Ty. by apply typeOf_new.
    + exists s', ([SliceNode "extract" Ty outputG (<[dim:=acc]> zeros)]
                  ++ sums ++ new).
      split; [done|]. split.
      * rewrite Hh, (grown_heap _ _ _ Hg). subst s0. simpl.
        by rewrite <- !app_assoc.
      * rewrite !filter_app, Hf.
        rewrite filter_cons_True by done. rewrite filter_nil.
        assert (filter (λ nd, getKind nd = SliceNodeKind) sums = []) as ->.
        { clear -Hs. induction Hs as [|nd sums (? & ? & ? & ->) _ IHs];
            [done|]. by rewrite filter_cons_False. }
        simpl app. change (sumN []) with 0%N. rewrite N.add_0_r. f_equal.
        apply imap_ext. intros k T _. unfold compose. simpl.
        change (list_fmap TypeRef N (extent dim) tys')
          with (extent dim <$> tys').
        rewrite sumN_cons, Hex. do 2 f_equal. lia.
Qed.

(** The running sums of a list of extents cut the range below their total
    into consecutive pieces: every position falls into exactly one. *)
Lemma prefix_sums_partition (exts : list N) : ∀ p : N,
  (p < sumN exts)%N →
  ∃ k, (k < length exts
        ∧ (sumN (take k exts) ≤ p < sumN (take (S k) exts))%N)
       ∧ ∀ k', k' < length exts
               ∧ (sumN (take k' exts) ≤ p < sumN (take (S k') exts))%N →
               k' = k.
Proof.
  induction exts as [|e exts IH]; intros p Hp; [unfold sumN in Hp; simpl in Hp; lia|].
  change (sumN (e :: exts)) with (e + sumN exts)%N in Hp.
  destruct (decide (p < e)%N) as [Hlt|Hge].
  - exists 0. split.
    + split; [simpl; lia|]. simpl. rewrite take_0.
      change (sumN [e]) with (e + 0)%N. unfold sumN at 1. simpl. lia.
    + intros [|k'] [Hk' Hr]; [done|]. exfalso.
      change (sumN (take (S k') (e :: exts)))
        with (e + sumN (take k' exts))%N in Hr. lia.
  - destruct (IH (p - e)%N) as (k & [Hk Hr] & Huniq); [lia|].
    exists (S k). split.
    + split; [simpl; lia|].
      change (sumN (take (S k) (e :: exts)))
        with (e + sumN (take k exts))%N.
      change (sumN (take (S (S k)) (e :: exts)))
        with (e + sumN (take (S k) exts))%N. lia.
    + intros [|k'] [Hk' Hr'].
      * exfalso. simpl in Hr'. rewrite take_0 in Hr'.
        change (sumN [e]) with (e + 0)%N in Hr'. lia.
      * f_equal. apply Huniq. split; [simpl in Hk'; lia|].
        change (sumN (take (S k') (e :: exts)))
          with (e + sumN (take k' exts))%N in Hr'.
        change (sumN (take (S (S k')) (e :: exts)))
          with (e + sumN (take (S k') exts))%N in Hr'. lia.
Qed.

Lemma sumN_take_S (exts : list N) k e :
  exts !! k = Some e → sumN (take (S k) exts) = (sumN (take k exts) + e)%N.
Proof.
  intros H. rewrite (take_S_r _ _ _ H), sumN_app.
  change (sumN [e]) with (e + 0)%N. lia.
Qed.

(** C8.  On a concat node along axis [dim] whose inputs have the types
    [tys], with [exts] their extents along [dim] summing to the extent of the
    result (a [size_t]), the rule returns.  The slice nodes it builds are one
    per input, in input order: slice [k] cuts the gradient of the result, is
    typed as input [k], and starts at the sum of the first [k] extents along
    [dim] and at 0 along every other axis.  Slice [k] ends where slice [k+1]
    starts, and every position of the result along [dim] falls into exactly
    one slice. *)
Theorem concat_backward_slices (s : State) (N : NodeId) (name : string)
    (Ty : TypeRef) (inputs : list NodeValue) (dim : nat)
    (outputG : NodeValue) (tys : list TypeRef) :
  heap (G_ s) !! N = Some (ConcatNode name Ty inputs dim) →
  map_ s !! ofNode N = Some outputG →
  mapTyped s →
  Forall2 (λ v T, typeOf (heap (G_ s)) v = Some T) inputs tys →
  dim < length (dims Ty) →
  Forall (λ T, dim < length (dims T)) tys →
  extent dim Ty = sumN (extent dim <$> tys) →
  (extent dim Ty < 2 ^ 64)%N →
  let exts := extent dim <$> tys in
  ∃ s' new,
    gradStep N s = Ok (tt, s')
    ∧ heap (G_ s') = heap (G_ s) ++ new
    ∧ filter (λ nd, getKind nd = SliceNodeKind) new =
        imap (sliceFor outputG (length (dims Ty)) dim exts) tys
    ∧ (∀ k e, exts !! k = Some e →
              sumN (take (S k) exts) = (sumN (take k exts) + e)%N)
    ∧ (∀ p, (p < extent dim Ty)%N →
         ∃ k, (k < length inputs
               ∧ (sumN (take k exts) ≤ p < sumN (take (S k) exts))%N)
              ∧ ∀ k', k' < length inputs
                      ∧ (sumN (take k' exts) ≤ p
                         < sumN (take (S k') exts))%N →
                      k' = k).
Proof.
  intros HN HG Hm Hty Hd Hdims Hsum Hsz exts.
  set (zeros := replicate (length (dims Ty)) 0%N).
  assert (dim < length zeros) as Hdz by (subst zeros; by rewrite length_replicate).
  destruct (concatGradLoop_slices outputG dim zeros inputs tys 0%N s)
    as (s' & new & H & Hh & Hf); try done.
  { rewrite N.add_0_l. by rewrite Hsum in Hsz. }
  exists s', new.
  split.
  { rewrite (gradStep_unfold _ _ _ HN). simpl.
    unfold getGradient, map_get. unfold mbind at 1, M_bind at 1. rewrite HG.
    rewrite <- H. f_equal. fold zeros. symmetry. apply list_insert_id.
    subst zeros. by apply lookup_replicate_2. }
  split; [done|]. split; [|split].
  - rewrite Hf. apply imap_ext. intros k T _. simpl.
    unfold sliceFor. by rewrite N.add_0_l.
  - apply sumN_take_S.
  - intros p Hp. rewrite Hsum in Hp.
    assert (length inputs = length exts) as ->.
    { subst exts. rewrite length_fmap. by eapply Forall2_length. }
    by apply prefix_sums_partition.
Qed.

Lemma concat_backward_slices_witness :
  ∃ s' new,
    gradStep 3 concatState = Ok (tt, s')
    ∧ heap (G_ s') = heap (G_ concatState) ++ new
    ∧ filter (λ nd, getKind nd = SliceNodeKind) new =
        [SliceNode "extract" (mkType FloatTy [2%N; 3%N]) (ofNode 4)
                   [0%N; 0%N];
         SliceNode "extract" (mkType FloatTy [2%N; 5%N]) (ofNode 4)
                   [0%N; 3%N]].
Proof.
  assert (mapTyped concatState) as Hm.
  { apply (bool_decide_unpack (mapTyped concatState)). vm_compute. exact I. }
  assert (Forall2 (λ v T, typeOf (heap (G_ concatState)) v = Some T)
            [ofNode 0; ofNode 1]
            [mkType FloatTy [2%N; 3%N]; mkType FloatTy [2%N; 5%N]]) as Hty.
  { by repeat constructor. }
  assert (Forall (λ T, 1 < length (dims T))
            [mkType FloatTy [2%N; 3%N]; mkType FloatTy [2%N; 5%N]]) as Hdims.
  { repeat constructor; simpl; lia. }
  destruct (concat_backward_slices concatState 3 "cc"
              (mkType FloatTy [2%N; 8%N]) [ofNode 0; ofNode 1] 1 (ofNode 4)
              [mkType FloatTy [2%N; 3%N]; mkType FloatTy [2%N; 5%N]]
              eq_refl eq_refl Hm Hty ltac:(simpl; lia) Hdims eq_refl eq_refl)
    as (s' & new & H & Hh & Hf & _).
  exists s', new. split; [done|]. split; [done|]. exact Hf.
Defined.

(** ** Staging and commit *)

Lemma forM_addNode l : ∀ s,
  forM_ l addNode s =
    Ok (tt, mkState (mkGraph (heap (G_ s)) (nodes_ (G_ s) ++ l)
                             (vars_ (G_ s)) (grads_ (G_ s)))
                    (map_ s) (toAppend s) (newVars s)).
Proof.
  induction l as [|X l IH]; intros s; simpl.
  - rewrite app_nil_r. by destruct s as [[] ? ? ?].
  - unfold mbind, M_bind. simpl. rewrite IH. simpl.
    by rewrite <- app_assoc.
Qed.

Lemma forM_addVar l : ∀ s,
  forM_ l addVar s =
    Ok (tt, mkState (mkGraph (heap (G_ s)) (nodes_ (G_ s))
                             (vars_ (G_ s) ++ l) (grads_ (G_ s)))
                    (map_ s) (toAppend s) (newVars s)).
Proof.
  induction l as [|X l IH]; intros s; simpl.
  - rewrite app_nil_r. by destruct s as [[] ? ? ?].
  - unfold mbind, M_bind. simpl. rewrite IH. simpl.
    by rewrite <- app_assoc.
Qed.

(** The commit always returns: it appends the staged nodes, then the staged
    variables, and builds nothing. *)
Lemma commit_eq s : commit s = Ok (tt, committed s).
Proof.
  unfold commit. unfold mbind, M_bind. rewrite forM_addNode.
  by rewrite forM_addVar.
Qed.

Lemma debugPhase_grown mode V nd s s1 :
  debugPhase mode V nd s = Ok s1 →
  ∃ new, grown s s1 new ∧ Forall (λ nd, isUpdateClass nd = true) new
         ∧ (mode ≠ TrainDebug → new = []).
Proof.
  unfold debugPhase. case_bool_decide as Hm.
  - destruct (map_ s !! ofNode V) as [g|];
      [|intros [= <-]; exists []; by split; [apply grown_refl|]].
    destruct (typeOf (heap (G_ s)) g) as [Ty|]; [|done].
    intros [= <-].
    exists [Variable_ (String.append "_grad_" (getName nd)) Ty Extern fzero;
            SaveNode (String.append "_grad_" (getName nd)) g
                     (length (heap (G_ s)))].
    split; [|split; [by repeat constructor | done]].
    split; unfold positions; rewrite ?isGsum_grad, ?isSnapshotVar_grad;
      cbn; rewrite ?app_nil_r; done.
  - intros [= <-]. exists []. by split; [apply grown_refl|].
Qed.

Lemma updatePhase_grown isTraining conf V nd s s2 :
  updatePhase isTraining conf V nd s = Ok s2 →
  ∃ new, grown s s2 new ∧ Forall (λ nd, isUpdateClass nd = true) new
         ∧ Forall (λ nd, isDeferred nd = true) new.
Proof.
  unfold updatePhase.
  destruct (isTraining nd);
    [|intros [= <-]; exists []; by split; [apply grown_refl|]].
  destruct (if fgt0 (momentum conf) then _ else _) as [Ty|]; [|done].
  destruct (map_ s !! ofNode V) as [g|]; [|done].
  intros [= <-].
  exists [Variable_ "gsum" Ty Broadcast fzero;
          SGDNode (getName nd) g V (length (heap (G_ s))) (L1Decay conf)
                  (L2Decay conf) (learningRate conf) (momentum conf)
                  (batchSize conf)].
  split; [|split; by repeat constructor].
  split; cbn; rewrite ?app_nil_r; done.
Qed.

(** Update synthesis that returns builds variables, saves and update nodes
    only, and outside mode [TrainDebug] nothing that goes into the graph
    before the commit. *)
Lemma updateSteps_grown isTraining conf mode l : ∀ s s',
  forM_ l (updateStep isTraining conf mode) s = Ok (tt, s') →
  ∃ new, grown s s' new ∧ Forall (λ nd, isUpdateClass nd = true) new
         ∧ (mode ≠ TrainDebug → Forall (λ nd, isDeferred nd = true) new).
Proof.
  induction l as [|V l IH]; intros s s'.
  - intros [_ ->]%mret_inv. exists []. by split; [apply grown_refl|].
  - simpl. intros ([] & s1 & H1 & H2)%bind_Ok_inv.
    rewrite updateStep_eq in H1.
    destruct (heap (G_ s) !! V) as [nd|]; [|done].
    destruct (debugPhase mode V nd s) as [sa|] eqn:Ha; [|done].
    destruct (updatePhase isTraining conf V nd sa) as [sb|] eqn:Hb; [|done].
    injection H1 as ->.
    apply debugPhase_grown in Ha as (na & Hga & Hca & Hma).
    apply updatePhase_grown in Hb as (nb & Hgb & Hcb & Hdb).
    apply IH in H2 as (n2 & Hg2 & Hc2 & Hd2).
    exists ((na ++ nb) ++ n2).
    split; [eapply grown_trans; [by eapply grown_trans | done]|].
    split; [by repeat (apply Forall_app; split)|].
    intros Hmode. rewrite (Hma Hmode). simpl.
    apply Forall_app. split; [done | by apply Hd2].
Qed.

Lemma mapTyped_initialState g : mapTyped (initialState g).
Proof. apply map_Forall_empty. Qed.

(** A sweep of the graph that returns: it builds backward nodes only, and
    the registered gradients are typed. *)
Lemma runSweep_grown g s1 :
  runSweep g = Ok (tt, s1) →
  ∃ n1, grown (initialState g) s1 n1
        ∧ Forall (λ nd, isBackward nd = true) n1
        ∧ mapTyped s1.
Proof.
  unfold runSweep. pose proof (getPostOrder_valid g) as Hv.
  destruct (getPostOrder g) as [order|]; [|done]. simpl in Hv.
  intros H. apply sweep_spec in H as (n1 & Hg & Hb & _ & Ht).
  - exists n1. split; [done|]. split; [done|].
    apply Ht, mapTyped_initialState.
  - simpl. apply Forall_forall. intros N HN. rewrite elem_of_reverse in HN.
    rewrite Forall_forall in Hv. by apply Hv.
Qed.

(** The pass that returns, phase by phase. *)
Lemma pass_growth isTraining g conf mode g' :
  generateGradientNodes isTraining g conf mode = Ok g' →
  ∃ s1 s2 n1 n2,
    runSweep g = Ok (tt, s1)
    ∧ updateLoop isTraining conf mode s1 = Ok (tt, s2)
    ∧ grown (initialState g) s1 n1
    ∧ Forall (λ nd, isBackward nd = true) n1
    ∧ grown s1 s2 n2
    ∧ Forall (λ nd, isUpdateClass nd = true) n2
    ∧ (mode ≠ TrainDebug → Forall (λ nd, isDeferred nd = true) n2)
    ∧ g' = G_ (committed s2).
Proof.
  unfold generateGradientNodes.
  destruct (runSweep g) as [[[] s1]|] eqn:Hs; [|done].
  intros H.
  destruct ((updateLoop isTraining conf mode ≫= λ _, commit) s1)
    as [[[] s3]|] eqn:Hu; [|done].
  injection H as <-.
  apply bind_Ok_inv in Hu as ([] & s2 & Hu & Hc).
  rewrite commit_eq in Hc. injection Hc as <-.
  apply runSweep_grown in Hs as (n1 & Hg1 & Hb1 & _).
  pose proof Hu as (n2 & Hg2 & Hc2 & Hd2)%updateSteps_grown.
  by exists s1, s2, n1, n2.
Qed.

Lemma positions_backward_vars base (n1 : list Node) :
  Forall (λ nd, isBackward nd = true) n1 →
  positions isSnapshotVar base n1 = [] ∧ positions isGsum base n1 = [].
Proof.
  intros H. split; apply positions_none;
    (eapply Forall_impl; [exact H|]); by intros [].
Qed.

Lemma positions_deferred base (n2 : list Node) :
  Forall (λ nd, isDeferred nd = true) n2 →
  positions isInserted base n2 = [] ∧ positions isSnapshotVar base n2 = [].
Proof.
  intros H. split; apply positions_none;
    (eapply Forall_impl; [exact H|]); unfold isDeferred; intros nd Hnd;
    apply andb_true_iff in Hnd as [H1 H2];
    by apply negb_true_iff.
Qed.

(** C3, as the code has it.  When the pass returns: during the sweep the
    arena grows by backward nodes only; the node list of the graph grows by
    the sum nodes of [addGradient], in the order they are built, and its
    variable list stays as it was.  During update synthesis the node and
    variable lists grow by the saves and destinations of the debug snapshots,
    and outside mode [TrainDebug] by nothing.  The staging list [toAppend]
    holds, in the order they are built, the gradient nodes the per-kind rules
    return, the nodes of the save, reshape, transpose and slice rules and the
    update nodes ([staged] is left open on slice nodes); [newVars] holds the
    accumulators.  The commit builds nothing and appends [toAppend] to the
    node list and [newVars] to the variable list.  The arena and both lists
    only grow at their end, so no node or variable of the input graph is
    changed or removed. *)
Theorem staged_commit (isTraining : Node → bool) (g : Graph)
    (conf : TrainingConfig) (mode : CompilationMode) (g' : Graph) :
  generateGradientNodes isTraining g conf mode = Ok g' →
  let base := length (heap g) in
  ∃ s1 s2 n1 n2 (staged : Node → bool),
    runSweep g = Ok (tt, s1)
    ∧ updateLoop isTraining conf mode s1 = Ok (tt, s2)
    ∧ (∀ nd, getKind nd ≠ SliceNodeKind → staged nd = isStaged nd)
    ∧ heap (G_ s1) = heap g ++ n1
    ∧ Forall (λ nd, isBackward nd = true) n1
    ∧ nodes_ (G_ s1) =
        nodes_ g
        ++ positions (λ nd, bool_decide (getKind nd = ArithmeticNodeKind))
                     base n1
    ∧ vars_ (G_ s1) = vars_ g
    ∧ heap (G_ s2) = heap g ++ n1 ++ n2
    ∧ Forall (λ nd, isUpdateClass nd = true) n2
    ∧ nodes_ (G_ s2) = nodes_ g ++ positions isInserted base (n1 ++ n2)
    ∧ vars_ (G_ s2) = vars_ g ++ positions isSnapshotVar base (n1 ++ n2)
    ∧ (mode ≠ TrainDebug →
       nodes_ (G_ s2) = nodes_ (G_ s1) ∧ vars_ (G_ s2) = vars_ g)
    ∧ toAppend s2 = positions staged base (n1 ++ n2)
    ∧ newVars s2 = positions isGsum base (n1 ++ n2)
    ∧ heap g' = heap (G_ s2)
    ∧ nodes_ g' = nodes_ (G_ s2) ++ toAppend s2
    ∧ vars_ g' = vars_ (G_ s2) ++ newVars s2.
Proof.
  intros H base.
  apply pass_growth in H
    as (s1 & s2 & n1 & n2 & Hs & Hu & Hg1 & Hb1 & Hg2 & Hc2 & Hd2 & ->).
  pose proof (grown_trans _ _ _ _ _ Hg1 Hg2) as Hg.
  destruct (positions_backward_vars base n1 Hb1) as [Hv1 Hw1].
  exists s1, s2, n1, n2, isStaged.
  split; [done|]. split; [done|]. split; [done|].
  split; [apply (grown_heap _ _ _ Hg1)|]. split; [done|].
  split.
  { rewrite (grown_nodes _ _ _ Hg1). simpl. f_equal.
    apply positions_ext. eapply Forall_impl; [exact Hb1|]. by intros []. }
  split.
  { rewrite (grown_vars _ _ _ Hg1). simpl. fold base.
    by rewrite Hv1, app_nil_r. }
  split; [apply (grown_heap _ _ _ Hg)|]. split; [done|].
  split; [apply (grown_nodes _ _ _ Hg)|].
  split; [apply (grown_vars _ _ _ Hg)|].
  split.
  { intros Hm. destruct (positions_deferred
      (length (heap (G_ s1))) n2 (Hd2 Hm)) as [Hi Hsv].
    rewrite (grown_nodes _ _ _ Hg2), (grown_vars _ _ _ Hg2), Hi, Hsv.
    rewrite !app_nil_r. split; [done|].
    rewrite (grown_vars _ _ _ Hg1). simpl. fold base.
    by rewrite Hv1, app_nil_r. }
  split; [apply (grown_toAppend _ _ _ Hg)|].
  split; [apply (grown_newVars _ _ _ Hg)|].
  done.
Qed.

Lemma staged_commit_witness :
  ∃ s1 s2,
    runSweep fanoutGraph = Ok (tt, s1)
    ∧ updateLoop trainOf sampleConf Train s1 = Ok (tt, s2)
    ∧ vars_ (G_ s1) = vars_ fanoutGraph
    ∧ nodes_ fanoutResult = nodes_ (G_ s2) ++ toAppend s2
    ∧ vars_ fanoutResult = vars_ (G_ s2) ++ newVars s2.
Proof.
  destruct (staged_commit trainOf fanoutGraph sampleConf Train fanoutResult
              eq_refl)
    as (s1 & s2 & n1 & n2 & staged & Hs & Hu & _ & _ & _ & _ & Hv & _ & _ & _
        & _ & _ & _ & _ & _ & Hn & Hw).
  exists s1, s2. exact (conj Hs (conj Hu (conj Hv (conj Hn Hw)))).
Defined.

(** C3 as stated fails: on a graph whose parameter has two consumers the
    sweep builds a sum node, inserts it into the node list of the graph
    before the sweep ends, and never stages it. *)
Lemma staged_commit_counterexample :
  ∃ s1,
    runSweep fanoutGraph = Ok (tt, s1)
    ∧ heap (G_ s1) !! 7 =
        Some (ArithmeticNode "updateGrad" sampleTy (ofNode 5) (ofNode 6) Add)
    ∧ nodes_ (G_ s1) = [3; 4; 7]
    ∧ nodes_ (G_ s1) ≠ nodes_ fanoutGraph
    ∧ 7 ∉ toAppend s1.
Proof.
  eexists. split; [vm_compute; reflexivity|].
  split; [reflexivity|]. split; [reflexivity|].
  split; [by intros [=]|].
  simpl. intros H. repeat (apply elem_of_cons in H as [H|H]; [discriminate H|]).
  by apply elem_of_nil in H.
Qed.

(** ** The sweep returns on a graph it can differentiate *)

Lemma makeReverseShuffle_total (shuffle : list nat) :
  Forall (λ j, j < length shuffle) shuffle →
  is_Some (makeReverseShuffle shuffle).
Proof.
  intros Hlt. unfold makeReverseShuffle.
  assert (∀ k, k ≤ length shuffle →
    ∃ rs, foldl (reverseShuffleStep shuffle) (Some shuffle) (seq 0 k)
          = Some rs ∧ length rs = length shuffle) as H.
  { induction k as [|k IH]; intros Hk; [by exists shuffle|].
    destruct IH as (rs & Hrs & Hlen); [lia|].
    rewrite seq_S, foldl_app. simpl. rewrite Hrs.
    destruct (lookup_lt_is_Some_2 shuffle k) as [j Hj]; [lia|].
    assert (j < length shuffle) as Hjlt.
    { rewrite Forall_forall in Hlt. apply Hlt.
      apply list_elem_of_lookup. eauto. }
    unfold reverseShuffleStep. simpl. rewrite Hj. simpl.
    rewrite decide_True by lia.
    eexists. split; [done|]. by rewrite length_insert. }
  destruct (H (length shuffle)) as (rs & -> & _); [done|]. by eexists.
Qed.

Lemma mapM_getType_total (l : list NodeValue) s :
  Forall (λ v, is_Some (typeOf (heap (G_ s)) v)) l →
  ∃ tys, mapM_ getType l s = Ok (tys, s).
Proof.
  induction 1 as [|v l [Ty HT] _ [tys IH]]; [by eexists|].
  exists (Ty :: tys). simpl.
  rewrite (bind_Ok _ _ _ Ty s); [|by rewrite getType_typeOf, HT].
  by rewrite (bind_Ok _ _ _ _ _ IH).
Qed.

Lemma getGrad_total N nd s :
  is_Some (map_ s !! ofNode N) →
  Forall (λ v, is_Some (typeOf (heap (G_ s)) v)) (getInputs nd) →
  mapTyped s →
  ∃ X s1, getGrad N nd s = Ok (X, s1).
Proof.
  intros [outG HG] Hty Hm. unfold getGrad.
  rewrite (bind_Ok _ _ _ outG s); [|by unfold getGradient, map_get; rewrite HG].
  destruct (mapM_getType_total _ s Hty) as [tys Htys].
  rewrite (bind_Ok _ _ _ _ _ Htys).
  apply mapM_getType_inv in Htys as [_ HF].
  unfold mbind at 1, M_bind at 1. simpl.
  set (s0 := mkState _ _ _ _).
  destruct (forM_addGradient_total
              (imap (λ i v, (v, mkNodeValue (length (heap (G_ s))) i))
                    (getInputs nd)) s0) as [s1 H1].
  - intros v g Hv. subst s0. simpl. apply typeOf_is_Some_app. by eapply Hm.
  - intros p (i & v & -> & Hi)%elem_of_lookup_imap. subst s0. simpl.
    unfold typeOf. simpl. rewrite lookup_app_r, Nat.sub_diag by done.
    simpl. apply lookup_lt_is_Some.
    rewrite <- (Forall2_length _ _ _ HF). by eapply lookup_lt_Some.
  - rewrite (bind_Ok _ _ _ _ _ H1). by eexists _, _.
Qed.

Lemma concatGradLoop_total outputG dim : ∀ inputs offsets s,
  dim < length offsets →
  Forall (λ v, ∃ T, typeOf (heap (G_ s)) v = Some T ∧ dim < length (dims T))
         inputs →
  mapTyped s →
  ∃ s', concatGradLoop outputG dim inputs offsets s = Ok (tt, s').
Proof.
  induction inputs as [|v inputs IH]; intros offsets s Hd Hin Hm;
    [by eexists|].
  apply Forall_cons in Hin as [(T & HT & HdT) Hin].
  destruct (lookup_lt_is_Some_2 (dims T) dim HdT) as [ext Hext].
  destruct (lookup_lt_is_Some_2 offsets dim Hd) as [off Hoff].
  cbn [concatGradLoop].
  rewrite (bind_Ok _ _ _ T s); [|by rewrite getType_typeOf, HT].
  unfold mbind at 1, M_bind at 1. simpl.
  unfold mbind at 1, M_bind at 1. rewrite Hoff. simpl.
  unfold mbind at 1, M_bind at 1. rewrite Hext. simpl.
  set (s0 := mkState _ _ _ _).
  assert (mapTyped s0) as Hm0.
  { intros w g Hw. subst s0. simpl. apply typeOf_is_Some_app. by eapply Hm. }
  destruct (addGradient_total v (ofNode (length (heap (G_ s)))) s0 Hm0)
    as [s1 H1].
  rewrite (bind_Ok _ _ _ _ _ H1).
  apply addGradient_spec in H1 as (sums & Hg & _ & _ & Ht).
  apply IH.
  - by rewrite length_insert.
  - eapply Forall_impl; [exact Hin|]. simpl. intros w (T' & HT' & Hd').
    exists T'. split; [|done]. rewrite (grown_heap _ _ _ Hg).
    subst s0. simpl. rewrite <- app_assoc. by apply typeOf_app.
  - apply Ht; [done|]. subst s0. simpl. exists T. by apply typeOf_new.
Qed.

Lemma typeOf_lift h0 extra s v :
  heap (G_ s) = h0 ++ extra → is_Some (typeOf h0 v) →
  is_Some (typeOf (heap (G_ s)) v).
Proof. intros -> H. by apply typeOf_is_Some_app. Qed.

Lemma getType_total v s :
  is_Some (typeOf (heap (G_ s)) v) → ∃ Ty, getType v s = Ok (Ty, s).
Proof. intros [Ty H]. exists Ty. by rewrite getType_typeOf, H. Qed.

Lemma structuralGrad_total h0 extra N nd s :
  heap (G_ s) = h0 ++ extra →
  getKind nd ∈ structuralKinds →
  Forall (operandTyped h0) (getInputs nd) → shapeOk h0 nd →
  mapTyped s →
  (getKind nd ≠ SaveNodeKind → is_Some (map_ s !! ofNode N)) →
  ∃ s1, structuralGrad N nd s = Ok (tt, s1).
Proof.
  intros Hh Hk Hops Hshape Hm HG. unfold structuralKinds in Hk.
  destruct nd as [| op | | | | | | | | | |]; try destruct op;
    try (exfalso; simpl in Hk; kind_not_in Hk); simpl in *.
  - (* save *)
    apply Forall_cons in Hops as [[_ Hin] _].
    destruct (getType_total (ofNode (getNode input)) s) as [Ty HT];
      [by eapply typeOf_lift|].
    unfold getTypeOfNode. rewrite (bind_Ok _ _ _ _ _ HT).
    unfold mbind at 1, M_bind at 1. simpl.
    unfold mbind at 1, M_bind at 1. simpl.
    set (s0 := mkState _ _ _ _).
    assert (mapTyped s0) as Hm0.
    { intros w g Hw. subst s0. simpl. apply typeOf_is_Some_app.
      by eapply Hm. }
    destruct (addGradient_total input (ofNode (length (heap (G_ s)))) s0 Hm0)
      as [s1 H1].
    rewrite (bind_Ok _ _ _ _ _ H1).
    apply addGradient_spec in H1 as (sums & Hg & _ & _ & Ht).
    apply addGradient_total. apply Ht; [done|].
    subst s0. simpl. exists Ty. by apply typeOf_new.
  - (* reshape *)
    destruct HG as [outG HG]; [done|].
    apply Forall_cons in Hops as [[_ Hin] _].
    destruct (getType_total (ofNode (getNode input)) s) as [Ty' HT];
      [by eapply typeOf_lift|].
    unfold getGradient, map_get, getTypeOfNode.
    unfold mbind at 1, M_bind at 1. rewrite HG.
    rewrite (bind_Ok _ _ _ _ _ HT).
    unfold mbind at 1, M_bind at 1. simpl.
    unfold mbind at 1, M_bind at 1. simpl.
    apply addGradient_total.
    intros w g Hw. simpl. apply typeOf_is_Some_app. by eapply Hm.
  - (* transpose *)
    destruct HG as [outG HG]; [done|].
    apply Forall_cons in Hops as [[_ Hin] _].
    destruct (getType_total (ofNode (getNode input)) s) as [Ty' HT];
      [by eapply typeOf_lift|].
    destruct (makeReverseShuffle_total shuffle Hshape) as [rs Hrs].
    unfold getGradient, map_get, getTypeOfNode.
    unfold mbind at 1, M_bind at 1. rewrite HG.
    unfold mbind at 1, M_bind at 1. rewrite Hrs. simpl.
    rewrite (bind_Ok _ _ _ _ _ HT).
    unfold mbind at 1, M_bind at 1. simpl.
    unfold mbind at 1, M_bind at 1. simpl.
    apply addGradient_total.
    intros w g Hw. simpl. apply typeOf_is_Some_app. by eapply Hm.
  - (* slice *)
    destruct HG as [outG HG]; [done|].
    apply Forall_cons in Hops as [[_ Hin] _].
    destruct (getType_total (ofNode (getNode input)) s) as [Ty' HT];
      [by eapply typeOf_lift|].
    unfold getGradient, map_get, getTypeOfNode.
    rewrite (bind_Ok _ _ _ _ _ HT).
    unfold mbind at 1, M_bind at 1. simpl.
    unfold mbind at 1, M_bind at 1. simpl. rewrite HG.
    unfold mbind at 1, M_bind at 1. simpl.
    unfold mbind at 1, M_bind at 1. simpl.
    unfold mbind at 1, M_bind at 1. simpl.
    apply addGradient_total.
    intros w g Hw. simpl. rewrite <- app_assoc.
    apply typeOf_is_Some_app. by eapply Hm.
  - (* concat *)
    destruct HG as [outG HG]; [done|].
    destruct Hshape as [Hd Hin].
    unfold getGradient, map_get.
    unfold mbind at 1, M_bind at 1. rewrite HG.
    apply concatGradLoop_total; [by rewrite length_replicate | | done].
    eapply Forall_impl; [exact Hin|]. simpl. intros w (T & HT & HdT).
    exists T. split; [|done]. rewrite Hh. by apply typeOf_app.
Qed.

(** One iteration returns on a differentiable node whose result has a
    registered gradient (a variable or a save node needs none). *)
Lemma gradStep_total h0 extra N nd s :
  heap (G_ s) = h0 ++ extra → h0 !! N = Some nd →
  differentiable h0 nd → mapTyped s →
  (getKind nd ≠ VariableKind → getKind nd ≠ SaveNodeKind →
   is_Some (map_ s !! ofNode N)) →
  ∃ s1, gradStep N s = Ok (tt, s1).
Proof.
  intros Hh HN (Hk & Hops & Hshape) Hm HG.
  assert (heap (G_ s) !! N = Some nd) as HN'.
  { rewrite Hh. by apply lookup_app_l_Some. }
  rewrite (gradStep_unfold _ _ _ HN'). unfold isaVariable.
  case_bool_decide as Hv; [by eexists|].
  case_bool_decide as Hd.
  - destruct (getGrad_total N nd s) as (X & s1 & H1); try done.
    + apply HG; [done|]. by apply delegated_not_save.
    + eapply Forall_impl; [exact Hops|]. simpl. intros v [Hv' _].
      by eapply typeOf_lift.
    + rewrite (bind_Ok _ _ _ _ _ H1). by eexists.
  - apply (structuralGrad_total h0 extra); try done.
    + apply elem_of_cons in Hk as [Hk|Hk]; [done|].
      by apply elem_of_app in Hk as [Hk|Hk].
    + intros Hs. by apply HG.
Qed.

Lemma sweep_app l1 l2 s :
  sweep (l1 ++ l2) s = (sweep l1 ≫= λ _, sweep l2) s.
Proof.
  revert s. induction l1 as [|N l1 IH]; intros s; [done|].
  rewrite <- app_comm_cons, sweep_cons.
  change (sweep (N :: l1)) with (gradStep N ≫= λ _, sweep l1).
  unfold mbind, M_bind. destruct (gradStep N s) as [[[] s1]|]; [|done].
  apply IH.
Qed.

(** In the reversed post order a consumer of a node comes before the
    node. *)
Lemma consumer_processed h order done N rest M ndM v :
  postOrdered h order → reverse order = done ++ N :: rest →
  M ∈ order → h !! M = Some ndM → v ∈ getInputs ndM → getNode v = N →
  M ∈ done.
Proof.
  intros [Hnd _ Hdep] Hrev HM HndM Hv HvN.
  assert (order = reverse rest ++ N :: reverse done) as Ho.
  { rewrite <- (reverse_involutive order), Hrev.
    by rewrite reverse_app, reverse_cons, <- app_assoc. }
  apply list_elem_of_lookup in HM as [i Hi].
  destruct (Hdep i M ndM v Hi HndM Hv) as (j & Hji & Hj).
  rewrite HvN in Hj.
  assert (order !! length (reverse rest) = Some N) as HjN.
  { rewrite Ho. by rewrite list_lookup_middle. }
  assert (j = length (reverse rest)) as -> by (by eapply NoDup_lookup).
  rewrite Ho in Hi. rewrite lookup_app_r in Hi by lia.
  destruct (i - length (reverse rest)) as [|k] eqn:Hk; [lia|].
  simpl in Hi. apply elem_of_reverse. by eapply list_elem_of_lookup_2.
Qed.

(** The sweep over the rest of a reversed post order returns, when the
    nodes already swept have registered a gradient for each operand. *)
Lemma sweep_total g order :
  postOrdered (heap g) order →
  (∀ N nd, N ∈ order → heap g !! N = Some nd → differentiable (heap g) nd) →
  (∀ N nd, N ∈ order → heap g !! N = Some nd →
     getKind nd = VariableKind ∨ getKind nd = SaveNodeKind
     ∨ consumed (heap g) order N) →
  ∀ rest done s extra,
    reverse order = done ++ rest →
    heap (G_ s) = heap g ++ extra → mapTyped s →
    (∀ M ndM v, M ∈ done → heap g !! M = Some ndM → v ∈ getInputs ndM →
                is_Some (map_ s !! v)) →
    ∃ s', sweep rest s = Ok (tt, s').
Proof.
  intros Hpo Hdiff Hcons.
  induction rest as [|N rest IH]; intros done s extra Hrev Hh Hm Hreg;
    [by eexists|].
  assert (N ∈ order) as HN.
  { apply elem_of_reverse. rewrite Hrev. apply elem_of_app. right. by left. }
  assert (N < length (heap g)) as Hlt.
  { pose proof (po_valid _ _ Hpo) as Hv. rewrite Forall_forall in Hv.
    by apply Hv. }
  destruct (heap g !! N) as [nd|] eqn:Hnd;
    [|apply lookup_ge_None in Hnd; lia].
  destruct (gradStep_total (heap g) extra N nd s) as [s1 H1]; try done.
  { by eapply Hdiff. }
  { intros Hv Hs.
    destruct (Hcons N nd HN Hnd) as [?|[?|(M & ndM & HM & HndM & HvM)]];
      [done|done|].
    apply (Hreg M ndM (ofNode N)); [|done|done].
    by eapply (consumer_processed (heap g) order done N rest M ndM (ofNode N)). }
  rewrite sweep_cons, (bind_Ok _ _ _ _ _ H1).
  assert (heap (G_ s) !! N = Some nd) as Hnd'.
  { rewrite Hh. by apply lookup_app_l_Some. }
  apply (gradStep_spec _ _ _ _ Hnd') in H1
    as (_ & _ & new & Hg & _ & Hr & Ht).
  apply (IH (done ++ [N]) s1 (extra ++ new)).
  - by rewrite <- app_assoc.
  - by rewrite (grown_heap _ _ _ Hg), Hh, app_assoc.
  - by apply Ht.
  - intros M ndM v [HM|HM]%elem_of_app HndM Hv.
    + apply (grown_dom _ _ _ Hg). by eapply Hreg.
    + apply list_elem_of_singleton in HM as ->.
      rewrite Hnd in HndM. injection HndM as <-. by apply Hr.
Qed.

(** C1, as the code has it.  On a graph whose arena is in construction order
    and whose variables and nodes exist, the traversal returns a sequence that
    holds every variable and node of the graph, without repetition, in which
    every operand of a node comes before the node; the sweep runs over the
    reversed sequence, so when it reaches a node every node of the sequence
    that consumes a result of that node has been swept, and has registered a
    gradient for the operand it consumes; the gradient of the node's own
    result, which its rule looks up, is therefore registered whenever a node
    of the sequence consumes it.  When moreover every node is differentiable
    and every node the traversal reaches, but for the variables and the save
    nodes, has a consumer of its result, the sweep returns: at every node the
    nodes swept before it have registered a gradient for each of their
    operands, and the gradient of the node's own result, which its rule looks
    up, is registered. *)
Theorem reverse_postorder_sweep (g : Graph) :
  topoOrdered (heap g) → rootsValid g →
  ∃ order,
    getPostOrder g = Ok order
    ∧ (∀ N, N ∈ vars_ g ++ nodes_ g → N ∈ order)
    ∧ postOrdered (heap g) order
    ∧ runSweep g = sweep (reverse order) (initialState g)
    ∧ (∀ done N rest M ndM v,
         reverse order = done ++ N :: rest →
         M ∈ order → heap g !! M = Some ndM → v ∈ getInputs ndM →
         getNode v = N → M ∈ done)
    ∧ (∀ done N rest s,
         reverse order = done ++ N :: rest →
         sweep done (initialState g) = Ok (tt, s) →
         (∀ M ndM v, M ∈ order → heap g !! M = Some ndM →
                     v ∈ getInputs ndM → getNode v = N →
                     is_Some (map_ s !! v))
         ∧ (consumed (heap g) order N → is_Some (map_ s !! ofNode N)))
    ∧ (Forall (differentiable (heap g)) (heap g) → everyResultConsumed g →
       ∃ s1,
         runSweep g = Ok (tt, s1)
         ∧ ∀ done N rest, reverse order = done ++ N :: rest →
             ∃ s, sweep done (initialState g) = Ok (tt, s)
                  ∧ sweep (N :: rest) s = Ok (tt, s1)
                  ∧ (∀ M ndM v, M ∈ done → heap g !! M = Some ndM →
                                v ∈ getInputs ndM → is_Some (map_ s !! v))
                  ∧ (∀ nd, heap g !! N = Some nd →
                           getKind nd ≠ VariableKind →
                           getKind nd ≠ SaveNodeKind →
                           is_Some (map_ s !! ofNode N))).
Proof.
  intros Ht Hr.
  destruct (getPostOrder_spec g Ht Hr) as (order & Ho & Hpo & Hroots).
  exists order. split; [done|]. split; [done|]. split; [done|].
  assert (runSweep g = sweep (reverse order) (initialState g)) as Hrun.
  { unfold runSweep. by rewrite Ho. }
  split; [done|].
  split.
  { intros done N rest M ndM v Hrev HM HndM Hv HvN.
    by eapply (consumer_processed (heap g) order done N rest M ndM v). }
  assert (Forall (λ N, N < length (heap g)) (reverse order)) as Hvalid.
  { apply Forall_forall. intros N HN. rewrite elem_of_reverse in HN.
    pose proof (po_valid _ _ Hpo) as Hv. rewrite Forall_forall in Hv.
    by apply Hv. }
  split.
  { intros done N rest s Hrev Hd.
    rewrite Hrev in Hvalid. apply Forall_app in Hvalid as [Hvd _].
    apply sweep_spec in Hd as (new & _ & _ & Hreg & _); [|done].
    assert (∀ M ndM v, M ∈ order → heap g !! M = Some ndM →
                       v ∈ getInputs ndM → getNode v = N →
                       is_Some (map_ s !! v)) as Hcontrib.
    { intros M ndM v HM HndM Hv HvN. apply (Hreg M ndM v); [|done|done].
      by eapply (consumer_processed (heap g) order done N rest M ndM v). }
    split; [done|].
    intros (M & ndM & HM & HndM & Hv).
    by apply (Hcontrib M ndM (ofNode N)). }
  intros Hdiff Hcons.
  assert (∀ N nd, N ∈ order → heap g !! N = Some nd →
                  differentiable (heap g) nd) as Hdiff'.
  { intros N nd _ Hnd. rewrite Forall_forall in Hdiff. apply Hdiff.
    by eapply list_elem_of_lookup_2. }
  destruct (sweep_total g order Hpo Hdiff' (Hcons order Ho) (reverse order)
              [] (initialState g) []) as [s1 H1].
  { done. }
  { simpl. by rewrite app_nil_r. }
  { apply mapTyped_initialState. }
  { by intros M ndM v ?%elem_of_nil. }
  exists s1. split; [by rewrite Hrun|].
  intros done N rest Hrev.
  rewrite Hrev, sweep_app in H1.
  apply bind_Ok_inv in H1 as ([] & s & Hd & HNr).
  exists s. split; [done|]. split; [done|].
  rewrite Hrev in Hvalid. apply Forall_app in Hvalid as [Hvd HvN].
  apply sweep_spec in Hd as (new & Hg & _ & Hreg & _); [|done].
  split.
  { intros M ndM v HM HndM Hv. by apply (Hreg M ndM v). }
  intros nd Hnd Hvar Hsave.
  rewrite sweep_cons in HNr.
  apply bind_Ok_inv in HNr as ([] & s' & HN & _).
  assert (heap (G_ s) !! N = Some nd) as Hnd'.
  { rewrite (grown_heap _ _ _ Hg). simpl. by apply lookup_app_l_Some. }
  apply (gradStep_spec _ _ _ _ Hnd') in HN as (_ & HG & _).
  by apply HG.
Qed.

Lemma chainGraph_differentiable :
  Forall (differentiable (heap chainGraph)) (heap chainGraph).
Proof.
  unfold differentiable, supportedKinds, delegatedKinds, structuralKinds.
  repeat apply Forall_cons_2; [..|apply Forall_nil_2]; simpl;
    (split; [kind_in|]); (split; [|try done]);
    repeat apply Forall_cons_2; try apply Forall_nil_2;
    try (split; by eexists); lia.
Defined.

Lemma chainGraph_consumed : everyResultConsumed chainGraph.
Proof.
  intros order Ho N nd HN Hnd. vm_compute in Ho. injection Ho as <-.
  repeat (apply elem_of_cons in HN as [->|HN]);
    [..|by apply elem_of_nil in HN];
    simpl in Hnd; injection Hnd as <-; auto.
  - right. right. exists 3, (TransposeNode "t" (mkType FloatTy [2%N; 3%N])
                                          (ofNode 2) [1; 0]).
    split; [kind_in|]. split; [done|]. simpl. kind_in.
  - right. right. exists 4, (SaveNode "save" (ofNode 3) 1).
    split; [kind_in|]. split; [done|]. simpl. kind_in.
Defined.

Lemma reverse_postorder_sweep_witness :
  ∃ order s1,
    getPostOrder chainGraph = Ok order
    ∧ postOrdered (heap chainGraph) order
    ∧ runSweep chainGraph = Ok (tt, s1).
Proof.
  destruct (reverse_postorder_sweep chainGraph)
    as (order & Ho & _ & Hpo & _ & _ & _ & Hs).
  - apply (bool_decide_unpack (topoOrdered (heap chainGraph))).
    vm_compute. exact I.
  - apply (bool_decide_unpack (rootsValid chainGraph)). vm_compute. exact I.
  - destruct (Hs chainGraph_differentiable chainGraph_consumed)
      as (s1 & H1 & _).
    exists order, s1. exact (conj Ho (conj Hpo H1)).
Defined.

(** C1 as stated fails: a reshape whose result nothing consumes is swept
    with no gradient registered for its result, and the lookup of its rule
    ends the pass in the missing-gradient error. *)
Lemma reverse_postorder_sweep_counterexample :
  topoOrdered (heap danglingGraph)
  ∧ rootsValid danglingGraph
  ∧ getPostOrder danglingGraph = Ok [0; 1]
  ∧ map_ (initialState danglingGraph) !! ofNode 1 = None
  ∧ gradStep 1 (initialState danglingGraph) = Fatal MissingGradient
  ∧ runSweep danglingGraph = Fatal MissingGradient
  ∧ generateGradientNodes trainOf danglingGraph sampleConf Train
    = Fatal MissingGradient.
Proof.
  split; [apply (bool_decide_unpack (topoOrdered _)); vm_compute; exact I|].
  split; [apply (bool_decide_unpack (rootsValid _)); vm_compute; exact I|].
  repeat split; by vm_compute.
Qed.

(** ** The pass and the compilation mode *)

(** The pass, phase by phase, on a graph it can differentiate: the sweep
    returns with a typed gradient for every operand of every node reached,
    update synthesis returns with one update for each variable marked for
    training, and the pass returns the committed graph. *)
Lemma pass_phases isTraining g conf mode :
  topoOrdered (heap g) → rootsValid g →
  Forall (differentiable (heap g)) (heap g) → everyResultConsumed g →
  Forall (λ V, ∃ name Ty init val,
            heap g !! V = Some (Variable_ name Ty init val)
            ∧ (isTraining (Variable_ name Ty init val) = true →
               ∃ M ndM, M ∈ nodes_ g ∧ heap g !! M = Some ndM
                        ∧ ofNode V ∈ getInputs ndM))
         (vars_ g) →
  ∃ order s1 n1 s2 n2 snaps upds,
    getPostOrder g = Ok order
    ∧ (∀ N, N ∈ vars_ g ++ nodes_ g → N ∈ order)
    ∧ runSweep g = Ok (tt, s1)
    ∧ grown (initialState g) s1 n1
    ∧ mapTyped s1
    ∧ (∀ N nd v, N ∈ order → heap g !! N = Some nd → v ∈ getInputs nd →
                 is_Some (map_ s1 !! v))
    ∧ vars_ (G_ s1) = vars_ g
    ∧ updateLoop isTraining conf mode s1 = Ok (tt, s2)
    ∧ built (heap (G_ s1)) (map_ s1) conf s1 s2 n2 snaps upds
    ∧ upVar <$> upds =
        filter (λ V, trainable isTraining (heap (G_ s1)) V = true) (vars_ g)
    ∧ generateGradientNodes isTraining g conf mode = Ok (G_ (committed s2)).
Proof.
  intros Ht Hr Hdiff Hcons Hvars.
  destruct (getPostOrder_spec g Ht Hr) as (order & Ho & Hpo & Hroots).
  assert (runSweep g = sweep (reverse order) (initialState g)) as Hrun.
  { unfold runSweep. by rewrite Ho. }
  assert (Forall (λ N, N < length (heap g)) (reverse order)) as Hvalid.
  { apply Forall_forall. intros N HN. rewrite elem_of_reverse in HN.
    pose proof (po_valid _ _ Hpo) as Hv. rewrite Forall_forall in Hv.
    by apply Hv. }
  assert (∀ N nd, N ∈ order → heap g !! N = Some nd →
                  differentiable (heap g) nd) as Hdiff'.
  { intros N nd _ Hnd. rewrite Forall_forall in Hdiff. apply Hdiff.
    by eapply list_elem_of_lookup_2. }
  destruct (sweep_total g order Hpo Hdiff' (Hcons order Ho) (reverse order)
              [] (initialState g) []) as [s1 H1].
  { done. }
  { simpl. by rewrite app_nil_r. }
  { apply mapTyped_initialState. }
  { by intros M ndM v ?%elem_of_nil. }
  pose proof H1 as H1'.
  apply sweep_spec in H1' as (n1 & Hg1 & Hb1 & Hreg & Ht1); [|done].
  specialize (Ht1 (mapTyped_initialState g)).
  pose proof (grown_heap _ _ _ Hg1) as Hh1. simpl in Hh1.
  pose proof (grown_vars _ _ _ Hg1) as Hv1. simpl in Hv1.
  rewrite (proj1 (positions_backward_vars _ _ Hb1)), app_nil_r in Hv1.
  assert (∀ N nd v, N ∈ order → heap g !! N = Some nd → v ∈ getInputs nd →
                    is_Some (map_ s1 !! v)) as Hreg'.
  { intros N nd v HN Hnd Hv. apply (Hreg N nd v); [|done|done].
    by apply elem_of_reverse. }
  destruct (updateLoop_spec isTraining conf mode s1 Ht1)
    as (s2 & n2 & snaps & upds & Hu & Hb & _ & Hup).
  { unfold updatable. rewrite Hv1, Hh1.
    eapply Forall_impl; [exact Hvars|]. simpl.
    intros V (name & Ty & init & val & HV & Htr).
    exists name, Ty, init, val.
    split; [by apply lookup_app_l_Some|].
    unfold trainable. rewrite (lookup_app_l_Some _ _ _ _ HV). intros Hi.
    destruct (Htr Hi) as (M & ndM & HM & HndM & HvM).
    apply (Hreg' M ndM); [|done|done].
    apply Hroots, elem_of_app. by right. }
  exists order, s1, n1, s2, n2, snaps, upds.
  split; [done|]. split; [done|]. split; [by rewrite Hrun|].
  split; [done|]. split; [done|]. split; [done|]. split; [done|].
  split; [done|]. split; [done|]. split; [by rewrite Hup, Hv1|].
  unfold generateGradientNodes. rewrite Hrun, H1.
  by rewrite (bind_Ok _ _ _ _ _ Hu), commit_eq.
Qed.

(** C10.  In mode [Infer] the pass computes what it computes in mode
    [Train]: the same graph, or the same error.  The mode is only compared
    with [TrainDebug]: when the pass returns in mode [Infer], no node it
    built is a save node and no variable it built is the destination of a
    snapshot.  Gradient generation and update synthesis do happen in mode
    [Infer]: on a graph in construction order whose variables and nodes
    exist, whose nodes are all differentiable, in which every result the
    traversal reaches has a consumer and every variable marked for training
    is an operand of a node of the graph, the sweep returns with a gradient,
    built in the returned graph, for every operand of every variable and node
    of the graph, and the pass returns in both modes the same graph, in which
    each variable marked for training has an update node in the node list,
    bound to the variable, to the gradient the sweep registered for it, to an
    accumulator named gsum that is in the variable list, and to the
    hyperparameters of the configuration. *)
Theorem inference_mode_same_as_train (isTraining : Node → bool) (g : Graph)
    (conf : TrainingConfig) :
  generateGradientNodes isTraining g conf Infer
  = generateGradientNodes isTraining g conf Train
  ∧ (∀ g' X nd,
       generateGradientNodes isTraining g conf Infer = Ok g' →
       heap g' !! X = Some nd → length (heap g) ≤ X →
       getKind nd ≠ SaveNodeKind ∧ isSnapshotVar nd = false)
  ∧ (topoOrdered (heap g) → rootsValid g →
     Forall (differentiable (heap g)) (heap g) → everyResultConsumed g →
     Forall (λ V, ∃ name Ty init val,
               heap g !! V = Some (Variable_ name Ty init val)
               ∧ (isTraining (Variable_ name Ty init val) = true →
                  ∃ M ndM, M ∈ nodes_ g ∧ heap g !! M = Some ndM
                           ∧ ofNode V ∈ getInputs ndM))
            (vars_ g) →
     ∃ s1 g',
       runSweep g = Ok (tt, s1)
       ∧ generateGradientNodes isTraining g conf Infer = Ok g'
       ∧ generateGradientNodes isTraining g conf Train = Ok g'
       ∧ (∀ N nd v, N ∈ vars_ g ++ nodes_ g → heap g !! N = Some nd →
                    v ∈ getInputs nd →
                    ∃ grad, map_ s1 !! v = Some grad
                            ∧ is_Some (typeOf (heap g') grad))
       ∧ (∀ V nd, V ∈ vars_ g → heap g !! V = Some nd →
                  isTraining nd = true →
            ∃ X grad gsum Ty,
              map_ s1 !! ofNode V = Some grad
              ∧ X ∈ nodes_ g' ∧ gsum ∈ vars_ g'
              ∧ heap g' !! gsum = Some (Variable_ "gsum" Ty Broadcast fzero)
              ∧ heap g' !! X =
                  Some (SGDNode (getName nd) grad V gsum (L1Decay conf)
                          (L2Decay conf) (learningRate conf) (momentum conf)
                          (batchSize conf)))).
Proof.
  split; [reflexivity|]. split.
  - intros g' X nd H HX Hle.
    apply pass_growth in H
      as (s1 & s2 & n1 & n2 & _ & _ & Hg1 & Hb1 & Hg2 & Hc2 & Hd2 & ->).
    pose proof (grown_trans _ _ _ _ _ Hg1 Hg2) as Hg.
    simpl in HX. rewrite (grown_heap _ _ _ Hg) in HX. simpl in HX.
    rewrite lookup_app_r in HX by done.
    apply list_elem_of_lookup_2, elem_of_app in HX as [Hin|Hin].
    + rewrite Forall_forall in Hb1. apply Hb1 in Hin.
      by destruct nd.
    + assert (Infer ≠ TrainDebug) as Hmode by done.
      specialize (Hd2 Hmode). rewrite Forall_forall in Hd2.
      rewrite Forall_forall in Hc2. pose proof (Hc2 _ Hin) as Hc.
      apply Hd2 in Hin. unfold isDeferred in Hin.
      apply andb_true_iff in Hin as [Hi Hs].
      apply negb_true_iff in Hi. apply negb_true_iff in Hs.
      split; [|done]. by destruct nd.
  - intros Ht Hr Hdiff Hcons Hvars.
    destruct (pass_phases isTraining g conf Infer Ht Hr Hdiff Hcons Hvars)
      as (order & s1 & n1 & s2 & n2 & snaps & upds & Ho & Hroots & Hs & Hg1
          & Hm1 & Hreg & Hv1 & Hu & Hb & Hup & Hpass).
    pose proof (grown_heap _ _ _ Hg1) as Hh1. simpl in Hh1.
    pose proof (grown_heap _ _ _ (built_grown _ _ _ _ _ _ _ _ Hb)) as Hh2.
    exists s1, (G_ (committed s2)).
    split; [done|]. split; [done|]. split; [done|]. split.
    + intros N nd v HN Hnd Hv.
      destruct (Hreg N nd v (Hroots N HN) Hnd Hv) as [grad Hgrad].
      exists grad. split; [done|]. simpl. rewrite Hh2.
      apply typeOf_is_Some_app. by apply (Hm1 v grad).
    + intros V nd HV Hnd Htr.
      assert (V ∈ upVar <$> upds) as Hin.
      { rewrite Hup. apply list_elem_of_filter. split; [|done].
        unfold trainable. by rewrite Hh1, (lookup_app_l_Some _ _ _ _ Hnd). }
      apply list_elem_of_fmap in Hin as (up & -> & Hin).
      pose proof (built_upds _ _ _ _ _ _ _ _ Hb) as Hups.
      rewrite Forall_forall in Hups.
      destruct (Hups up Hin)
        as (nd' & grad & Ty & Hnd' & Hgrad & _ & Hgsum & Hsgd).
      rewrite Hh1, (lookup_app_l_Some _ _ _ _ Hnd) in Hnd'.
      injection Hnd' as <-.
      exists (upNode up), grad, (upGsum up), (gsumType conf Ty). simpl.
      split; [done|]. split; [|split; [|done]].
      * apply elem_of_app. right.
        rewrite (built_toAppend _ _ _ _ _ _ _ _ Hb). apply elem_of_app.
        right. by apply list_elem_of_fmap_2.
      * apply elem_of_app. right.
        rewrite (built_newVars _ _ _ _ _ _ _ _ Hb). apply elem_of_app.
        right. by apply list_elem_of_fmap_2.
Qed.

Lemma inference_mode_same_as_train_witness :
  ∃ g' X grad gsum Ty,
    generateGradientNodes trainOf chainGraph sampleConf Infer = Ok g'
    ∧ generateGradientNodes trainOf chainGraph sampleConf Train = Ok g'
    ∧ X ∈ nodes_ g' ∧ gsum ∈ vars_ g'
    ∧ heap g' !! gsum = Some (Variable_ "gsum" Ty Broadcast fzero)
    ∧ heap g' !! X =
        Some (SGDNode "W" grad 0 gsum (L1Decay sampleConf)
                (L2Decay sampleConf) (learningRate sampleConf)
                (momentum sampleConf) (batchSize sampleConf)).
Proof.
  destruct (inference_mode_same_as_train trainOf chainGraph sampleConf)
    as (_ & _ & Hgen).
  destruct Hgen as (s1 & g' & _ & Hi & Ht & _ & Hsgd).
  - apply (bool_decide_unpack (topoOrdered (heap chainGraph))).
    vm_compute. exact I.
  - apply (bool_decide_unpack (rootsValid chainGraph)). vm_compute. exact I.
  - exact chainGraph_differentiable.
  - exact chainGraph_consumed.
  - repeat apply Forall_cons_2; [..|apply Forall_nil_2].
    + exists "W", (mkType FloatTy [2%N; 3%N]), Broadcast, fzero.
      split; [reflexivity|]. intros _.
      exists 2, (ReshapeNode "r" (mkType FloatTy [3%N; 2%N]) (ofNode 0)
                             [3%N; 2%N]).
      split; [kind_in|]. split; [reflexivity|]. simpl. kind_in.
    + exists "out", (mkType FloatTy [2%N; 3%N]), Extern, fzero.
      split; [reflexivity|]. intros H. discriminate H.
  - destruct (Hsgd 0 (Variable_ "W" (mkType FloatTy [2%N; 3%N]) Broadcast
                                fzero))
      as (X & grad & gsum & Ty & _ & HX & Hg & Hgs & Hn).
    + kind_in.
    + reflexivity.
    + reflexivity.
    + exists g', X, grad, gsum, Ty.
      exact (conj Hi (conj Ht (conj HX (conj Hg (conj Hgs Hn))))).
Defined.

(** * Further properties of the pass *)

(** ** The gradient map *)

(** X1.  Registration and lookup.  On a state whose registered gradients are
    typed, [addGradient v g] returns; afterwards [hasGradient v] is true and
    [getGradient v] returns, without changing the state, the gradient [g]
    itself when [v] had none, and otherwise a fresh sum node of the previous
    gradient and [g].  Before the call, a value with no gradient has
    [hasGradient] false and its [getGradient] is the missing-gradient
    error. *)
Theorem addGradient_getGradient (v g : NodeValue) (s : State) :
  mapTyped s →
  ∃ s' r,
    addGradient v g s = Ok (tt, s')
    ∧ hasGradient v s' = Ok (true, s')
    ∧ getGradient v s' = Ok (r, s')
    ∧ (map_ s !! v = None →
       hasGradient v s = Ok (false, s)
       ∧ getGradient v s = Fatal MissingGradient
       ∧ r = g)
    ∧ (∀ curr, map_ s !! v = Some curr →
       getGradient v s = Ok (curr, s)
       ∧ r = ofNode (length (heap (G_ s)))
       ∧ ∃ Ty, typeOf (heap (G_ s)) curr = Some Ty
               ∧ heap (G_ s') !! getNode r =
                   Some (ArithmeticNode "updateGrad" Ty curr g Add)).
Proof.
  intros Hm. unfold hasGradient, getGradient, map_count, map_get.
  destruct (map_ s !! v) as [curr|] eqn:E.
  - destruct (Hm _ _ E) as [Ty HTy].
    exists (registerSum v curr g Ty s), (ofNode (length (heap (G_ s)))).
    rewrite (addGradient_Some _ _ _ _ E), HTy. simpl.
    rewrite lookup_insert_eq.
    split; [done|]. split; [by rewrite bool_decide_eq_true_2 by (by eexists)|].
    split; [done|]. split; [done|].
    intros c [= <-]. split; [done|]. split; [done|].
    exists Ty. split; [done|].
    by rewrite lookup_app_r, Nat.sub_diag.
  - exists (registerDirect v g s), g.
    rewrite (addGradient_None _ _ _ E). simpl. rewrite lookup_insert_eq.
    split; [done|]. split; [by rewrite bool_decide_eq_true_2 by (by eexists)|].
    split; [done|]. split; [|done].
    intros _. by split.
Qed.

Lemma addGradient_getGradient_witness :
  ∃ s' r,
    addGradient (ofNode 0) (ofNode 1) sampleState = Ok (tt, s')
    ∧ hasGradient (ofNode 0) s' = Ok (true, s')
    ∧ getGradient (ofNode 0) s' = Ok (r, s').
Proof.
  destruct (addGradient_getGradient (ofNode 0) (ofNode 1) sampleState)
    as (s' & r & H1 & H2 & H3 & _).
  - apply (bool_decide_unpack (mapTyped sampleState)). vm_compute. exact I.
  - exists s', r. exact (conj H1 (conj H2 H3)).
Defined.

(** X2.  [addGradient v g] touches the entry of [v] only: every other value
    keeps its [hasGradient] and [getGradient]; the arena keeps its nodes, and
    the variable list, the recorded gradient variables and both staging
    lists are as before. *)
Theorem addGradient_frame (v g w : NodeValue) (s s' : State) :
  addGradient v g s = Ok (tt, s') →
  w ≠ v →
  map_ s' !! w = map_ s !! w
  ∧ hasGradient w s' = Ok (bool_decide (is_Some (map_ s !! w)), s')
  ∧ (∀ r, getGradient w s = Ok (r, s) → getGradient w s' = Ok (r, s'))
  ∧ (∃ new, heap (G_ s') = heap (G_ s) ++ new)
  ∧ vars_ (G_ s') = vars_ (G_ s)
  ∧ grads_ (G_ s') = grads_ (G_ s)
  ∧ toAppend s' = toAppend s
  ∧ newVars s' = newVars s.
Proof.
  intros H Hw.
  assert (map_ s' !! w = map_ s !! w) as Hmap.
  { apply addGradient_inv in H
      as [[_ [= ->]]|(c & Ty & _ & _ & [= ->])]; simpl;
      by rewrite lookup_insert_ne. }
  split; [done|].
  split; [by unfold hasGradient, map_count; rewrite Hmap|].
  split.
  { intros r Hr. apply map_get_inv in Hr as [Hr _].
    unfold getGradient, map_get. by rewrite Hmap, Hr. }
  apply addGradient_inv in H
    as [[_ [= ->]]|(c & Ty & _ & _ & [= ->])]; simpl.
  - split; [exists []; by rewrite app_nil_r|]. done.
  - split; [by eexists|]. done.
Qed.

Lemma addGradient_frame_witness :
  map_ (registerDirect (ofNode 0) (ofNode 1) sampleState) !! ofNode 2
  = map_ sampleState !! ofNode 2.
Proof.
  apply (addGradient_frame (ofNode 0) (ofNode 1) (ofNode 2) sampleState
           (registerDirect (ofNode 0) (ofNode 1) sampleState)).
  - reflexivity.
  - by intros [=].
Defined.

(** ** The rules written out in the pass *)

(** [addGradient] of a typed gradient on a typed state: the arena grows by at
    most a sum, the staging list is not touched, and the value is registered
    with the gradient itself when it had none. *)
Lemma addGradient_registers v g s :
  mapTyped s →
  ∃ s' sums,
    addGradient v g s = Ok (tt, s')
    ∧ heap (G_ s') = heap (G_ s) ++ sums ∧ Forall isSum sums
    ∧ toAppend s' = toAppend s
    ∧ is_Some (map_ s' !! v)
    ∧ (map_ s !! v = None → sums = [] ∧ map_ s' = <[v := g]> (map_ s))
    ∧ (is_Some (typeOf (heap (G_ s)) g) → mapTyped s').
Proof.
  intros Hm. destruct (addGradient_total v g s Hm) as [s' H].
  pose proof H as (sums & Hg & Hs & Hr & Ht)%addGradient_spec.
  exists s', sums. split; [done|].
  split; [apply (grown_heap _ _ _ Hg)|]. split; [done|].
  split.
  { rewrite (grown_toAppend _ _ _ Hg).
    destruct (isSum_flags _ Hs) as [Hst _].
    by rewrite (positions_none _ _ _ Hst), app_nil_r. }
  split; [done|]. split; [|by auto].
  intros Hn. rewrite (addGradient_None _ _ _ Hn) in H. injection H as <-.
  split; [|done].
  pose proof (grown_heap _ _ _ Hg) as Hh. simpl in Hh.
  apply (app_inv_head (heap (G_ s))). by rewrite <- Hh, app_nil_r.
Qed.

(** X3.  The save rule seeds the sweep.  On a save node whose input node is
    typed, the rule needs no registered gradient: it returns on every state
    with typed gradients.  It builds one zero node, named as the save node
    and typed as the node of the input, stages it, and registers a gradient
    for the input and for the variable written to.  When neither had a
    gradient and the variable written to is not the input itself, both get
    the zero node; when the save writes into its own input, the two
    registrations meet on one entry, and the input gets the sum node of the
    zero node with itself. *)
Theorem save_backward_seed (s : State) (N : NodeId) (name : string)
    (input : NodeValue) (output : NodeId) (Tin : TypeRef) :
  heap (G_ s) !! N = Some (SaveNode name input output) →
  typeOf (heap (G_ s)) (ofNode (getNode input)) = Some Tin →
  mapTyped s →
  let X := length (heap (G_ s)) in
  ∃ s' sums,
    gradStep N s = Ok (tt, s')
    ∧ heap (G_ s') = heap (G_ s) ++ ZeroNode name Tin :: sums
    ∧ Forall isSum sums
    ∧ toAppend s' = toAppend s ++ [X]
    ∧ is_Some (map_ s' !! input)
    ∧ is_Some (map_ s' !! ofNode output)
    ∧ (map_ s !! input = None → map_ s !! ofNode output = None →
       input ≠ ofNode output →
       sums = []
       ∧ map_ s' !! input = Some (ofNode X)
       ∧ map_ s' !! ofNode output = Some (ofNode X))
    ∧ (map_ s !! input = None → input = ofNode output →
       sums = [ArithmeticNode "updateGrad" Tin (ofNode X) (ofNode X) Add]
       ∧ map_ s' !! input = Some (ofNode (S X))).
Proof.
  intros HN HT Hm X.
  rewrite (gradStep_unfold _ _ _ HN). simpl.
  unfold getTypeOfNode. unfold mbind at 1, M_bind at 1.
  rewrite getType_typeOf, HT. simpl.
  unfold mbind at 1, M_bind at 1. simpl.
  unfold mbind at 1, M_bind at 1. simpl.
  fold X. set (s0 := mkState _ _ _ _).
  assert (mapTyped s0) as Hm0.
  { intros w g Hw. subst s0. simpl. apply typeOf_is_Some_app. by eapply Hm. }
  assert (typeOf (heap (G_ s0)) (ofNode X) = Some Tin) as HXT.
  { subst s0 X. simpl. by apply typeOf_new. }
  assert (is_Some (typeOf (heap (G_ s0)) (ofNode X))) as HX by (by exists Tin).
  destruct (addGradient_registers input (ofNode X) s0 Hm0)
    as (s1 & sums1 & H1 & Hh1 & Hs1 & Ht1 & Hr1 & Hn1 & Hm1).
  rewrite (bind_Ok _ _ _ _ _ H1).
  destruct (addGradient_registers (ofNode output) (ofNode X) s1 (Hm1 HX))
    as (s2 & sums2 & H2 & Hh2 & Hs2 & Ht2 & Hr2 & Hn2 & _).
  exists s2, (sums1 ++ sums2). split; [done|].
  split.
  { rewrite Hh2, Hh1. subst s0. simpl. by rewrite <- !app_assoc. }
  split; [by apply Forall_app|].
  split; [rewrite Ht2, Ht1; by subst s0|].
  split.
  { pose proof H2 as (n & Hg & _)%addGradient_spec.
    by apply (grown_dom _ _ _ Hg). }
  split; [done|].
  split.
  - intros Hi Ho Hne.
    destruct (Hn1 Hi) as [-> Hmap1].
    assert (map_ s1 !! ofNode output = None) as Ho1.
    { rewrite Hmap1, lookup_insert_ne by done. exact Ho. }
    destruct (Hn2 Ho1) as [-> Hmap2].
    split; [done|]. rewrite Hmap2, Hmap1. split.
    + rewrite lookup_insert_ne by done. by rewrite lookup_insert_eq.
    + by rewrite lookup_insert_eq.
  - intros Hi Heq.
    destruct (Hn1 Hi) as [-> Hmap1]. rewrite app_nil_r in Hh1.
    assert (map_ s1 !! ofNode output = Some (ofNode X)) as Ho1.
    { rewrite Hmap1, <- Heq. by rewrite lookup_insert_eq. }
    rewrite (addGradient_Some _ _ _ _ Ho1), Hh1, HXT in H2.
    injection H2 as <-. simpl in Hh2. rewrite Hh1 in Hh2.
    apply app_inv_head in Hh2 as <-.
    split; [done|]. simpl. rewrite Heq, lookup_insert_eq.
    f_equal. f_equal. rewrite Hh1. subst s0 X. simpl.
    rewrite length_app. simpl. lia.
Qed.

Lemma save_backward_seed_witness :
  ∃ s' sums,
    gradStep 4 (initialState fanoutGraph) = Ok (tt, s')
    ∧ heap (G_ s') = heap fanoutGraph ++ ZeroNode "s2" sampleTy :: sums
    ∧ toAppend s' = [5]
    ∧ sums = []
    ∧ map_ s' !! ofNode 0 = Some (ofNode 5)
    ∧ map_ s' !! ofNode 2 = Some (ofNode 5).
Proof.
  destruct (save_backward_seed (initialState fanoutGraph) 4 "s2" (ofNode 0) 2
              sampleTy eq_refl eq_refl (mapTyped_initialState fanoutGraph))
    as (s' & sums & H & Hh & _ & Ht & _ & _ & Hd & _).
  destruct (Hd eq_refl eq_refl) as (Hs & Hi & Ho); [discriminate|].
  exists s', sums.
  exact (conj H (conj Hh (conj Ht (conj Hs (conj Hi Ho))))).
Defined.

(** X4.  The reshape rule.  On a reshape node whose result has the
    registered gradient [outputG] and whose input node has type [Tin], the
    rule returns: it builds one reshape node of [outputG], named as the
    forward node, typed as the input and with the dimensions of the input,
    stages it and registers it for the input (as the gradient itself when the
    input had none).  Without a registered gradient for the result the rule
    ends in the missing-gradient error. *)
Theorem reshape_backward (s : State) (newDims : list N) (N : NodeId)
    (name : string) (Ty Tin : TypeRef) (input outputG : NodeValue) :
  heap (G_ s) !! N = Some (ReshapeNode name Ty input newDims) →
  typeOf (heap (G_ s)) (ofNode (getNode input)) = Some Tin →
  mapTyped s →
  let X := length (heap (G_ s)) in
  (map_ s !! ofNode N = None → gradStep N s = Fatal MissingGradient)
  ∧ (map_ s !! ofNode N = Some outputG →
     ∃ s' sums,
       gradStep N s = Ok (tt, s')
       ∧ heap (G_ s') =
           heap (G_ s) ++ ReshapeNode name Tin outputG (dims Tin) :: sums
       ∧ Forall isSum sums
       ∧ typeOf (heap (G_ s')) (ofNode X) = Some Tin
       ∧ toAppend s' = toAppend s ++ [X]
       ∧ is_Some (map_ s' !! input)
       ∧ (map_ s !! input = None → map_ s' !! input = Some (ofNode X))).
Proof.
  intros HN HT Hm X.
  rewrite (gradStep_unfold _ _ _ HN). simpl.
  unfold getGradient, map_get, getTypeOfNode.
  split; [intros HG; unfold mbind, M_bind; by rewrite HG|]. intros HG.
  unfold mbind at 1, M_bind at 1. rewrite HG.
  unfold mbind at 1, M_bind at 1. rewrite getType_typeOf, HT. simpl.
  unfold mbind at 1, M_bind at 1. simpl.
  unfold mbind at 1, M_bind at 1. simpl.
  fold X. set (s0 := mkState _ _ _ _).
  assert (mapTyped s0) as Hm0.
  { intros w g Hw. subst s0. simpl. apply typeOf_is_Some_app. by eapply Hm. }
  destruct (addGradient_registers input (ofNode X) s0 Hm0)
    as (s1 & sums & H1 & Hh1 & Hs1 & Ht1 & Hr1 & Hn1 & _).
  exists s1, sums. split; [done|].
  split; [rewrite Hh1; subst s0; simpl; by rewrite <- app_assoc|].
  split; [done|].
  split.
  { rewrite Hh1. apply typeOf_app. subst s0 X. simpl. by apply typeOf_new. }
  split; [rewrite Ht1; by subst s0|]. split; [done|].
  intros Hi. destruct (Hn1 Hi) as [_ ->]. by rewrite lookup_insert_eq.
Qed.

Lemma reshape_backward_witness :
  gradStep 1 (initialState danglingGraph) = Fatal MissingGradient.
Proof.
  destruct (reshape_backward (initialState danglingGraph) [6%N] 1 "r"
              (mkType FloatTy [6%N]) (mkType FloatTy [2%N; 3%N]) (ofNode 0)
              (ofNode 0) eq_refl eq_refl
              (mapTyped_initialState danglingGraph)) as [H _].
  by apply H.
Defined.

(** X5.  The slice rule.  On a slice node whose result has the registered
    gradient [outputG] and whose input node has type [Tin], the rule returns:
    it builds a zero node of the type of the input and an insert node that
    puts [outputG] into it at the start offsets of the forward slice, stages
    the zero node and then the insert node, and registers the insert node for
    the input.  Without a registered gradient for the result the rule ends in
    the missing-gradient error. *)
Theorem slice_backward (s : State) (start : list N) (N : NodeId)
    (name : string) (Ty Tin : TypeRef) (input outputG : NodeValue) :
  heap (G_ s) !! N = Some (SliceNode name Ty input start) →
  typeOf (heap (G_ s)) (ofNode (getNode input)) = Some Tin →
  mapTyped s →
  let X := length (heap (G_ s)) in
  (map_ s !! ofNode N = None → gradStep N s = Fatal MissingGradient)
  ∧ (map_ s !! ofNode N = Some outputG →
     ∃ s' sums,
       gradStep N s = Ok (tt, s')
       ∧ heap (G_ s') =
           heap (G_ s)
           ++ ZeroNode "expand" Tin
              :: InsertTensorNode "insert.slice.grad" Tin (ofNode X) outputG
                                  start
              :: sums
       ∧ Forall isSum sums
       ∧ typeOf (heap (G_ s')) (ofNode (S X)) = Some Tin
       ∧ toAppend s' = toAppend s ++ [X; S X]
       ∧ is_Some (map_ s' !! input)
       ∧ (map_ s !! input = None → map_ s' !! input = Some (ofNode (S X)))).
Proof.
  intros HN HT Hm X.
  rewrite (gradStep_unfold _ _ _ HN). simpl.
  unfold getGradient, map_get, getTypeOfNode.
  split.
  { intros HG. unfold mbind at 1, M_bind at 1. rewrite getType_typeOf, HT.
    simpl. unfold mbind, M_bind. simpl. by rewrite HG. }
  intros HG.
  unfold mbind at 1, M_bind at 1. rewrite getType_typeOf, HT. simpl.
  unfold mbind at 1, M_bind at 1. simpl.
  unfold mbind at 1, M_bind at 1. simpl. rewrite HG.
  unfold mbind at 1, M_bind at 1. simpl.
  unfold mbind at 1, M_bind at 1. simpl.
  unfold mbind at 1, M_bind at 1. simpl.
  rewrite length_app. simpl. rewrite Nat.add_1_r. fold X.
  set (s0 := mkState _ _ _ _).
  assert (mapTyped s0) as Hm0.
  { intros w g Hw. subst s0. simpl. rewrite <- app_assoc.
    apply typeOf_is_Some_app. by eapply Hm. }
  destruct (addGradient_registers input (ofNode (S X)) s0 Hm0)
    as (s1 & sums & H1 & Hh1 & Hs1 & Ht1 & Hr1 & Hn1 & _).
  exists s1, sums. split; [done|].
  split; [rewrite Hh1; subst s0; simpl; by rewrite <- !app_assoc|].
  split; [done|].
  split.
  { rewrite Hh1. apply typeOf_app. subst s0 X. simpl.
    replace (S (length (heap (G_ s))))
      with (length (heap (G_ s) ++ [ZeroNode "expand" Tin]))
      by (rewrite length_app; simpl; lia).
    by apply typeOf_new. }
  split; [rewrite Ht1; subst s0; simpl; by rewrite <- app_assoc|].
  split; [done|].
  intros Hi. destruct (Hn1 Hi) as [_ ->]. by rewrite lookup_insert_eq.
Qed.

(** A slice of a parameter written to an output, after the save node has run
    its rule: node 4 is the gradient of the result of the slice. *)
Lemma slice_backward_witness :
  ∃ s' sums,
    gradStep 2
      (mkState (mkGraph [Variable_ "W" (mkType FloatTy [4%N; 3%N]) Broadcast
                                   fzero;
                         Variable_ "out" (mkType FloatTy [2%N; 3%N]) Extern
                                   fzero;
                         SliceNode "sl" (mkType FloatTy [2%N; 3%N])
                                   (ofNode 0) [1%N; 0%N];
                         SaveNode "save" (ofNode 2) 1;
                         ZeroNode "save" (mkType FloatTy [2%N; 3%N])]
                        [2; 3] [0; 1] [])
               {[ ofNode 2 := ofNode 4 ]} [4] [])
    = Ok (tt, s')
    ∧ toAppend s' = [4] ++ [5; 6]
    ∧ Forall isSum sums.
Proof.
  set (s := mkState _ _ _ _).
  assert (mapTyped s) as Hm.
  { apply (bool_decide_unpack (mapTyped s)). vm_compute. exact I. }
  destruct (slice_backward s [1%N; 0%N] 2 "sl" (mkType FloatTy [2%N; 3%N])
              (mkType FloatTy [4%N; 3%N]) (ofNode 0) (ofNode 4)
              eq_refl eq_refl Hm) as [_ H].
  destruct (H eq_refl) as (s' & sums & H1 & _ & Hs & _ & Ht & _).
  exists s', sums. exact (conj H1 (conj Ht Hs)).
Defined.

(** ** The reverse shuffle *)

Lemma foldl_reverseShuffleStep_None shuffle l :
  foldl (reverseShuffleStep shuffle) None l = None.
Proof. induction l as [|i l IH]; simpl; done. Qed.

Lemma reverseShuffle_in_range (shuffle : list nat) (k : nat) rs :
  k ≤ length shuffle →
  foldl (reverseShuffleStep shuffle) (Some shuffle) (seq 0 k) = Some rs →
  length rs = length shuffle
  ∧ ∀ i j, i < k → shuffle !! i = Some j → j < length shuffle.
Proof.
  revert rs. induction k as [|k IH]; intros rs Hk.
  - intros [= <-]. split; [done|]. lia.
  - rewrite seq_S, foldl_app. simpl.
    destruct (foldl (reverseShuffleStep shuffle) (Some shuffle) (seq 0 k))
      as [rs0|] eqn:E; [|done].
    destruct (IH rs0) as [Hlen Hin]; [lia|done|].
    unfold reverseShuffleStep. simpl.
    destruct (shuffle !! k) as [j|] eqn:Hj; [|done]. simpl.
    case_decide as Hlt; [|done]. intros [= <-].
    split; [by rewrite length_insert|].
    intros i j' Hi Hij. destruct (decide (i = k)) as [->|Hne].
    + rewrite Hj in Hij. injection Hij as <-. lia.
    + apply (Hin i); [lia|done].
Qed.

(** X6.  The loop that builds the reverse shuffle stores within its vector
    exactly when every axis of [shuffle] is below the number of axes; an axis
    out of range makes the store fall outside the vector. *)
Theorem makeReverseShuffle_defined (shuffle : list nat) :
  is_Some (makeReverseShuffle shuffle) ↔
  Forall (λ j, j < length shuffle) shuffle.
Proof.
  split; [|apply makeReverseShuffle_total].
  intros [rs Hrs]. unfold makeReverseShuffle in Hrs.
  apply reverseShuffle_in_range in Hrs as [_ Hin]; [|done].
  apply Forall_forall. intros j [i Hi]%list_elem_of_lookup.
  apply (Hin i j); [|done]. by eapply lookup_lt_Some.
Qed.

Lemma permutation_onto (shuffle : list nat) j :
  isPermutation shuffle → j < length shuffle → j ∈ shuffle.
Proof.
  intros [Hnd Hlt] Hj.
  assert (shuffle ≡ₚ seq 0 (length shuffle)) as Hp.
  { apply submseteq_length_Permutation.
    - apply NoDup_submseteq; [done|]. intros x Hx.
      rewrite Forall_forall in Hlt. apply elem_of_seq.
      specialize (Hlt x Hx). lia.
    - by rewrite length_seq. }
  rewrite Hp. apply elem_of_seq. lia.
Qed.

(** X7.  The reverse shuffle of a permutation of the axes is again a
    permutation of the axes, and reversing it gives the shuffle back: the
    backward node of a backward transpose is the forward transpose. *)
Theorem makeReverseShuffle_involutive (shuffle : list nat) :
  isPermutation shuffle →
  ∃ rs, makeReverseShuffle shuffle = Some rs
        ∧ isPermutation rs
        ∧ makeReverseShuffle rs = Some shuffle.
Proof.
  intros Hp.
  destruct (makeReverseShuffle_inverse shuffle Hp) as (rs & Hrs & Hlen & Hinv).
  assert (∀ j, j < length shuffle →
               ∃ i, shuffle !! i = Some j ∧ rs !! j = Some i) as Honto.
  { intros j Hj.
    destruct (proj1 (list_elem_of_lookup _ _) (permutation_onto _ _ Hp Hj))
      as [i Hi].
    exists i. split; [done|]. by apply Hinv. }
  assert (isPermutation rs) as Hprs.
  { split.
    - apply NoDup_alt. intros j1 j2 i H1 H2.
      destruct (Honto j1) as (i1 & Hs1 & Hr1);
        [rewrite <- Hlen; by eapply lookup_lt_Some|].
      destruct (Honto j2) as (i2 & Hs2 & Hr2);
        [rewrite <- Hlen; by eapply lookup_lt_Some|].
      rewrite H1 in Hr1. injection Hr1 as <-.
      rewrite H2 in Hr2. injection Hr2 as <-.
      rewrite Hs1 in Hs2. by injection Hs2.
    - apply Forall_forall. intros i [j Hj]%list_elem_of_lookup.
      destruct (Honto j) as (i' & Hs & Hr);
        [rewrite <- Hlen; by eapply lookup_lt_Some|].
      rewrite Hj in Hr. injection Hr as <-.
      rewrite Hlen. by eapply lookup_lt_Some. }
  exists rs. split; [done|]. split; [done|].
  destruct (makeReverseShuffle_inverse rs Hprs) as (rs' & Hrs' & Hlen' & Hinv').
  rewrite Hrs'. f_equal. apply list_eq. intros i.
  destruct (shuffle !! i) as [j|] eqn:Hi.
  - apply (Hinv' j i). by apply Hinv.
  - apply lookup_ge_None. apply lookup_ge_None in Hi. lia.
Qed.

Lemma makeReverseShuffle_involutive_witness :
  ∃ rs, makeReverseShuffle [2; 0; 1] = Some rs
        ∧ isPermutation rs
        ∧ makeReverseShuffle rs = Some [2; 0; 1].
Proof.
  apply makeReverseShuffle_involutive.
  apply (bool_decide_unpack (isPermutation [2; 0; 1])). exact I.
Defined.

(** ** What the graph owns when the pass returns *)

Lemma built_class_cases (nd : Node) :
  isBackward nd = true ∨ isUpdateClass nd = true →
  (getKind nd = VariableKind ∧ (isSnapshotVar nd = true ∨ isGsum nd = true)
   ∧ isInserted nd = false ∧ isStaged nd = false)
  ∨ (getKind nd = SliceNodeKind ∧ isInserted nd = false
     ∧ isStaged nd = false ∧ isSnapshotVar nd = false ∧ isGsum nd = false)
  ∨ (getKind nd ≠ VariableKind ∧ getKind nd ≠ SliceNodeKind
     ∧ (isInserted nd = true ∨ isStaged nd = true)
     ∧ isSnapshotVar nd = false ∧ isGsum nd = false).
Proof.
  destruct nd as [name| op | | | | | | | | | |]; simpl;
    intros [H|H]; try discriminate H.
  - left. split; [done|]. split; [|done].
    destruct (decide (name = "gsum")) as [->|Hne].
    + by right.
    + left. by apply bool_decide_eq_true_2.
  - right. right. repeat split; try done. by left.
  - right. right. repeat split; try done. by left.
  - right. right. repeat split; try done. by right.
  - right. right. repeat split; try done. by right.
  - right. left. done.
  - right. right. repeat split; try done. by right.
  - right. right. repeat split; try done. by right.
  - right. right. repeat split; try done. by right.
  - right. right. repeat split; try done. by right.
Qed.

(** X8.  When the pass returns on a graph whose variables and nodes exist,
    every variable it built is in the variable list of the graph, and every
    other node it built is in the node list, but for the slice nodes: the
    slices of the concat rule are registered as gradients and never handed to
    the graph. *)
Theorem built_nodes_owned (isTraining : Node → bool) (g : Graph)
    (conf : TrainingConfig) (mode : CompilationMode) (g' : Graph)
    (X : NodeId) (nd : Node) :
  rootsValid g →
  generateGradientNodes isTraining g conf mode = Ok g' →
  heap g' !! X = Some nd → length (heap g) ≤ X →
  (X ∈ nodes_ g' ↔ getKind nd ≠ VariableKind ∧ getKind nd ≠ SliceNodeKind)
  ∧ (X ∈ vars_ g' ↔ getKind nd = VariableKind).
Proof.
  intros Hr H HX Hle.
  apply pass_growth in H
    as (s1 & s2 & n1 & n2 & _ & _ & Hg1 & Hb1 & Hg2 & Hc2 & _ & ->).
  pose proof (grown_trans _ _ _ _ _ Hg1 Hg2) as Hg.
  simpl in HX.
  rewrite (grown_heap _ _ _ Hg) in HX. simpl in HX.
  rewrite lookup_app_r in HX by done.
  assert (isBackward nd = true ∨ isUpdateClass nd = true) as Hclass.
  { apply list_elem_of_lookup_2, elem_of_app in HX as [Hin|Hin].
    - left. rewrite Forall_forall in Hb1. by apply Hb1.
    - right. rewrite Forall_forall in Hc2. by apply Hc2. }
  apply Forall_app in Hr as [Hrv Hrn].
  assert (∀ P, X ∈ positions P (length (heap g)) (n1 ++ n2) ↔ P nd = true)
    as Hpos.
  { intros P. rewrite positions_lookup. split.
    - intros (nd' & _ & Hnd' & HP). rewrite HX in Hnd'. by injection Hnd' as <-.
    - intros HP. by exists nd. }
  simpl.
  rewrite (grown_nodes _ _ _ Hg), (grown_vars _ _ _ Hg),
    (grown_toAppend _ _ _ Hg), (grown_newVars _ _ _ Hg). simpl.
  rewrite !elem_of_app, !Hpos.
  assert (X ∉ nodes_ g) as HnX.
  { intros Hin. rewrite Forall_forall in Hrn. apply Hrn in Hin. lia. }
  assert (X ∉ vars_ g) as HvX.
  { intros Hin. rewrite Forall_forall in Hrv. apply Hrv in Hin. lia. }
  destruct (built_class_cases nd Hclass)
    as [(Hk & Hv & Hi & Hs)|[(Hk & Hi & Hs & Hsv & Hgs)
                            |(Hk1 & Hk2 & His & Hsv & Hgs)]].
  - rewrite Hk, Hi, Hs. split; split; try done.
    + by intros [[?|?]|?].
    + by intros [? _].
    + intros _. destruct Hv as [->| ->]; auto.
  - rewrite Hk, Hi, Hs, Hsv, Hgs. split; split; try done.
    + by intros [[?|?]|?].
    + by intros [_ ?].
    + by intros [[?|?]|?].
  - rewrite Hsv, Hgs. split; split; try done.
    + intros _. destruct His as [->| ->]; auto.
    + by intros [[?|?]|?].
Qed.

Lemma built_nodes_owned_witness :
  (7 ∈ nodes_ fanoutResult ↔
   ArithmeticNodeKind ≠ VariableKind ∧ ArithmeticNodeKind ≠ SliceNodeKind)
  ∧ (7 ∈ vars_ fanoutResult ↔ ArithmeticNodeKind = VariableKind).
Proof.
  apply (built_nodes_owned trainOf fanoutGraph sampleConf Train fanoutResult 7
           (ArithmeticNode "updateGrad" sampleTy (ofNode 5) (ofNode 6) Add)).
  - apply (bool_decide_unpack (rootsValid fanoutGraph)). vm_compute. exact I.
  - reflexivity.
  - reflexivity.
  - simpl. lia.
Defined.

(** ** The pass from end to end *)

(** X9.  The pass returns on a graph in construction order whose variables
    and nodes exist, whose nodes are all differentiable, in which every
    result the traversal reaches has a consumer and every variable marked for
    training is an operand of a node of the graph.  In the graph it returns,
    each such variable has an update node in the node list, bound to the
    variable, to an accumulator that is in the variable list and to the
    hyperparameters of the configuration. *)
Theorem pass_returns (isTraining : Node → bool) (g : Graph)
    (conf : TrainingConfig) (mode : CompilationMode) :
  topoOrdered (heap g) → rootsValid g →
  Forall (differentiable (heap g)) (heap g) → everyResultConsumed g →
  Forall (λ V, ∃ name Ty init val,
            heap g !! V = Some (Variable_ name Ty init val)
            ∧ (isTraining (Variable_ name Ty init val) = true →
               ∃ M ndM, M ∈ nodes_ g ∧ heap g !! M = Some ndM
                        ∧ ofNode V ∈ getInputs ndM))
         (vars_ g) →
  ∃ g',
    generateGradientNodes isTraining g conf mode = Ok g'
    ∧ ∀ V nd, V ∈ vars_ g → heap g !! V = Some nd → isTraining nd = true →
        ∃ X grad gsum,
          X ∈ nodes_ g' ∧ gsum ∈ vars_ g'
          ∧ heap g' !! X =
              Some (SGDNode (getName nd) grad V gsum (L1Decay conf)
                      (L2Decay conf) (learningRate conf) (momentum conf)
                      (batchSize conf)).
Proof.
  intros Ht Hr Hdiff Hcons Hvars.
  destruct (getPostOrder_spec g Ht Hr) as (order & Ho & Hpo & Hroots).
  assert (runSweep g = sweep (reverse order) (initialState g)) as Hrun.
  { unfold runSweep. by rewrite Ho. }
  assert (Forall (λ N, N < length (heap g)) (reverse order)) as Hvalid.
  { apply Forall_forall. intros N HN. rewrite elem_of_reverse in HN.
    pose proof (po_valid _ _ Hpo) as Hv. rewrite Forall_forall in Hv.
    by apply Hv. }
  assert (∀ N nd, N ∈ order → heap g !! N = Some nd →
                  differentiable (heap g) nd) as Hdiff'.
  { intros N nd _ Hnd. rewrite Forall_forall in Hdiff. apply Hdiff.
    by eapply list_elem_of_lookup_2. }
  destruct (sweep_total g order Hpo Hdiff' (Hcons order Ho) (reverse order)
              [] (initialState g) []) as [s1 H1].
  { done. }
  { simpl. by rewrite app_nil_r. }
  { apply mapTyped_initialState. }
  { by intros M ndM v ?%elem_of_nil. }
  pose proof H1 as H1'.
  apply sweep_spec in H1' as (n1 & Hg1 & Hb1 & Hreg & Ht1); [|done].
  specialize (Ht1 (mapTyped_initialState g)).
  pose proof (grown_heap _ _ _ Hg1) as Hh1. simpl in Hh1.
  pose proof (grown_vars _ _ _ Hg1) as Hv1. simpl in Hv1.
  rewrite (proj1 (positions_backward_vars _ _ Hb1)), app_nil_r in Hv1.
  destruct (updateLoop_spec isTraining conf mode s1 Ht1)
    as (s2 & n2 & snaps & upds & Hu & Hb & _ & Hup).
  { unfold updatable. rewrite Hv1, Hh1.
    eapply Forall_impl; [exact Hvars|]. simpl.
    intros V (name & Ty & init & val & HV & Htr).
    exists name, Ty, init, val.
    split; [by apply lookup_app_l_Some|].
    unfold trainable. rewrite (lookup_app_l_Some _ _ _ _ HV). intros Hi.
    destruct (Htr Hi) as (M & ndM & HM & HndM & HvM).
    apply (Hreg M ndM); [|done|done].
    apply elem_of_reverse, Hroots, elem_of_app. by right. }
  exists (G_ (committed s2)). split.
  { unfold generateGradientNodes. rewrite Hrun, H1.
    by rewrite (bind_Ok _ _ _ _ _ Hu), commit_eq. }
  intros V nd HV Hnd Htr.
  assert (V ∈ upVar <$> upds) as Hin.
  { rewrite Hup, Hv1. apply list_elem_of_filter. split; [|done].
    unfold trainable. by rewrite Hh1, (lookup_app_l_Some _ _ _ _ Hnd). }
  apply list_elem_of_fmap in Hin as (up & -> & Hin).
  pose proof (built_upds _ _ _ _ _ _ _ _ Hb) as Hups.
  rewrite Forall_forall in Hups.
  destruct (Hups up Hin) as (nd' & grad & Ty & Hnd' & _ & _ & _ & Hsgd).
  rewrite Hh1, (lookup_app_l_Some _ _ _ _ Hnd) in Hnd'. injection Hnd' as <-.
  exists (upNode up), grad, (upGsum up). simpl.
  split; [|split; [|done]].
  - apply elem_of_app. right.
    rewrite (built_toAppend _ _ _ _ _ _ _ _ Hb). apply elem_of_app. right.
    by apply list_elem_of_fmap_2.
  - apply elem_of_app. right.
    rewrite (built_newVars _ _ _ _ _ _ _ _ Hb). apply elem_of_app. right.
    by apply list_elem_of_fmap_2.
Qed.

Lemma pass_returns_witness :
  ∃ g', generateGradientNodes trainOf chainGraph sampleConf TrainDebug = Ok g'
        ∧ ∃ X grad gsum,
            X ∈ nodes_ g' ∧ gsum ∈ vars_ g'
            ∧ heap g' !! X =
                Some (SGDNode "W" grad 0 gsum (L1Decay sampleConf)
                        (L2Decay sampleConf) (learningRate sampleConf)
                        (momentum sampleConf) (batchSize sampleConf)).
Proof.
  destruct (pass_returns trainOf chainGraph sampleConf TrainDebug)
    as (g' & Hg' & Hsgd).
  - apply (bool_decide_unpack (topoOrdered (heap chainGraph))).
    vm_compute. exact I.
  - apply (bool_decide_unpack (rootsValid chainGraph)). vm_compute. exact I.
  - exact chainGraph_differentiable.
  - exact chainGraph_consumed.
  - repeat apply Forall_cons_2; [..|apply Forall_nil_2].
    + exists "W", (mkType FloatTy [2%N; 3%N]), Broadcast, fzero.
      split; [reflexivity|]. intros _.
      exists 2, (ReshapeNode "r" (mkType FloatTy [3%N; 2%N]) (ofNode 0)
                             [3%N; 2%N]).
      split; [kind_in|]. split; [reflexivity|]. simpl. kind_in.
    + exists "out", (mkType FloatTy [2%N; 3%N]), Extern, fzero.
      split; [reflexivity|]. intros H. discriminate H.
  - exists g'. split; [exact Hg'|].
    apply (Hsgd 0 (Variable_ "W" (mkType FloatTy [2%N; 3%N]) Broadcast fzero)).
    + kind_in.
    + reflexivity.
    + reflexivity.
Defined.

(** ** The lists of the returned graph *)

Lemma positions_NoDup P base (new : list Node) :
  NoDup (positions P base new).
Proof.
  revert base. induction new as [|nd new IH]; intros base; simpl.
  - apply NoDup_nil_2.
  - apply NoDup_app. split; [|split; [|apply IH]].
    + destruct (P nd); [apply NoDup_singleton | apply NoDup_nil_2].
    + intros X HX (nd' & Hle & _)%positions_lookup.
      destruct (P nd); [|by apply elem_of_nil in HX].
      apply list_elem_of_singleton in HX as ->. lia.
Qed.

Lemma positions_bounds P base (new : list Node) X :
  X ∈ positions P base new → base ≤ X < base + length new.
Proof.
  intros (nd & Hle & Hnd & _)%positions_lookup.
  apply lookup_lt_Some in Hnd. lia.
Qed.

Lemma positions_disjoint P Q base (new : list Node) X :
  (∀ nd, P nd = true → Q nd = true → False) →
  X ∈ positions P base new → X ∈ positions Q base new → False.
Proof.
  intros HPQ (nd & _ & Hnd & HP)%positions_lookup
             (nd' & _ & Hnd' & HQ)%positions_lookup.
  rewrite Hnd in Hnd'. injection Hnd' as <-. by eapply HPQ.
Qed.

(** X10.  The pass keeps the lists of the graph well formed: when every
    variable and node of the input graph exists and no list names an object
    twice, the same holds of the graph the pass returns.  No node or variable
    is handed to the graph twice, and none is handed over that was not
    built. *)
Theorem pass_lists_wellformed (isTraining : Node → bool) (g : Graph)
    (conf : TrainingConfig) (mode : CompilationMode) (g' : Graph) :
  rootsValid g → NoDup (nodes_ g) → NoDup (vars_ g) →
  generateGradientNodes isTraining g conf mode = Ok g' →
  rootsValid g' ∧ NoDup (nodes_ g') ∧ NoDup (vars_ g').
Proof.
  intros Hr Hnn Hnv H.
  apply pass_growth in H
    as (s1 & s2 & n1 & n2 & _ & _ & Hg1 & _ & Hg2 & _ & _ & ->).
  pose proof (grown_trans _ _ _ _ _ Hg1 Hg2) as Hg.
  apply Forall_app in Hr as [Hrv Hrn].
  rewrite Forall_forall in Hrv. rewrite Forall_forall in Hrn.
  unfold rootsValid. simpl.
  rewrite (grown_heap _ _ _ Hg), (grown_nodes _ _ _ Hg),
    (grown_vars _ _ _ Hg), (grown_toAppend _ _ _ Hg),
    (grown_newVars _ _ _ Hg). simpl.
  set (base := length (heap g)). set (new := n1 ++ n2).
  split; [|split].
  - rewrite length_app. fold base.
    repeat (apply Forall_app; split); apply Forall_forall; intros X HX;
      try (apply positions_bounds in HX; lia).
    + apply Hrv in HX. lia.
    + apply Hrn in HX. lia.
  - rewrite <- app_assoc. apply NoDup_app. split; [done|]. split.
    + intros X HX [HX'|HX']%elem_of_app;
        apply Hrn in HX; apply positions_bounds in HX'; lia.
    + apply NoDup_app. split; [apply positions_NoDup|].
      split; [|apply positions_NoDup].
      intros X HX HX'.
      eapply (positions_disjoint isInserted isStaged); [|exact HX|exact HX'].
      by intros [].
  - rewrite <- app_assoc. apply NoDup_app. split; [done|]. split.
    + intros X HX [HX'|HX']%elem_of_app;
        apply Hrv in HX; apply positions_bounds in HX'; lia.
    + apply NoDup_app. split; [apply positions_NoDup|].
      split; [|apply positions_NoDup].
      intros X HX HX'.
      eapply (positions_disjoint isSnapshotVar isGsum);
        [|exact HX|exact HX'].
      intros [name| | | | | | | | | | |]; simpl; try done.
      intros H1%bool_decide_eq_true H2%bool_decide_eq_true. done.
Qed.

Lemma pass_lists_wellformed_witness :
  rootsValid fanoutResult ∧ NoDup (nodes_ fanoutResult)
  ∧ NoDup (vars_ fanoutResult).
Proof.
  apply (pass_lists_wellformed trainOf fanoutGraph sampleConf Train).
  - apply (bool_decide_unpack (rootsValid fanoutGraph)). vm_compute. exact I.
  - apply (bool_decide_unpack (NoDup (nodes_ fanoutGraph))).
    vm_compute. exact I.
  - apply (bool_decide_unpack (NoDup (vars_ fanoutGraph))).
    vm_compute. exact I.
  - reflexivity.
Defined.

(** ** What a returned sweep has registered *)

(** X11.  Whenever the sweep returns, every operand of every node the
    traversal reached has a registered gradient, and every registered
    gradient is a value of a node of the arena; the variable list of the
    graph is as it was and the staging list of variables is empty. *)
Theorem sweep_registers_operands (g : Graph) (order : list NodeId)
    (s1 : State) :
  getPostOrder g = Ok order →
  runSweep g = Ok (tt, s1) →
  (∀ N nd v, N ∈ order → heap g !! N = Some nd → v ∈ getInputs nd →
     ∃ grad, map_ s1 !! v = Some grad
             ∧ is_Some (typeOf (heap (G_ s1)) grad))
  ∧ (∀ v grad, map_ s1 !! v = Some grad →
               is_Some (typeOf (heap (G_ s1)) grad))
  ∧ vars_ (G_ s1) = vars_ g ∧ newVars s1 = [].
Proof.
  intros Ho H. unfold runSweep in H.
  pose proof (getPostOrder_valid g) as Hv. rewrite Ho in Hv, H.
  simpl in Hv.
  apply sweep_spec in H as (n1 & Hg & Hb & Hreg & Ht).
  - specialize (Ht (mapTyped_initialState g)).
    destruct (positions_backward_vars (length (heap g)) n1 Hb) as [Hsv Hgs].
    split; [|split; [exact Ht|split]].
    + intros N nd v HN Hnd Hin.
      destruct (Hreg N nd v) as [grad Hgrad]; try done.
      { by apply elem_of_reverse. }
      exists grad. split; [done|]. by apply (Ht v grad).
    + rewrite (grown_vars _ _ _ Hg). simpl. by rewrite Hsv, app_nil_r.
    + rewrite (grown_newVars _ _ _ Hg). simpl. by rewrite Hgs.
  - simpl. apply Forall_forall. intros N HN. rewrite elem_of_reverse in HN.
    rewrite Forall_forall in Hv. by apply Hv.
Qed.

Lemma sweep_registers_operands_witness :
  ∃ s1 grad,
    runSweep chainGraph = Ok (tt, s1)
    ∧ map_ s1 !! ofNode 0 = Some grad
    ∧ is_Some (typeOf (heap (G_ s1)) grad).
Proof.
  destruct (runSweep chainGraph) as [[[] s1]|] eqn:Hs;
    [|vm_compute in Hs; discriminate Hs].
  destruct (sweep_registers_operands chainGraph [0; 1; 2; 3; 4] s1)
    as (Hreg & _).
  - reflexivity.
  - exact Hs.
  - destruct (Hreg 2 (ReshapeNode "r" (mkType FloatTy [3%N; 2%N]) (ofNode 0)
                                  [3%N; 2%N]) (ofNode 0))
      as (grad & Hgrad & Hty).
    + kind_in.
    + reflexivity.
    + simpl. kind_in.
    + exists s1, grad. exact (conj eq_refl (conj Hgrad Hty)).
Defined.
